(** * shmemq: a fixed-slot message queue in a named shared memory segment

    A shallow embedding of [shmemq.c] and of its driver [main.c], and the
    properties of the ring buffer, of the segment life cycle and of the
    driver.

    Integer types follow the LP64 data model the code is built for:
    [unsigned long], [size_t] and [off_t] are 64 bits wide, [unsigned int]
    and [int] are 32 bits wide.  Values are kept in [Z] and every
    wrap-around of the C arithmetic is written out with [to_ulong],
    [to_uint], [to_size_t] and [to_off_t].

    The ring buffer functions run in a monad over the mapped segment that
    logs what they do to it; an operation that C leaves undefined (a
    [memcpy] that leaves the payload array or the caller's buffer, [% 0],
    a mutex used in the wrong state) stops the computation.  The life
    cycle functions run in a state monad over the process and the shared
    memory name space.  One process is modelled: no other process runs
    between two steps of a call.  [printf] is left out and [malloc] and
    [strdup] succeed, as the code takes for granted.

    Two properties need more than that and get it: [created_object] is
    the created segment with the bytes that the object has beyond the
    payload array, which a copy that leaves the array reaches, and
    [shmemq_new_racing] is [shmemq_new] with a step of another process
    between its two calls of [shm_open].

    The driver [main.c] is embedded as well: what [main], [server] and
    [client] do to get and to give up their queues, in the same state
    monad, and the message loops of the two processes as a sequence of
    turns, one call of the queue interface each. *)

From Stdlib Require Import ZArith Lia Bool.
From stdpp Require Import base tactics option list gmap strings.

Local Open Scope Z_scope.

(** ** Machine integers *)

Definition ULONG_MOD : Z := 2 ^ 64.
Definition UINT_MOD : Z := 2 ^ 32.
Definition INT_MAX : Z := 2 ^ 31 - 1.
Definition INT_MIN : Z := - 2 ^ 31.

(** Conversion to [unsigned long], [unsigned int] and [size_t]. *)
Definition to_ulong (z : Z) : Z := z mod ULONG_MOD.
Definition to_uint (z : Z) : Z := z mod UINT_MOD.
Definition to_size_t (z : Z) : Z := z mod ULONG_MOD.

Definition is_ulong (z : Z) : Prop := 0 <= z < ULONG_MOD.
Definition is_uint (z : Z) : Prop := 0 <= z < UINT_MOD.
Definition is_int (z : Z) : Prop := INT_MIN <= z <= INT_MAX.

Abbreviation byte := Byte.byte.

(** ** The shared segment and the handle *)

(** A [pthread_mutex_t] lying in the segment.  Zero-filled memory that was
    never passed to [pthread_mutex_init] is [MutexUninit]. *)
Record mutexattr := { pshared : bool; adaptive : bool }.

Inductive mutex :=
| MutexUninit
| MutexUnlocked (a : mutexattr)
| MutexLocked (a : mutexattr).

(** [struct shmemq_info]: what lives in shared memory.  [data] is the
    payload array that starts at the [data] member; it has the bytes that
    the creator sized the object for beyond the header, [max_size] of them
    when nothing wrapped. *)
Record shmemq_info := {
  lock : mutex;
  read_index : Z;
  write_index : Z;
  data : list byte
}.

(** [struct _shmemq]: the process-local handle.  [mem] is the address the
    segment is mapped at. *)
Record shmemq_t := {
  max_count : Z;
  element_size : Z;
  max_size : Z;
  name : string;
  shmem_fd : Z;
  mmap_size : Z;
  mem : Z
}.

Definition set_lock (l : mutex) (m : shmemq_info) : shmemq_info :=
  {| lock := l; read_index := read_index m;
     write_index := write_index m; data := data m |}.
Definition set_read_index (v : Z) (m : shmemq_info) : shmemq_info :=
  {| lock := lock m; read_index := v;
     write_index := write_index m; data := data m |}.
Definition set_write_index (v : Z) (m : shmemq_info) : shmemq_info :=
  {| lock := lock m; read_index := read_index m;
     write_index := v; data := data m |}.
Definition set_data (d : list byte) (m : shmemq_info) : shmemq_info :=
  {| lock := lock m; read_index := read_index m;
     write_index := write_index m; data := d |}.

(** ** A monad for code that runs on the mapped segment

    A computation reads and writes the segment, logs what it does to it,
    and either returns or stops at an undefined operation. *)

Inductive event :=
| EvLock
| EvUnlock
| EvCopyIn (off n : Z)    (* memcpy into data[off .. off+n) *)
| EvCopyOut (off n : Z).  (* memcpy out of data[off .. off+n) *)

Inductive fault :=
| OutOfBounds     (* a memcpy leaves the payload array or the caller's buffer *)
| DivByZero       (* [x % 0] *)
| Deadlock        (* locking a mutex that is held and never released *)
| BadMutex.       (* locking or unlocking a mutex in the wrong state *)

Inductive outcome (A : Type) :=
| Done (a : A) (m : shmemq_info) (tr : list event)
| Stuck (f : fault) (tr : list event).
Arguments Done {A} a m tr.
Arguments Stuck {A} f tr.

Definition M (A : Type) : Type := shmemq_info -> outcome A.

Definition ret {A} (a : A) : M A := fun m => Done a m [].

Definition bind {A B} (k : A -> M B) (c : M A) : M B := fun m =>
  match c m with
  | Done a m1 t1 =>
      match k a m1 with
      | Done b m2 t2 => Done b m2 (t1 ++ t2)
      | Stuck f t2 => Stuck f (t1 ++ t2)
      end
  | Stuck f t1 => Stuck f t1
  end.

#[global] Instance M_ret : MRet M := @ret.
#[global] Instance M_bind : MBind M := @bind.

Definition get_read_index : M Z := fun m => Done (read_index m) m [].
Definition get_write_index : M Z := fun m => Done (write_index m) m [].
Definition put_read_index (v : Z) : M unit :=
  fun m => Done tt (set_read_index v m) [].
Definition put_write_index (v : Z) : M unit :=
  fun m => Done tt (set_write_index v m) [].

Definition pthread_mutex_lock : M unit := fun m =>
  match lock m with
  | MutexUnlocked a => Done tt (set_lock (MutexLocked a) m) [EvLock]
  | MutexLocked _ => Stuck Deadlock []
  | MutexUninit => Stuck BadMutex []
  end.

Definition pthread_mutex_unlock : M unit := fun m =>
  match lock m with
  | MutexLocked a => Done tt (set_lock (MutexUnlocked a) m) [EvUnlock]
  | _ => Stuck BadMutex []
  end.

(** [a % b] on unsigned operands. *)
Definition umod (a b : Z) : M Z := fun m =>
  if b =? 0 then Stuck DivByZero [] else Done (a mod b) m [].

(** [memcpy(&data[off], src, n)]: [n] bytes are read from the caller's
    buffer [src] and written to the payload array.  [memcpy] checks
    nothing; the run stops here when the copy leaves the bytes that
    [data] holds, since what lies behind them is not in the segment. *)
Definition memcpy_in (off : Z) (src : list byte) (n : Z) : M unit := fun m =>
  if (n <=? Z.of_nat (length src)) && (off + n <=? Z.of_nat (length (data m)))
  then Done tt
         (set_data (take (Z.to_nat off) (data m) ++ take (Z.to_nat n) src
                      ++ drop (Z.to_nat (off + n)) (data m)) m)
         [EvCopyIn off n]
  else Stuck OutOfBounds [].

(** [memcpy(dst, &data[off], n)]: [n] bytes are read from the payload array
    and written over the start of the caller's buffer [dst]. *)
Definition memcpy_out (dst : list byte) (off : Z) (n : Z) : M (list byte) :=
  fun m =>
  if (n <=? Z.of_nat (length dst)) && (off + n <=? Z.of_nat (length (data m)))
  then Done (take (Z.to_nat n) (drop (Z.to_nat off) (data m))
               ++ drop (Z.to_nat n) dst) m
         [EvCopyOut off n]
  else Stuck OutOfBounds [].

(** ** The ring buffer operations *)

(** [shmemq_try_enqueue(self, element, len)].  [len] is an [int]; the
    comparison with the [unsigned int] field converts it to
    [unsigned int], and [memcpy] receives it converted to [size_t]. *)
Definition shmemq_try_enqueue (self : shmemq_t) (element : list byte) (len : Z)
  : M bool :=
  if negb (to_uint len =? element_size self) then mret false
  else
    pthread_mutex_lock ;;
    w ← get_write_index;
    r ← get_read_index;
    if to_ulong (w - r) >=? max_size self then
      pthread_mutex_unlock ;; mret false
    else
      off ← umod w (max_size self);
      memcpy_in off element (to_size_t len) ;;
      put_write_index (to_ulong (w + element_size self)) ;;
      pthread_mutex_unlock ;; mret true.

(** [shmemq_try_dequeue(self, element, len)].  The result carries the
    caller's buffer as the call leaves it. *)
Definition shmemq_try_dequeue (self : shmemq_t) (element : list byte) (len : Z)
  : M (bool * list byte) :=
  if negb (to_uint len =? element_size self) then mret (false, element)
  else
    pthread_mutex_lock ;;
    r ← get_read_index;
    w ← get_write_index;
    if r >=? w then
      pthread_mutex_unlock ;; mret (false, element)
    else
      off ← umod r (max_size self);
      out ← memcpy_out element off (to_size_t len);
      put_read_index (to_ulong (r + element_size self)) ;;
      pthread_mutex_unlock ;; mret (true, out).

(** ** The operating system as the life cycle code sees it *)

(** What the build and the C library fix: [sizeof(struct shmemq_info)]
    (it depends on [pthread_mutex_t]), the page size that [mmap] and
    [munmap] round to, and the [ADAPTIVE_MUTEX] compile-time switch. *)
Class platform := {
  SIZEOF_INFO : Z;
  PAGE_SIZE : Z;
  ADAPTIVE_MUTEX : bool;
  (* two 8-byte counters, one payload byte and a mutex; a [size_t] *)
  SIZEOF_INFO_range : 17 < SIZEOF_INFO < 2 ^ 32;
  PAGE_SIZE_pos : 0 < PAGE_SIZE
}.

(** glibc on x86-64: a 40-byte mutex, two 8-byte counters and [data[1]],
    padded to 64 bytes; 4 KiB pages. *)
Definition linux_x86_64 : platform :=
  {| SIZEOF_INFO := 64; PAGE_SIZE := 4096; ADAPTIVE_MUTEX := false;
     SIZEOF_INFO_range := conj eq_refl eq_refl;
     PAGE_SIZE_pos := eq_refl |}.

Inductive errno := ENOENT | EACCES | EMFILE | EINVAL | ENOMEM.

Definition errno_eqb (a b : errno) : bool :=
  match a, b with
  | ENOENT, ENOENT | EACCES, EACCES | EMFILE, EMFILE
  | EINVAL, EINVAL | ENOMEM, ENOMEM => true
  | _, _ => false
  end.

(** A shared memory object: its size in bytes and its content read as a
    [struct shmemq_info]. *)
Record shm_object := { obj_size : Z; obj_mem : shmemq_info }.

(** The state of the calling process and of the shared memory name space.
    Descriptors and mapped pages refer to their object by name; [shmemq.c]
    never uses a descriptor or a mapping after it unlinked the name. *)
Record os_state := {
  shm_ns : gmap string shm_object;   (* the named shared memory objects *)
  fd_table : gmap nat string;        (* open descriptors of the process *)
  vm_pages : gmap Z string;          (* mapped pages of the process *)
  heap_blocks : nat                  (* live [malloc] blocks *)
}.

Definition set_shm_ns (f : gmap string shm_object -> gmap string shm_object)
  (s : os_state) : os_state :=
  {| shm_ns := f (shm_ns s); fd_table := fd_table s;
     vm_pages := vm_pages s; heap_blocks := heap_blocks s |}.
Definition set_fd_table (f : gmap nat string -> gmap nat string)
  (s : os_state) : os_state :=
  {| shm_ns := shm_ns s; fd_table := f (fd_table s);
     vm_pages := vm_pages s; heap_blocks := heap_blocks s |}.
Definition set_vm_pages (f : gmap Z string -> gmap Z string)
  (s : os_state) : os_state :=
  {| shm_ns := shm_ns s; fd_table := fd_table s;
     vm_pages := f (vm_pages s); heap_blocks := heap_blocks s |}.
Definition set_heap_blocks (f : nat -> nat) (s : os_state) : os_state :=
  {| shm_ns := shm_ns s; fd_table := fd_table s;
     vm_pages := vm_pages s; heap_blocks := f (heap_blocks s) |}.

(** What the kernel decides on its own during one call of [shmemq_new]:
    whether opening is refused although the name resolves, whether the
    resize is refused, and where the mapping is placed, if at all. *)
Inductive refusal := Refuse_EACCES | Refuse_EMFILE.

Definition errno_of_refusal (r : refusal) : errno :=
  match r with Refuse_EACCES => EACCES | Refuse_EMFILE => EMFILE end.

Record oracle := {
  open_refused : option refusal;     (* first [shm_open] *)
  create_refused : option refusal;   (* second [shm_open], with [O_CREAT] *)
  ftruncate_refused : bool;
  mmap_page : option Z               (* first page of the mapping, or none *)
}.

(** System calls and what the code does to the mapped header, as logged. *)
Inductive syscall :=
| SysShmOpen (nm : string) (creat : bool) (res : errno + nat)
| SysFtruncate (fd : Z) (len : Z) (ok : bool)
| SysMmap (len : Z) (fd : Z) (res : option Z)
| SysMunmap (addr : Z) (len : Z) (ok : bool)
| SysClose (fd : Z)
| SysShmUnlink (nm : string)
| StoreIndices (r w : Z)
| MutexInit (a : mutexattr)
| Malloc
| Free.

Definition OS (A : Type) : Type := os_state -> A * os_state * list syscall.

#[global] Instance OS_ret : MRet OS := fun A a s => (a, s, []).
#[global] Instance OS_bind : MBind OS := fun A B k c s =>
  let '(a, s1, l1) := c s in
  let '(b, s2, l2) := k a s1 in
  (b, s2, l1 ++ l2).

Definition sys_log (e : syscall) : OS unit := fun s => (tt, s, [e]).

(** Zero-filled memory of an object of [size] bytes, read as a
    [struct shmemq_info] followed by its payload bytes.  The payload array
    is what follows the [SIZEOF_INFO - 1] bytes that [shmemq_new] adds to
    [max_size] for the header. *)
Definition resize_mem `{platform} (size : Z) (m : shmemq_info) : shmemq_info :=
  set_data (resize (Z.to_nat (size - (SIZEOF_INFO - 1))) Byte.x00 (data m)) m.

Definition zero_mem : shmemq_info :=
  {| lock := MutexUninit; read_index := 0; write_index := 0; data := [] |}.

Definition malloc : OS unit := fun s =>
  (tt, set_heap_blocks S s, [Malloc]).
Definition free : OS unit := fun s =>
  (tt, set_heap_blocks Nat.pred s, [Free]).

(** [shm_open(name, O_RDWR [| O_CREAT], S_IRUSR | S_IWUSR)]: the lowest
    free descriptor on success. *)
Definition shm_open (refused : option refusal) (nm : string) (creat : bool)
  : OS (errno + nat) := fun s =>
  match refused with
  | Some r =>
      let e := errno_of_refusal r in (inl e, s, [SysShmOpen nm creat (inl e)])
  | None =>
      let fd := fresh (dom (fd_table s)) in
      match shm_ns s !! nm with
      | Some _ =>
          (inr fd, set_fd_table <[fd := nm]> s, [SysShmOpen nm creat (inr fd)])
      | None =>
          if creat then
            (inr fd,
             set_fd_table <[fd := nm]>
               (set_shm_ns <[nm := {| obj_size := 0; obj_mem := zero_mem |}]> s),
             [SysShmOpen nm creat (inr fd)])
          else (inl ENOENT, s, [SysShmOpen nm creat (inl ENOENT)])
      end
  end.

(** The descriptor as the [int] that [shm_open] returns. *)
Definition fd_result (r : errno + nat) : Z :=
  match r with inr fd => Z.of_nat fd | inl _ => -1 end.

(** [ftruncate(fd, length)]: [length] arrives as a signed [off_t]. *)
Definition to_off_t (z : Z) : Z := (z + 2 ^ 63) mod ULONG_MOD - 2 ^ 63.

Definition ftruncate `{platform} (refused : bool) (fd : Z) (len : Z) : OS Z :=
  fun s =>
  match fd_table s !! Z.to_nat fd with
  | Some nm =>
      if refused || (to_off_t len <? 0) || (fd <? 0) then
        (-1, s, [SysFtruncate fd len false])
      else
        (0,
         set_shm_ns (alter (fun o => {| obj_size := to_off_t len;
                                        obj_mem := resize_mem (to_off_t len) (obj_mem o) |}) nm) s,
         [SysFtruncate fd len true])
  | None => (-1, s, [SysFtruncate fd len false])
  end.

(** Pages touched by the byte range [[addr, addr + len)]. *)
Definition pages_of `{platform} (addr len : Z) : list Z :=
  seqZ (addr / PAGE_SIZE) ((addr + len + PAGE_SIZE - 1) / PAGE_SIZE - addr / PAGE_SIZE).

(** [mmap(NULL, len, PROT_READ | PROT_WRITE, MAP_SHARED, fd, 0)]: the
    address, or [None] for [MAP_FAILED]. *)
Definition mmap `{platform} (page : option Z) (len : Z) (fd : Z) : OS (option Z) :=
  fun s =>
  match page, fd_table s !! Z.to_nat fd with
  | Some p, Some nm =>
      let addr := p * PAGE_SIZE in
      if (len =? 0) || (fd <? 0)
         || negb (forallb (fun q => bool_decide (vm_pages s !! q = None))
                    (pages_of addr len))
      then (None, s, [SysMmap len fd None])
      else
        (Some addr,
         set_vm_pages (fun vm => foldr (fun q => <[q := nm]>) vm (pages_of addr len)) s,
         [SysMmap len fd (Some addr)])
  | _, _ => (None, s, [SysMmap len fd None])
  end.

(** [munmap(addr, len)] unmaps every page that contains a byte of the
    range; a zero length is an error and unmaps nothing. *)
Definition munmap `{platform} (addr len : Z) : OS unit := fun s =>
  if len =? 0 then (tt, s, [SysMunmap addr len false])
  else
    (tt,
     set_vm_pages (fun vm => foldr delete vm (pages_of addr len)) s,
     [SysMunmap addr len true]).

Definition close (fd : Z) : OS unit := fun s =>
  if fd <? 0 then (tt, s, [SysClose fd])
  else (tt, set_fd_table (delete (Z.to_nat fd)) s, [SysClose fd]).

Definition shm_unlink (nm : string) : OS unit := fun s =>
  (tt, set_shm_ns (delete nm) s, [SysShmUnlink nm]).

(** Stores through [self->mem] into the object mapped at [addr]. *)
Definition store_mem `{platform} (addr : Z) (f : shmemq_info -> shmemq_info)
  : OS unit := fun s =>
  match vm_pages s !! (addr / PAGE_SIZE) with
  | Some nm =>
      (tt,
       set_shm_ns (alter (fun o => {| obj_size := obj_size o;
                                      obj_mem := f (obj_mem o) |}) nm) s,
       [])
  | None => (tt, s, [])
  end.

(** ** Creation, attachment and teardown *)

Section lifecycle.
Context `{platform}.

Definition with_fd (fd : Z) (self : shmemq_t) : shmemq_t :=
  {| max_count := max_count self; element_size := element_size self;
     max_size := max_size self; name := name self; shmem_fd := fd;
     mmap_size := mmap_size self; mem := mem self |}.
Definition with_mem (addr : Z) (self : shmemq_t) : shmemq_t :=
  {| max_count := max_count self; element_size := element_size self;
     max_size := max_size self; name := name self; shmem_fd := shmem_fd self;
     mmap_size := mmap_size self; mem := addr |}.

(** The attribute [shmemq_new] builds for the mutex. *)
Definition new_mutexattr : mutexattr :=
  {| pshared := true; adaptive := ADAPTIVE_MUTEX |}.

(** The [FAIL:] label of [shmemq_new]. *)
Definition new_FAIL (self : shmemq_t) : OS (option shmemq_t) :=
  (if negb (shmem_fd self =? -1) then
     close (shmem_fd self) ;; shm_unlink (name self)
   else mret tt) ;;
  free ;;   (* free(self->name) *)
  free ;;   (* free(self) *)
  mret None.

(** The [if (created) { ... }] block of [shmemq_new]. *)
Definition new_init (self : shmemq_t) : OS unit :=
  store_mem (mem self) (fun m => set_read_index 0 (set_write_index 0 m)) ;;
  sys_log (StoreIndices 0 0) ;;
  store_mem (mem self) (set_lock (MutexUnlocked new_mutexattr)) ;;
  sys_log (MutexInit new_mutexattr).

(** [shmemq_new] from the [ftruncate] on, with the descriptor open. *)
Definition new_map (o : oracle) (self : shmemq_t) (created : bool)
  : OS (option shmemq_t) :=
  rc ← (if created then
          ftruncate (ftruncate_refused o) (shmem_fd self) (mmap_size self)
        else mret 0);
  if created && (rc =? -1) then new_FAIL self
  else
    p ← mmap (mmap_page o) (mmap_size self) (shmem_fd self);
    match p with
    | None => new_FAIL self
    | Some addr =>
        let self := with_mem addr self in
        (if created then new_init self else mret tt) ;;
        mret (Some self)
    end.

(** [shmemq_new(name, max_count, element_size)]; [None] is [NULL].  The
    allocations are taken to succeed, as the code does. *)
Definition shmemq_new (o : oracle) (nm : string) (max_count element_size : Z)
  : OS (option shmemq_t) :=
  malloc ;;   (* self = malloc(sizeof(shmemq_t)) *)
  let max_size := to_ulong (max_count * element_size) in
  malloc ;;   (* self->name = strdup(name) *)
  let self :=
    {| max_count := max_count; element_size := element_size;
       max_size := max_size; name := nm; shmem_fd := -1;
       mmap_size := to_ulong (max_size + SIZEOF_INFO - 1); mem := 0 |} in
  r ← shm_open (open_refused o) nm false;
  let self := with_fd (fd_result r) self in
  if shmem_fd self =? -1 then
    if match r with inl e => errno_eqb e ENOENT | inr _ => false end then
      r2 ← shm_open (create_refused o) nm true;
      let self := with_fd (fd_result r2) self in
      if shmem_fd self =? -1 then new_FAIL self
      else new_map o self true
    else new_FAIL self
  else new_map o self false.

(** [shmemq_destroy(self, unlink)]. *)
Definition shmemq_destroy (self : shmemq_t) (unlink : Z) : OS unit :=
  munmap (mem self) (max_size self) ;;
  close (shmem_fd self) ;;
  (if negb (unlink =? 0) then shm_unlink (name self) else mret tt) ;;
  free ;;   (* free(self->name) *)
  free.     (* free(self) *)

End lifecycle.

(** ** The calls of a client and the states they reach *)

(** One call of the queue interface with its arguments: the caller's
    buffer and the declared length. *)
Inductive call :=
| Enqueue (element : list byte) (len : Z)
| Dequeue (element : list byte) (len : Z).

Definition call_buffer (c : call) : list byte :=
  match c with Enqueue e _ | Dequeue e _ => e end.
Definition call_len (c : call) : Z :=
  match c with Enqueue _ l | Dequeue _ l => l end.

(** The call's result and the caller's buffer after it. *)
Definition shmemq_call (self : shmemq_t) (c : call) : M (bool * list byte) :=
  match c with
  | Enqueue element len =>
      b ← shmemq_try_enqueue self element len; mret (b, element)
  | Dequeue element len => shmemq_try_dequeue self element len
  end.

(** The segment as [shmemq_new] leaves it when it created the object:
    zero-filled by [ftruncate], then the indices and the mutex set.  Its
    [data] is the payload array that the size was computed for;
    [created_object] below has the bytes of the object behind it as
    well. *)
Definition created_segment `{platform} (self : shmemq_t) : shmemq_info :=
  {| lock := MutexUnlocked new_mutexattr;
     read_index := 0;
     write_index := 0;
     data := replicate
               (Z.to_nat (to_off_t (mmap_size self) - (SIZEOF_INFO - 1)))
               Byte.x00 |}.

(** The states of a segment that [self] created, after any number of calls
    that returned.  The declared length is an [int]. *)
Inductive reachable `{platform} (self : shmemq_t) : shmemq_info → Prop :=
| reach_created : reachable self (created_segment self)
| reach_call m c r m' tr :
    reachable self m →
    is_int (call_len c) →
    shmemq_call self c m = Done r m' tr →
    reachable self m'.

(** ** Notions the properties are stated with *)

(** [write_index - read_index] in [unsigned long] arithmetic. *)
Definition index_distance (m : shmemq_info) : Z :=
  to_ulong (write_index m - read_index m).

(** The segment after a successful enqueue of the first [n] bytes of
    [element] at offset [off]. *)
Definition enqueued (self : shmemq_t) (element : list byte) (off n : Z)
  (m : shmemq_info) : shmemq_info :=
  {| lock := lock m; read_index := read_index m;
     write_index := to_ulong (write_index m + element_size self);
     data := take (Z.to_nat off) (data m) ++ take (Z.to_nat n) element
               ++ drop (Z.to_nat (off + n)) (data m) |}.

(** The segment after a successful dequeue. *)
Definition dequeued (self : shmemq_t) (m : shmemq_info) : shmemq_info :=
  {| lock := lock m;
     read_index := to_ulong (read_index m + element_size self);
     write_index := write_index m; data := data m |}.

(** [n] bytes of the payload array at byte offset [off]. *)
Definition read_at (off n : nat) (d : list byte) : list byte :=
  take n (drop off d).

(** The payload array with [src] written at byte offset [off]. *)
Definition write_at (off : nat) (src d : list byte) : list byte :=
  take off d ++ src ++ drop (off + length src) d.

(** The slot of the element with index [i]: [element_size] bytes at
    [i % max_size]. *)
Definition slot (self : shmemq_t) (d : list byte) (i : Z) : list byte :=
  read_at (Z.to_nat (i mod max_size self)) (Z.to_nat (element_size self)) d.

(** The queue a segment stands for while [write_index] has not wrapped:
    the slots of the indices [read_index], [read_index + element_size],
    ... below [write_index], oldest first. *)
Definition contents (self : shmemq_t) (m : shmemq_info) : list (list byte) :=
  map (fun k => slot self (data m)
                  (read_index m + Z.of_nat k * element_size self))
    (seq 0 (Z.to_nat ((write_index m - read_index m) / element_size self))).

(** Calls in a row that all return [true]: enqueue each payload of [Ps]
    with its length as the declared length ... *)
Fixpoint enqueue_all (self : shmemq_t) (Ps : list (list byte))
  (m : shmemq_info) : option shmemq_info :=
  match Ps with
  | [] => Some m
  | P :: Ps' =>
      match shmemq_try_enqueue self P (Z.of_nat (length P)) m with
      | Done true m' _ => enqueue_all self Ps' m'
      | _ => None
      end
  end.

(** ... and dequeue into each buffer of [bufs], with its length as the
    declared length; the buffers as the calls leave them. *)
Fixpoint dequeue_all (self : shmemq_t) (bufs : list (list byte))
  (m : shmemq_info) : option (list (list byte) * shmemq_info) :=
  match bufs with
  | [] => Some ([], m)
  | buf :: bufs' =>
      match shmemq_try_dequeue self buf (Z.of_nat (length buf)) m with
      | Done (true, out) m' _ =>
          match dequeue_all self bufs' m' with
          | Some (outs, m'') => Some (out :: outs, m'')
          | None => None
          end
      | _ => None
      end
  end.

(** The queue is usable as a ring: the array the creator sized holds
    [max_size] bytes and a whole number of elements. *)
Definition ring_ok (self : shmemq_t) (L : Z) : Prop :=
  (element_size self | max_size self) ∧ L = max_size self.

(** What holds of every state of a segment whose payload array has [L]
    bytes. *)
Definition ring_inv (self : shmemq_t) (L : Z) (m : shmemq_info) : Prop :=
  (∃ a, lock m = MutexUnlocked a)
  ∧ Z.of_nat (length (data m)) = L
  ∧ is_ulong (read_index m) ∧ is_ulong (write_index m)
  ∧ (element_size self | read_index m)
  ∧ (element_size self | index_distance m)
  ∧ index_distance m <= max_size self
  ∧ (ring_ok self L ∨ read_index m <= write_index m <= L).

(** The number of bytes of the payload array of a segment that [self]
    created. *)
Definition segment_size `{platform} (self : shmemq_t) : Z :=
  Z.of_nat (length (data (created_segment self))).

(** What the ring buffer code relies on in a handle whose segment has a
    payload array of [L] bytes. *)
Record handle_facts (self : shmemq_t) (L : Z) : Prop := {
  hf_es : is_uint (element_size self);
  hf_ms : is_ulong (max_size self);
  hf_L : 0 <= L < 2 ^ 63;
  hf_Lms : L <= max_size self;
  hf_zero : element_size self = 0 → max_size self = 0
}.

(** ** A small queue to run the code on *)

(** Nothing open, mapped or named, and a kernel that refuses nothing and
    maps at page 16. *)
Definition os_empty : os_state :=
  {| shm_ns := ∅; fd_table := ∅; vm_pages := ∅; heap_blocks := 0 |}.

Definition kernel_ok : oracle :=
  {| open_refused := None; create_refused := None;
     ftruncate_refused := false; mmap_page := Some 16 |}.

(** The handle that [shmemq_new("q", 2, 2)] returns there on x86-64. *)
Definition q22 : shmemq_t :=
  {| max_count := 2; element_size := 2; max_size := 4; name := "q";
     shmem_fd := 0; mmap_size := 67; mem := 65536 |}.

Definition segment_of (r w : Z) (d : list byte) : shmemq_info :=
  {| lock := MutexUnlocked {| pshared := true; adaptive := false |};
     read_index := r; write_index := w; data := d |}.

(** The handle that [shmemq_new("q", 1, 4294967295)] returns there: one
    element of [UINT_MAX] bytes. *)
Definition q_uintmax : shmemq_t :=
  {| max_count := 1; element_size := 4294967295; max_size := 4294967295;
     name := "q"; shmem_fd := 0; mmap_size := 4294967358; mem := 65536 |}.

(** Arguments of [shmemq_new] for which the size computations stay in
    range: at least one element, an element size that an [int] length
    can declare, and a mapping size that fits [off_t]. *)
Definition valid_params `{platform} (mc es : Z) : Prop :=
  0 < mc ∧ 0 < es <= INT_MAX ∧ mc * es + SIZEOF_INFO - 1 < 2 ^ 63.

(** The handle that [shmemq_new("q", 1, 0)] returns there: capacity one,
    elements of zero bytes. *)
Definition q10 : shmemq_t :=
  {| max_count := 1; element_size := 0; max_size := 0; name := "q";
     shmem_fd := 0; mmap_size := 63; mem := 65536 |}.

(** The handle that [shmemq_new("q", 1, 1)] returns there: capacity one,
    elements of one byte. *)
Definition q11 : shmemq_t :=
  {| max_count := 1; element_size := 1; max_size := 1; name := "q";
     shmem_fd := 0; mmap_size := 64; mem := 65536 |}.

(** The handle that [shmemq_new("q", 6148914691236517206, 3)] returns
    there: the product [max_count * element_size] is [2 ^ 64 + 2]. *)
Definition q_over : shmemq_t :=
  {| max_count := 6148914691236517206; element_size := 3; max_size := 2;
     name := "q"; shmem_fd := 0; mmap_size := 65; mem := 65536 |}.

(** The log entries that initialise the mapped header. *)
Definition is_init (e : syscall) : bool :=
  match e with StoreIndices _ _ | MutexInit _ => true | _ => false end.

(** A kernel that refuses nothing but has no room for the mapping. *)
Definition kernel_no_map : oracle :=
  {| open_refused := None; create_refused := None;
     ftruncate_refused := false; mmap_page := None |}.

(** A process that holds nothing, and the object ["q"] that a peer
    created with capacity two and two-byte elements and enqueued one
    element into. *)
Definition os_peer : os_state :=
  {| shm_ns :=
       {[ "q"%string :=
            {| obj_size := 67;
               obj_mem := segment_of 0 2
                            [Byte.x01; Byte.x02; Byte.x00; Byte.x00] |} ]};
     fd_table := ∅; vm_pages := ∅; heap_blocks := 0 |}.

(** The handle that [shmemq_new("q", 512, 8)] returns on x86-64 with
    nothing open: a payload array of one page. *)
Definition q_page : shmemq_t :=
  {| max_count := 512; element_size := 8; max_size := 4096; name := "q";
     shmem_fd := 0; mmap_size := 4159; mem := 65536 |}.

(** The results of a sequence of calls, one after the other, up to the
    first call that does not return. *)
Fixpoint call_results (self : shmemq_t) (cs : list call) (m : shmemq_info)
  : list (option (bool * list byte)) :=
  match cs with
  | [] => []
  | c :: cs' =>
      match shmemq_call self c m with
      | Done r m' _ => Some r :: call_results self cs' m'
      | Stuck _ _ => [None]
      end
  end.

(** The handle that [shmemq_new("bench_q", 4, 8)] returns there. *)
Definition bench_q : shmemq_t :=
  {| max_count := 4; element_size := 8; max_size := 32; name := "bench_q";
     shmem_fd := 0; mmap_size := 95; mem := 65536 |}.

(** ** A reference for runs of calls *)

(** A first-in first-out queue of at most [cap] elements of [es] bytes as
    a list, oldest element first: what a call returns, with the caller's
    buffer after it, and the queue after it. *)
Definition fifo_call (cap es : Z) (q : list (list byte)) (c : call)
  : (bool * list byte) * list (list byte) :=
  if negb (call_len c =? es) then ((false, call_buffer c), q)
  else
    match c with
    | Enqueue element _ =>
        if Z.of_nat (length q) <? cap then ((true, element), q ++ [element])
        else ((false, element), q)
    | Dequeue element _ =>
        match q with
        | [] => ((false, element), q)
        | x :: q' => ((true, x), q')
        end
    end.

Fixpoint fifo_results (cap es : Z) (q : list (list byte)) (cs : list call)
  : list (option (bool * list byte)) :=
  match cs with
  | [] => []
  | c :: cs' =>
      Some (fifo_call cap es q c).1
        :: fifo_results cap es (fifo_call cap es q c).2 cs'
  end.

(** The calls that a client makes with a buffer of its own of the
    declared length. *)
Definition sized_call (es : Z) (c : call) : Prop :=
  is_int (call_len c)
  ∧ (call_len c = es → Z.of_nat (length (call_buffer c)) = es).


(** ** The benchmark driver, [main.c]

    [main] creates two queues and forks a server and a client.  The
    client sends a message on the server queue and waits for it on the
    client queue; the server waits for it on the server queue and sends
    it back on the client queue; [REPETITIONS] times.  Every wait is a
    loop around a call that returns [false].

    The two processes are modelled by their turns: a turn of a process is
    one call of the queue interface, with what the process does between
    this call and its next one.  The calls exclude each other through
    the mutex in the segment, and a process touches the segments in no
    other way, so that a run of the driver is a sequence of turns. *)

(** The values of the macros in a build that does not override them. *)
Definition DATA_SIZE : Z := 256.
Definition REPETITIONS : Z := 100000.
Definition QUEUE_SIZE : Z := 1000.

Definition SIZEOF_INT : Z := 4.

(** [sizeof(struct message)]: an [int] and [DATA_SIZE - sizeof(int)]
    characters, with no padding between or after them. *)
Definition SIZEOF_MESSAGE : Z := SIZEOF_INT + (DATA_SIZE - SIZEOF_INT).

(** The bytes of an [int], least significant first, as x86-64 stores it. *)
Definition byte_of_Z (z : Z) : byte :=
  default Byte.x00 (Byte.of_N (Z.to_N (z mod 256))).

Definition int_bytes (z : Z) : list byte :=
  map (fun k => byte_of_Z (Z.shiftr z (8 * k))) [0; 1; 2; 3].

(** [struct message msg = { .type = 42, .data = "Hello" }] in memory: the
    characters that the initialiser does not give are zero. *)
Definition msg_init : list byte :=
  int_bytes 42
  ++ resize (Z.to_nat (DATA_SIZE - SIZEOF_INT)) Byte.x00
       (String.list_byte_of_string "Hello").

(** The handles of one process. *)
Record queues := { server_queue : shmemq_t; client_queue : shmemq_t }.

(** A process in its [for] loop: the counter [i], which of the two
    [while] loops of the body it is in, and its variable [msg]. *)
Inductive loop_pos := FirstWait | SecondWait.

Record proc := { loop_i : Z; pos : loop_pos; msg : list byte }.

(** The two segments and the two processes. *)
Record bench := {
  server_mem : shmemq_info;
  client_mem : shmemq_info;
  server_p : proc;
  client_p : proc
}.

(** One evaluation of the condition of
    [while (!shmemq_try_dequeue(q, &msg, sizeof(msg)))]: whether the loop
    is left, [msg] after the call, and the segment after it. *)
Definition wait_dequeue (q : shmemq_t) (msg : list byte) (m : shmemq_info)
  : fault + (bool * list byte * shmemq_info) :=
  match shmemq_try_dequeue q msg SIZEOF_MESSAGE m with
  | Done (ok, out) m' _ => inr (ok, out, m')
  | Stuck f _ => inl f
  end.

(** The same for [while (!shmemq_try_enqueue(q, &msg, sizeof(msg)))]. *)
Definition wait_enqueue (q : shmemq_t) (msg : list byte) (m : shmemq_info)
  : fault + (bool * list byte * shmemq_info) :=
  match shmemq_try_enqueue q msg SIZEOF_MESSAGE m with
  | Done ok m' _ => inr (ok, msg, m')
  | Stuck f _ => inl f
  end.

(** The end of the loop body: [i % (REPETITIONS/10) == 0] decides whether
    a progress mark is printed, then [++i].  The counter stays below
    [REPETITIONS], an [int]. *)
Definition end_iteration (reps : Z) (p : proc) : fault + proc :=
  if Z.quot reps 10 =? 0 then inl DivByZero
  else inr {| loop_i := loop_i p + 1; pos := FirstWait; msg := msg p |}.

(** A turn of the process that runs [server]: it waits on the server
    queue, then sends on the client queue. *)
Definition server_turn (reps : Z) (qs : queues) (b : bench) : fault + bench :=
  let p := server_p b in
  if negb (loop_i p <? reps) then inr b
  else
    match pos p with
    | FirstWait =>
        match wait_dequeue (server_queue qs) (msg p) (server_mem b) with
        | inr (ok, out, m') =>
            inr {| server_mem := m'; client_mem := client_mem b;
                   server_p := {| loop_i := loop_i p;
                                  pos := if ok then SecondWait else FirstWait;
                                  msg := out |};
                   client_p := client_p b |}
        | inl f => inl f
        end
    | SecondWait =>
        match wait_enqueue (client_queue qs) (msg p) (client_mem b) with
        | inr (true, out, m') =>
            match end_iteration reps p with
            | inr p' =>
                inr {| server_mem := server_mem b; client_mem := m';
                       server_p := p'; client_p := client_p b |}
            | inl f => inl f
            end
        | inr (false, out, m') =>
            inr {| server_mem := server_mem b; client_mem := m';
                   server_p := p; client_p := client_p b |}
        | inl f => inl f
        end
    end.

(** A turn of the process that runs [client]: it sends on the server
    queue, then waits on the client queue. *)
Definition client_turn (reps : Z) (qs : queues) (b : bench) : fault + bench :=
  let p := client_p b in
  if negb (loop_i p <? reps) then inr b
  else
    match pos p with
    | FirstWait =>
        match wait_enqueue (server_queue qs) (msg p) (server_mem b) with
        | inr (ok, out, m') =>
            inr {| server_mem := m'; client_mem := client_mem b;
                   server_p := server_p b;
                   client_p := {| loop_i := loop_i p;
                                  pos := if ok then SecondWait else FirstWait;
                                  msg := out |} |}
        | inl f => inl f
        end
    | SecondWait =>
        match wait_dequeue (client_queue qs) (msg p) (client_mem b) with
        | inr (true, out, m') =>
            match end_iteration reps
                    {| loop_i := loop_i p; pos := pos p; msg := out |} with
            | inr p' =>
                inr {| server_mem := server_mem b; client_mem := m';
                       server_p := server_p b; client_p := p' |}
            | inl f => inl f
            end
        | inr (false, out, m') =>
            inr {| server_mem := server_mem b; client_mem := m';
                   server_p := server_p b;
                   client_p := {| loop_i := loop_i p; pos := pos p;
                                  msg := out |} |}
        | inl f => inl f
        end
    end.

Inductive role := Server | Client.

Definition turn (reps : Z) (sqs cqs : queues) (who : role) (b : bench)
  : fault + bench :=
  match who with
  | Server => server_turn reps sqs b
  | Client => client_turn reps cqs b
  end.

(** A run: the turns in the order the schedule gives, up to the first
    one that does not return. *)
Fixpoint run (reps : Z) (sqs cqs : queues) (sched : list role) (b : bench)
  : fault + bench :=
  match sched with
  | [] => inr b
  | who :: sched' =>
      match turn reps sqs cqs who b with
      | inr b' => run reps sqs cqs sched' b'
      | inl f => inl f
      end
  end.

(** The driver when the two processes enter their loops: the queues as
    [main] created them, and [msg] as initialised in each process. *)
Definition bench_init `{platform} (main_qs : queues) : bench :=
  {| server_mem := created_segment (server_queue main_qs);
     client_mem := created_segment (client_queue main_qs);
     server_p := {| loop_i := 0; pos := FirstWait; msg := msg_init |};
     client_p := {| loop_i := 0; pos := FirstWait; msg := msg_init |} |}.

(** The handles that the driver works with: those that
    [shmemq_new(name, QUEUE_SIZE, sizeof(struct message))] returns. *)
Definition bench_handle `{platform} (h : shmemq_t) : Prop :=
  ∃ o nm s s' log,
    shmemq_new o nm QUEUE_SIZE SIZEOF_MESSAGE s = (Some h, s', log).

Definition bench_queues `{platform} (qs : queues) : Prop :=
  bench_handle (server_queue qs) ∧ bench_handle (client_queue qs).

(** The states of the driver: those that some schedule leads to. *)
Definition bench_reaches `{platform} (reps : Z) (main_qs sqs cqs : queues)
  (b : bench) : Prop :=
  ∃ sched, run reps sqs cqs sched (bench_init main_qs) = inr b.

(** [main] up to the first [fork]: both queues are asked for, and [main]
    returns [1] at once unless it got both. *)
Definition main_open `{platform} (o1 o2 : oracle) (argv1 argv2 : string)
  : OS (option queues) :=
  server_queue ← shmemq_new o1 argv1 QUEUE_SIZE SIZEOF_MESSAGE;
  client_queue ← shmemq_new o2 argv2 QUEUE_SIZE SIZEOF_MESSAGE;
  match server_queue, client_queue with
  | Some sq, Some cq =>
      mret (Some {| server_queue := sq; client_queue := cq |})
  | _, _ => mret None
  end.

(** [main] in the parent once both children were waited for. *)
Definition main_close `{platform} (qs : queues) : OS unit :=
  shmemq_destroy (server_queue qs) 1 ;;
  shmemq_destroy (client_queue qs) 1.

(** [server] and [client] up to their loop.  Both are called with the
    name of the server queue in [argv[1]] and that of the client queue in
    [argv[2]].  The second queue is not asked for when the first one
    failed. *)
Definition worker_open `{platform} (o1 o2 : oracle)
  (server_queue_name client_queue_name : string)
  : OS (option shmemq_t * option shmemq_t) :=
  server_queue ← shmemq_new o1 server_queue_name QUEUE_SIZE SIZEOF_MESSAGE;
  match server_queue with
  | None => mret (None, None)
  | Some _ =>
      client_queue ←
        shmemq_new o2 client_queue_name QUEUE_SIZE SIZEOF_MESSAGE;
      mret (server_queue, client_queue)
  end.

(** [server] and [client] from their label [FAIL:] on. *)
Definition worker_close `{platform} (server_queue client_queue : option shmemq_t)
  : OS unit :=
  (match server_queue with
   | Some q => shmemq_destroy q 0
   | None => mret tt
   end) ;;
  (match client_queue with
   | Some q => shmemq_destroy q 0
   | None => mret tt
   end).

(** Whether a process has left its [for] loop. *)
Definition finished (reps : Z) (p : proc) : bool := negb (loop_i p <? reps).

(** The calls of a process that returned [true] so far: two in every
    iteration. *)
Definition in_second (p : proc) : Z :=
  match pos p with FirstWait => 0 | SecondWait => 1 end.

Definition calls_done (p : proc) : Z := 2 * loop_i p + in_second p.

(** Whether the next call of a process returns [true]: it is in its
    loop, about to send or with something to receive. *)
Definition can_move (reps : Z) (who : role) (b : bench) : Prop :=
  match who with
  | Server =>
      loop_i (server_p b) < reps
      ∧ (pos (server_p b) = SecondWait
         ∨ read_index (server_mem b) < write_index (server_mem b))
  | Client =>
      loop_i (client_p b) < reps
      ∧ (pos (client_p b) = FirstWait
         ∨ read_index (client_mem b) < write_index (client_mem b))
  end.

(** What holds of the driver between two turns.  [h] stands for any of
    the handles: they differ in nothing that the calls read. *)
Definition bench_inv (reps : Z) (h : shmemq_t) (L : Z) (b : bench) : Prop :=
  let s := server_p b in
  let c := client_p b in
  ring_inv h L (server_mem b) ∧ ring_inv h L (client_mem b)
  ∧ 0 <= loop_i s <= reps ∧ 0 <= loop_i c <= reps
  ∧ (loop_i s = reps → pos s = FirstWait)
  ∧ (loop_i c = reps → pos c = FirstWait)
  ∧ (loop_i s = loop_i c ∧ (pos s = SecondWait → pos c = SecondWait)
     ∨ loop_i s = loop_i c + 1 ∧ pos s = FirstWait ∧ pos c = SecondWait)
  ∧ write_index (server_mem b) = element_size h * (loop_i c + in_second c)
  ∧ read_index (server_mem b) = element_size h * (loop_i s + in_second s)
  ∧ write_index (client_mem b) = element_size h * loop_i s
  ∧ read_index (client_mem b) = element_size h * loop_i c
  ∧ msg s = msg_init ∧ msg c = msg_init
  ∧ Forall (fun x => x = msg_init) (contents h (server_mem b))
  ∧ Forall (fun x => x = msg_init) (contents h (client_mem b)).

(** ** The driver's queues to run the code on *)

(** A kernel that refuses nothing and maps at page 128, and one that has
    no descriptor left. *)
Definition kernel_ok2 : oracle :=
  {| open_refused := None; create_refused := None;
     ftruncate_refused := false; mmap_page := Some 128 |}.

Definition kernel_no_fd : oracle :=
  {| open_refused := Some Refuse_EMFILE; create_refused := None;
     ftruncate_refused := false; mmap_page := Some 128 |}.

(** The handles that [main] gets on x86-64 for the names ["server"] and
    ["client"] with nothing open, mapped or named: 63 pages each. *)
Definition bench_sq : shmemq_t :=
  {| max_count := 1000; element_size := 256; max_size := 256000;
     name := "server"; shmem_fd := 0; mmap_size := 256063; mem := 65536 |}.

Definition bench_cq : shmemq_t :=
  {| max_count := 1000; element_size := 256; max_size := 256000;
     name := "client"; shmem_fd := 1; mmap_size := 256063; mem := 524288 |}.

Definition bench_qs : queues :=
  {| server_queue := bench_sq; client_queue := bench_cq |}.

(** The handle that a second [shmemq_new("q", 2, 2)] returns after the
    first, when the kernel maps at page 128. *)
Definition q22_peer : shmemq_t :=
  {| max_count := 2; element_size := 2; max_size := 4; name := "q";
     shmem_fd := 1; mmap_size := 67; mem := 524288 |}.

(** The handle that [shmemq_new("q", 3, 2)] returns there instead. *)
Definition q32 : shmemq_t :=
  {| max_count := 3; element_size := 2; max_size := 6; name := "q";
     shmem_fd := 1; mmap_size := 69; mem := 524288 |}.

(** The process and the name space after [shmemq_new("q", 2, 2)], after the
    first call of [shmemq_new] in [main], and after both. *)
Definition os_q22 : os_state :=
  (shmemq_new (H := linux_x86_64) kernel_ok "q" 2 2 os_empty).1.2.

Definition os_server : os_state :=
  (shmemq_new (H := linux_x86_64) kernel_ok "server" QUEUE_SIZE SIZEOF_MESSAGE
     os_empty).1.2.

Definition os_bench : os_state :=
  (main_open (H := linux_x86_64) kernel_ok kernel_ok2 "server" "client"
     os_empty).1.2.

(** Kernels that refuse nothing and map at page 300 and at page 400,
    which [main] left free. *)
Definition kernel_ok3 : oracle :=
  {| open_refused := None; create_refused := None;
     ftruncate_refused := false; mmap_page := Some 300 |}.

Definition kernel_ok4 : oracle :=
  {| open_refused := None; create_refused := None;
     ftruncate_refused := false; mmap_page := Some 400 |}.

(** The handles that a child of [main] gets there for the two names; it
    inherited the descriptors and the mappings of [main]. *)
Definition worker_sq : shmemq_t :=
  {| max_count := 1000; element_size := 256; max_size := 256000;
     name := "server"; shmem_fd := 2; mmap_size := 256063; mem := 1228800 |}.

Definition worker_cq : shmemq_t :=
  {| max_count := 1000; element_size := 256; max_size := 256000;
     name := "client"; shmem_fd := 3; mmap_size := 256063; mem := 1638400 |}.

(** ** The object beyond the payload array *)

(** [offsetof(struct shmemq_info, data)] with glibc on x86-64: the 40-byte
    mutex and the two 8-byte counters lie before [data]. *)
Definition OFFSETOF_DATA : Z := 56.

(** The segment that [shmemq_new] created on x86-64, with every byte that
    the object has from [&data[0]] on.  The object has [mmap_size] bytes,
    that is [max_size + sizeof(struct shmemq_info) - 1], and [data] starts
    at [OFFSETOF_DATA]: seven bytes follow the [max_size] bytes of the
    payload array.  [memcpy] checks nothing, so a copy that leaves the
    array but not the object reads and writes these bytes, and the call
    goes on. *)
Definition created_object (self : shmemq_t) : shmemq_info :=
  {| lock := MutexUnlocked (new_mutexattr (H := linux_x86_64));
     read_index := 0;
     write_index := 0;
     data := replicate (Z.to_nat (to_off_t (mmap_size self) - OFFSETOF_DATA))
               Byte.x00 |}.

(** The handle that [shmemq_new("q", 12297829382473034412, 3)] returns
    with nothing open: the product [max_count * element_size] is
    [2 * 2 ^ 64 + 4]. *)
Definition q_wrap : shmemq_t :=
  {| max_count := 12297829382473034412; element_size := 3; max_size := 4;
     name := "q"; shmem_fd := 0; mmap_size := 67; mem := 65536 |}.

(** ** Another process between the two opens *)

(** A step of another process as this one sees it: a change of the shared
    name space. *)
Definition peer_step (f : gmap string shm_object → gmap string shm_object)
  : OS unit := fun s => (tt, set_shm_ns f s, []).

Section race.
Context `{platform}.

(** [shmemq_new] with the step [peer] of another process between the
    [shm_open] that found nothing and the [shm_open] with [O_CREAT];
    everything else is [shmemq_new] as it stands. *)
Definition shmemq_new_racing (peer : OS unit) (o : oracle) (nm : string)
  (max_count element_size : Z) : OS (option shmemq_t) :=
  malloc ;;   (* self = malloc(sizeof(shmemq_t)) *)
  let max_size := to_ulong (max_count * element_size) in
  malloc ;;   (* self->name = strdup(name) *)
  let self :=
    {| max_count := max_count; element_size := element_size;
       max_size := max_size; name := nm; shmem_fd := -1;
       mmap_size := to_ulong (max_size + SIZEOF_INFO - 1); mem := 0 |} in
  r ← shm_open (open_refused o) nm false;
  let self := with_fd (fd_result r) self in
  if shmem_fd self =? -1 then
    if match r with inl e => errno_eqb e ENOENT | inr _ => false end then
      peer ;;
      r2 ← shm_open (create_refused o) nm true;
      let self := with_fd (fd_result r2) self in
      if shmem_fd self =? -1 then new_FAIL self
      else new_map o self true
    else new_FAIL self
  else new_map o self false.

End race.

(** The object ["q"] of a peer that created it with capacity two and
    two-byte elements, enqueued one element and has taken the lock in its
    next call. *)
Definition peer_object : shm_object :=
  {| obj_size := 67;
     obj_mem :=
       {| lock := MutexLocked {| pshared := true; adaptive := false |};
          read_index := 0; write_index := 2;
          data := [Byte.x01; Byte.x02; Byte.x00; Byte.x00] |} |}.

(** * Properties of the ring buffer *)

(** ** What a single call does *)

Ltac unfold_M :=
  unfold mbind, mret, M_bind, M_ret, bind, ret, pthread_mutex_lock,
    pthread_mutex_unlock, get_read_index, get_write_index, put_read_index,
    put_write_index, umod, memcpy_in, memcpy_out, set_lock, set_read_index,
    set_write_index, set_data in *; simpl in *.

(** Settles the comparisons of the goal that [lia] can decide. *)
Ltac decide_tests :=
  simpl;
  repeat (match goal with
  | |- context [?a >=? ?b] => rewrite (Z.geb_leb a b)
  | |- context [?a <=? ?b] =>
      first [ rewrite (proj2 (Z.leb_le a b)) by (assumption || lia)
            | rewrite (proj2 (Z.leb_gt a b)) by (assumption || lia) ]
  | |- context [?a <? ?b] =>
      first [ rewrite (proj2 (Z.ltb_lt a b)) by (assumption || lia)
            | rewrite (proj2 (Z.ltb_ge a b)) by (assumption || lia) ]
  | |- context [?a =? ?b] =>
      first [ rewrite (proj2 (Z.eqb_eq a b)) by (assumption || lia)
            | rewrite (proj2 (Z.eqb_neq a b)) by (assumption || lia) ]
  end; simpl).

Lemma to_ulong_range z : 0 <= to_ulong z < ULONG_MOD.
Proof. unfold to_ulong. apply Z.mod_pos_bound. reflexivity. Qed.

Lemma to_ulong_id z : 0 <= z < ULONG_MOD → to_ulong z = z.
Proof. intros. unfold to_ulong. by apply Z.mod_small. Qed.

Lemma try_enqueue_mismatch self element len m :
  to_uint len ≠ element_size self →
  shmemq_try_enqueue self element len m = Done false m [].
Proof.
  intros Hne. unfold shmemq_try_enqueue.
  destruct (to_uint len =? element_size self) eqn:E; [lia | done].
Qed.

Lemma try_dequeue_mismatch self element len m :
  to_uint len ≠ element_size self →
  shmemq_try_dequeue self element len m = Done (false, element) m [].
Proof.
  intros Hne. unfold shmemq_try_dequeue.
  destruct (to_uint len =? element_size self) eqn:E; [lia | done].
Qed.

Lemma try_enqueue_full self element len m a :
  to_uint len = element_size self →
  lock m = MutexUnlocked a →
  max_size self <= index_distance m →
  shmemq_try_enqueue self element len m = Done false m [EvLock; EvUnlock].
Proof.
  intros Hlen Hl Hfull. unfold shmemq_try_enqueue, index_distance in *.
  rewrite Hlen, Z.eqb_refl. unfold_M. rewrite Hl. simpl. decide_tests.
  f_equal. destruct m; simpl in *; by subst.
Qed.

Lemma try_enqueue_ok self element len m a :
  to_uint len = element_size self →
  lock m = MutexUnlocked a →
  index_distance m < max_size self →
  to_size_t len <= Z.of_nat (length element) →
  write_index m mod max_size self + to_size_t len
    <= Z.of_nat (length (data m)) →
  shmemq_try_enqueue self element len m =
    Done true
      (enqueued self element (write_index m mod max_size self) (to_size_t len) m)
      [EvLock; EvCopyIn (write_index m mod max_size self) (to_size_t len);
       EvUnlock].
Proof.
  intros Hlen Hl Hd Hsrc Hdst. unfold shmemq_try_enqueue, index_distance in *.
  pose proof (to_ulong_range (write_index m - read_index m)).
  rewrite Hlen, Z.eqb_refl. unfold_M. rewrite Hl. simpl. decide_tests.
  unfold enqueued. by rewrite Hl.
Qed.

(** An enqueue that passes both tests and whose copy does not fit the
    payload array stops in [memcpy], holding the lock. *)
Lemma try_enqueue_overrun self element len m a :
  to_uint len = element_size self →
  lock m = MutexUnlocked a →
  index_distance m < max_size self →
  Z.of_nat (length (data m))
    < write_index m mod max_size self + to_size_t len →
  shmemq_try_enqueue self element len m = Stuck OutOfBounds [EvLock].
Proof.
  intros Hlen Hl Hd Hover. unfold shmemq_try_enqueue, index_distance in *.
  pose proof (to_ulong_range (write_index m - read_index m)).
  rewrite Hlen, Z.eqb_refl. unfold_M. rewrite Hl. simpl. decide_tests.
  by rewrite andb_false_r.
Qed.

Lemma try_dequeue_empty self element len m a :
  to_uint len = element_size self →
  lock m = MutexUnlocked a →
  write_index m <= read_index m →
  shmemq_try_dequeue self element len m =
    Done (false, element) m [EvLock; EvUnlock].
Proof.
  intros Hlen Hl Hfull. unfold shmemq_try_dequeue.
  rewrite Hlen, Z.eqb_refl. unfold_M. rewrite Hl. simpl. decide_tests.
  f_equal. destruct m; simpl in *; by subst.
Qed.

Lemma try_dequeue_ok self element len m a :
  to_uint len = element_size self →
  lock m = MutexUnlocked a →
  read_index m < write_index m →
  max_size self ≠ 0 →
  to_size_t len <= Z.of_nat (length element) →
  read_index m mod max_size self + to_size_t len
    <= Z.of_nat (length (data m)) →
  shmemq_try_dequeue self element len m =
    Done (true,
          take (Z.to_nat (to_size_t len))
            (drop (Z.to_nat (read_index m mod max_size self)) (data m))
            ++ drop (Z.to_nat (to_size_t len)) element)
      (dequeued self m)
      [EvLock; EvCopyOut (read_index m mod max_size self) (to_size_t len);
       EvUnlock].
Proof.
  intros Hlen Hl Hd Hms Hsrc Hdst. unfold shmemq_try_dequeue.
  rewrite Hlen, Z.eqb_refl. unfold_M. rewrite Hl. simpl. decide_tests.
  unfold dequeued. by rewrite Hl.
Qed.

(** What a call that returns has done, read off its result. *)
Lemma try_enqueue_inv self element len m b m' tr :
  shmemq_try_enqueue self element len m = Done b m' tr →
  (b = false ∧ m' = m ∧ (tr = [] ∨ tr = [EvLock; EvUnlock]))
  ∨ (b = true ∧ ∃ a,
       lock m = MutexUnlocked a
       ∧ to_uint len = element_size self
       ∧ index_distance m < max_size self
       ∧ to_size_t len <= Z.of_nat (length element)
       ∧ write_index m mod max_size self + to_size_t len
           <= Z.of_nat (length (data m))
       ∧ m' = enqueued self element (write_index m mod max_size self)
                (to_size_t len) m
       ∧ tr = [EvLock;
               EvCopyIn (write_index m mod max_size self) (to_size_t len);
               EvUnlock]).
Proof.
  intros Hrun.
  destruct (decide (to_uint len = element_size self)) as [Hlen|Hlen];
    [|rewrite try_enqueue_mismatch in Hrun by done; simplify_eq; auto].
  destruct (lock m) as [|a|a] eqn:Hl;
    [unfold shmemq_try_enqueue in Hrun; rewrite Hlen, Z.eqb_refl in Hrun;
     unfold_M; by rewrite Hl in Hrun | |
     unfold shmemq_try_enqueue in Hrun; rewrite Hlen, Z.eqb_refl in Hrun;
     unfold_M; by rewrite Hl in Hrun].
  destruct (Z_lt_le_dec (index_distance m) (max_size self)) as [Hd|Hd];
    [|rewrite (try_enqueue_full _ _ _ _ a) in Hrun by done; simplify_eq; auto].
  destruct (Z_le_gt_dec (to_size_t len) (Z.of_nat (length element))) as [Hs|Hs];
    [destruct (Z_le_gt_dec (write_index m mod max_size self + to_size_t len)
                 (Z.of_nat (length (data m)))) as [Hb|Hb]|].
  - rewrite (try_enqueue_ok _ _ _ _ a) in Hrun by done. simplify_eq.
    right. split; [done|]. exists a. done.
  - exfalso. unfold shmemq_try_enqueue, index_distance in *.
    pose proof (to_ulong_range (write_index m - read_index m)).
    rewrite Hlen, Z.eqb_refl in Hrun. unfold_M. rewrite Hl in Hrun.
    simpl in Hrun. revert Hrun. decide_tests. done.
  - exfalso. unfold shmemq_try_enqueue, index_distance in *.
    pose proof (to_ulong_range (write_index m - read_index m)).
    rewrite Hlen, Z.eqb_refl in Hrun. unfold_M. rewrite Hl in Hrun.
    simpl in Hrun. revert Hrun. decide_tests. done.
Qed.

Lemma try_dequeue_inv self element len m b out m' tr :
  shmemq_try_dequeue self element len m = Done (b, out) m' tr →
  (b = false ∧ m' = m ∧ out = element
   ∧ (tr = [] ∨ tr = [EvLock; EvUnlock]))
  ∨ (b = true ∧ ∃ a,
       lock m = MutexUnlocked a
       ∧ to_uint len = element_size self
       ∧ read_index m < write_index m
       ∧ max_size self ≠ 0
       ∧ to_size_t len <= Z.of_nat (length element)
       ∧ read_index m mod max_size self + to_size_t len
           <= Z.of_nat (length (data m))
       ∧ out = take (Z.to_nat (to_size_t len))
                 (drop (Z.to_nat (read_index m mod max_size self)) (data m))
                 ++ drop (Z.to_nat (to_size_t len)) element
       ∧ m' = dequeued self m
       ∧ tr = [EvLock;
               EvCopyOut (read_index m mod max_size self) (to_size_t len);
               EvUnlock]).
Proof.
  intros Hrun.
  destruct (decide (to_uint len = element_size self)) as [Hlen|Hlen];
    [|rewrite try_dequeue_mismatch in Hrun by done; simplify_eq;
      left; repeat split; auto].
  destruct (lock m) as [|a|a] eqn:Hl;
    [unfold shmemq_try_dequeue in Hrun; rewrite Hlen, Z.eqb_refl in Hrun;
     unfold_M; by rewrite Hl in Hrun | |
     unfold shmemq_try_dequeue in Hrun; rewrite Hlen, Z.eqb_refl in Hrun;
     unfold_M; by rewrite Hl in Hrun].
  destruct (Z_lt_le_dec (read_index m) (write_index m)) as [Hd|Hd];
    [|rewrite (try_dequeue_empty _ _ _ _ a) in Hrun by done; simplify_eq;
      left; repeat split; auto].
  destruct (decide (max_size self = 0)) as [Hz|Hz].
  { exfalso. unfold shmemq_try_dequeue in Hrun.
    rewrite Hlen, Z.eqb_refl in Hrun. unfold_M. rewrite Hl in Hrun.
    simpl in Hrun. revert Hrun. decide_tests. done. }
  destruct (Z_le_gt_dec (to_size_t len) (Z.of_nat (length element))) as [Hs|Hs];
    [destruct (Z_le_gt_dec (read_index m mod max_size self + to_size_t len)
                 (Z.of_nat (length (data m)))) as [Hb|Hb]|].
  - rewrite (try_dequeue_ok _ _ _ _ a) in Hrun by done. simplify_eq.
    right. split; [done|]. exists a. done.
  - exfalso. unfold shmemq_try_dequeue in Hrun.
    rewrite Hlen, Z.eqb_refl in Hrun. unfold_M. rewrite Hl in Hrun.
    simpl in Hrun. revert Hrun. decide_tests. done.
  - exfalso. unfold shmemq_try_dequeue in Hrun.
    rewrite Hlen, Z.eqb_refl in Hrun. unfold_M. rewrite Hl in Hrun.
    simpl in Hrun. revert Hrun. decide_tests. done.
Qed.

(** ** Reading and writing slices of the payload array *)

Lemma length_write_at off src (d : list byte) :
  (off + length src ≤ length d)%nat →
  length (write_at off src d) = length d.
Proof.
  intros Hb. unfold write_at.
  rewrite !length_app, length_take, length_drop. lia.
Qed.

Lemma read_write_same off src (d : list byte) :
  (off + length src ≤ length d)%nat →
  read_at off (length src) (write_at off src d) = src.
Proof.
  intros Hb. unfold read_at, write_at.
  rewrite drop_app_length' by (rewrite length_take; lia).
  by rewrite take_app_length.
Qed.

Lemma lookup_write_at_lt off src (d : list byte) p :
  (p < off)%nat → (off ≤ length d)%nat →
  write_at off src d !! p = d !! p.
Proof.
  intros Hp Hb. unfold write_at.
  rewrite lookup_app_l by (rewrite length_take; lia).
  by rewrite lookup_take_lt.
Qed.

Lemma lookup_write_at_ge off src (d : list byte) p :
  (off + length src ≤ p)%nat → (off ≤ length d)%nat →
  write_at off src d !! p = d !! p.
Proof.
  intros Hp Hb. unfold write_at.
  rewrite lookup_app_r by (rewrite length_take; lia).
  rewrite lookup_app_r by (rewrite length_take; lia).
  rewrite lookup_drop, length_take. f_equal. lia.
Qed.

Lemma read_write_disjoint off src (d : list byte) off' n :
  (off' + n ≤ off ∨ off + length src ≤ off')%nat →
  (off ≤ length d)%nat →
  read_at off' n (write_at off src d) = read_at off' n d.
Proof.
  intros Hdis Hb. unfold read_at. apply list_eq. intros i.
  destruct (decide (i < n)%nat) as [Hi|Hi].
  - rewrite !lookup_take_lt, !lookup_drop by done.
    destruct Hdis; [apply lookup_write_at_lt | apply lookup_write_at_ge]; lia.
  - by rewrite !lookup_take_ge by lia.
Qed.

(** ** Unsigned arithmetic *)

Lemma to_ulong_add_l a b : to_ulong (to_ulong a + b) = to_ulong (a + b).
Proof. unfold to_ulong. apply Zplus_mod_idemp_l. Qed.

Lemma to_ulong_sub_l a b : to_ulong (to_ulong a - b) = to_ulong (a - b).
Proof. unfold to_ulong. apply Zminus_mod_idemp_l. Qed.

Lemma to_off_t_spec z :
  0 <= z < ULONG_MOD →
  to_off_t z < 2 ^ 63 ∧ to_off_t z <= z ∧ (z < 2 ^ 63 → to_off_t z = z).
Proof.
  unfold to_off_t, ULONG_MOD. intros Hz.
  destruct (Z_lt_le_dec z (2 ^ 63)) as [Hlt|Hge].
  - rewrite Z.mod_small by lia. lia.
  - replace ((z + 2 ^ 63) mod 2 ^ 64) with (z - 2 ^ 63); [lia|].
    apply (Zmod_unique _ _ 1); lia.
Qed.

(** A declared length that passes the length test and whose copy fits an
    array of less than [2 ^ 63] bytes is the element size itself. *)
Lemma matching_len len es n :
  is_int len → to_uint len = es → 0 <= n → to_size_t len <= n → n < 2 ^ 63 →
  len = es ∧ to_size_t len = es ∧ 0 <= es <= INT_MAX.
Proof.
  unfold is_int, to_uint, to_size_t, INT_MIN, INT_MAX, UINT_MOD, ULONG_MOD.
  intros Hint Hu Hn0 Hn Hlt.
  destruct (Z_lt_le_dec len 0) as [Hneg|Hpos].
  - exfalso. revert Hn.
    replace (len mod 2 ^ 64) with (len + 2 ^ 64); [lia|].
    apply (Zmod_unique _ _ (-1)); lia.
  - rewrite Z.mod_small in Hu by lia. rewrite Z.mod_small by lia. lia.
Qed.

Lemma divide_step es d ms :
  0 < es → (es | d) → (es | ms) → d < ms → d + es <= ms.
Proof.
  intros Hes [a ->] [b ->] Hlt.
  assert (a < b) by (apply (Z.mul_lt_mono_pos_r es); lia).
  replace (a * es + es) with ((a + 1) * es) by lia.
  apply Z.mul_le_mono_nonneg_r; lia.
Qed.

Lemma divide_mod_slot es i ms :
  0 < es → 0 < ms → (es | i) → (es | ms) → i mod ms + es <= ms.
Proof.
  intros Hes Hms Hi Hm.
  assert (es | i mod ms) as Hd.
  { rewrite Z.mod_eq by lia. apply Z.divide_sub_r; [done|].
    by apply Z.divide_mul_l. }
  pose proof (Z.mod_pos_bound i ms Hms). apply divide_step; tauto || lia.
Qed.

(** ** The invariant of the ring *)

Section ring_invariant.
Variables (self : shmemq_t) (L : Z).
Hypothesis Hf : handle_facts self L.

Lemma index_distance_range m : 0 <= index_distance m < ULONG_MOD.
Proof. apply to_ulong_range. Qed.

Lemma index_distance_nowrap m :
  is_ulong (read_index m) → is_ulong (write_index m) →
  read_index m <= write_index m →
  index_distance m = write_index m - read_index m.
Proof.
  unfold is_ulong, index_distance. intros. apply to_ulong_id. lia.
Qed.

Lemma index_distance_wrapped m :
  is_ulong (read_index m) → is_ulong (write_index m) →
  write_index m < read_index m →
  index_distance m = write_index m - read_index m + ULONG_MOD.
Proof.
  unfold is_ulong, index_distance, to_ulong. intros.
  symmetry. apply (Zmod_unique _ _ (-1)); lia.
Qed.

Lemma index_distance_enqueued element off n m :
  index_distance (enqueued self element off n m)
  = to_ulong (index_distance m + element_size self).
Proof.
  unfold index_distance, enqueued. simpl.
  rewrite to_ulong_sub_l, to_ulong_add_l. f_equal. lia.
Qed.

(** A successful enqueue keeps the invariant; the declared length was the
    element size and there was room for a whole element. *)
Lemma ring_inv_enqueue m element len a :
  ring_inv self L m → is_int len →
  lock m = MutexUnlocked a →
  to_uint len = element_size self →
  index_distance m < max_size self →
  to_size_t len <= Z.of_nat (length element) →
  write_index m mod max_size self + to_size_t len
    <= Z.of_nat (length (data m)) →
  len = element_size self
  ∧ to_size_t len = element_size self
  ∧ 0 < element_size self <= INT_MAX
  ∧ index_distance m + element_size self <= max_size self
  ∧ ring_inv self L
      (enqueued self element (write_index m mod max_size self)
         (to_size_t len) m).
Proof.
  intros (Hlock & Hlen & Hr & Hw & Hdr & Hdd & Hdm & Hcase) Hint Hl Hu Hd Hsrc Hdst.
  destruct Hf as [Hes Hms HL HLms Hzero].
  pose proof (index_distance_range m) as Hdrange.
  assert (0 < max_size self) as Hmspos by lia.
  pose proof (Z.mod_pos_bound (write_index m) (max_size self) Hmspos) as Hoff.
  set (off := write_index m mod max_size self) in *.
  destruct (matching_len len (element_size self) (Z.of_nat (length (data m))))
    as (-> & Hn & Hes'); [done|done|lia|lia|lia|].
  rewrite Hn in *. clear Hn Hu.
  assert (0 < element_size self) as Hespos.
  { destruct (decide (element_size self = 0)) as [Hz|]; [|lia].
    apply Hzero in Hz. lia. }
  assert (ring_ok self L
          ∨ (read_index m <= write_index m <= L ∧ write_index m < max_size self))
    as Hcase'.
  { destruct Hcase as [?|Hlin]; [by left|].
    destruct (decide (write_index m = max_size self)) as [Heq|Hne];
      [left|right; lia].
    split; [|lia]. rewrite <- Heq.
    replace (write_index m) with (read_index m + index_distance m)
      by (rewrite index_distance_nowrap by (done || lia); lia).
    by apply Z.divide_add_r. }
  assert (index_distance m + element_size self <= max_size self) as Hroom.
  { destruct Hcase' as [[Hdiv _]|[Hlin Hwm]]; [by apply divide_step|].
    rewrite index_distance_nowrap by (done || lia).
    unfold off in Hdst. rewrite Z.mod_small in Hdst by (unfold is_ulong in *; lia).
    unfold is_ulong in *. lia. }
  split; [done|]. split; [done|]. split; [lia|]. split; [done|].
  assert (index_distance (enqueued self element off (element_size self) m)
          = index_distance m + element_size self) as Hd'.
  { rewrite index_distance_enqueued. apply to_ulong_id.
    unfold is_ulong in *. lia. }
  unfold ring_inv. rewrite Hd'. simpl.
  split; [by eauto|]. split.
  { rewrite !length_app, length_take, length_take, length_drop. lia. }
  split; [done|]. split; [apply to_ulong_range|].
  split; [done|]. split; [apply Z.divide_add_r; [done|apply Z.divide_refl]|].
  split; [done|].
  destruct Hcase' as [?|[Hlin Hwm]]; [by left|right].
  unfold off in Hdst. rewrite Z.mod_small in Hdst by (unfold is_ulong in *; lia).
  unfold is_ulong in *. rewrite to_ulong_id by (unfold ULONG_MOD; lia). lia.
Qed.

(** A successful dequeue keeps the invariant; a whole element was there. *)
Lemma ring_inv_dequeue m :
  ring_inv self L m →
  read_index m < write_index m →
  0 < element_size self
  ∧ read_index m + element_size self <= write_index m
  ∧ ring_inv self L (dequeued self m).
Proof.
  intros (Hlock & Hlen & Hr & Hw & Hdr & Hdd & Hdm & Hcase) Hlt.
  destruct Hf as [Hes Hms HL HLms Hzero].
  rewrite index_distance_nowrap in Hdd, Hdm by (done || lia).
  assert (0 < element_size self) as Hespos.
  { destruct (decide (element_size self = 0)) as [Hz|];
      [|unfold is_uint in Hes; lia].
    rewrite Hz in Hdd. apply Z.divide_0_l in Hdd. lia. }
  assert (element_size self <= write_index m - read_index m) as Hge
    by (apply Z.divide_pos_le; [lia|done]).
  split; [done|]. split; [lia|].
  assert (to_ulong (read_index m + element_size self)
          = read_index m + element_size self) as Hr'
    by (apply to_ulong_id; unfold is_ulong in *; lia).
  unfold ring_inv, dequeued, index_distance. simpl. rewrite Hr'.
  rewrite to_ulong_id by (unfold is_ulong in *; lia).
  split; [done|]. split; [done|].
  split; [unfold is_ulong in *; lia|]. split; [done|].
  split; [apply Z.divide_add_r; [done|apply Z.divide_refl]|].
  split.
  { replace (write_index m - (read_index m + element_size self))
      with (write_index m - read_index m - element_size self) by lia.
    apply Z.divide_sub_r; [done|apply Z.divide_refl]. }
  split; [lia|].
  destruct Hcase as [?|?]; [by left|right; lia].
Qed.

End ring_invariant.

Lemma shmemq_call_enqueue self element len m :
  shmemq_call self (Enqueue element len) m =
    match shmemq_try_enqueue self element len m with
    | Done b m' tr => Done (b, element) m' tr
    | Stuck f tr => Stuck f tr
    end.
Proof.
  simpl. unfold mbind, M_bind, bind, mret, M_ret, ret.
  destruct (shmemq_try_enqueue self element len m); [|done].
  by rewrite app_nil_r.
Qed.

(** A call whose declared length, converted to [unsigned int], differs
    from the element size returns [false] at once: nothing is locked,
    copied or changed. *)
Lemma length_mismatch_rejected self c m :
  to_uint (call_len c) ≠ element_size self →
  shmemq_call self c m = Done (false, call_buffer c) m [].
Proof.
  intros Hne. destruct c as [element len|element len]; simpl in Hne.
  - by rewrite shmemq_call_enqueue, try_enqueue_mismatch.
  - simpl. by rewrite try_dequeue_mismatch.
Qed.

Lemma ring_inv_call self L m c r m' tr :
  handle_facts self L → ring_inv self L m → is_int (call_len c) →
  shmemq_call self c m = Done r m' tr →
  ring_inv self L m'.
Proof.
  intros Hf Hinv Hint Hrun. destruct c as [element len|element len].
  - rewrite shmemq_call_enqueue in Hrun.
    destruct (shmemq_try_enqueue self element len m) as [b m1 t1|] eqn:He;
      [|done].
    simplify_eq.
    apply try_enqueue_inv in He as [(_ & -> & _)|(_ & a & Hl & Hu & Hd & Hs & Hb & -> & _)];
      [done|].
    by eapply ring_inv_enqueue.
  - simpl in Hrun. destruct r as [b out].
    apply try_dequeue_inv in Hrun
      as [(_ & -> & _)|(_ & a & Hl & Hu & Hd & _ & _ & _ & _ & -> & _)];
      [done|].
    by eapply ring_inv_dequeue.
Qed.

(** ** The queue that a segment stands for *)

Section ring_contents.
Variables (self : shmemq_t) (L : Z).
Hypothesis Hf : handle_facts self L.

(** Either the ring is usable as such, or nothing was ever written past
    the end of the array and the indices are the offsets. *)
Lemma ring_cases m :
  ring_inv self L m →
  ring_ok self L
  ∨ (read_index m <= write_index m <= L ∧ write_index m < max_size self).
Proof.
  intros (_ & _ & Hr & Hw & Hdr & Hdd & _ & Hcase).
  destruct Hf as [_ _ _ HLms _].
  destruct Hcase as [?|Hlin]; [by left|].
  destruct (decide (write_index m = max_size self)) as [Heq|Hne];
    [left|right; lia].
  split; [|lia]. rewrite <- Heq.
  replace (write_index m) with (read_index m + index_distance m)
    by (rewrite index_distance_nowrap by (done || lia); lia).
  by apply Z.divide_add_r.
Qed.

(** The slot of an element that is in the queue lies in the array. *)
Lemma live_slot_bounds m k :
  ring_inv self L m → read_index m <= write_index m →
  0 < element_size self → 0 <= k →
  read_index m + k * element_size self + element_size self <= write_index m →
  0 <= (read_index m + k * element_size self) mod max_size self
  ∧ (read_index m + k * element_size self) mod max_size self
      + element_size self <= L.
Proof.
  intros Hinv Hnw Hes Hk Hlive.
  pose proof (ring_cases m Hinv) as Hcase.
  destruct Hinv as (_ & _ & Hr & Hw & Hdr & Hdd & Hdm & _).
  rewrite index_distance_nowrap in Hdm by done.
  unfold is_ulong in *.
  assert (0 <= k * element_size self) by (apply Z.mul_nonneg_nonneg; lia).
  assert (0 < max_size self) as Hms by lia.
  pose proof (Z.mod_pos_bound (read_index m + k * element_size self) _ Hms).
  split; [lia|].
  destruct Hcase as [[Hdiv ->]|[Hlin Hwm]].
  - apply divide_mod_slot; [done|done| |done].
    apply Z.divide_add_r; [done|]. apply Z.divide_factor_r.
  - rewrite Z.mod_small by lia. lia.
Qed.

(** The slot that the next enqueue writes is disjoint from the slots of
    the elements in the queue. *)
Lemma new_slot_disjoint m k :
  ring_inv self L m → read_index m <= write_index m →
  0 < element_size self → index_distance m < max_size self → 0 <= k →
  read_index m + k * element_size self + element_size self <= write_index m →
  (read_index m + k * element_size self) mod max_size self + element_size self
    <= write_index m mod max_size self
  ∨ write_index m mod max_size self + element_size self
    <= (read_index m + k * element_size self) mod max_size self.
Proof.
  intros Hinv Hnw Hes Hroom Hk Hlive.
  pose proof (ring_cases m Hinv) as Hcase.
  destruct Hinv as (_ & _ & Hr & Hw & Hdr & Hdd & Hdm & _).
  rewrite index_distance_nowrap in Hdd, Hdm, Hroom by done.
  unfold is_ulong in *.
  assert (0 <= k * element_size self) by (apply Z.mul_nonneg_nonneg; lia).
  assert (0 < max_size self) as Hms by lia.
  set (i := read_index m + k * element_size self) in *.
  pose proof (Z.mod_pos_bound i _ Hms) as Hx.
  destruct Hcase as [[Hdiv _]|[Hlin Hwm]].
  - set (δ := write_index m - i).
    assert (δ + element_size self <= max_size self) as Hδ.
    { apply divide_step; [done| |done|unfold δ, i; lia].
      unfold δ, i.
      replace (write_index m - (read_index m + k * element_size self))
        with (write_index m - read_index m - k * element_size self) by lia.
      apply Z.divide_sub_r; [done|apply Z.divide_factor_r]. }
    replace (write_index m) with (i + δ) by (unfold δ; lia).
    rewrite <- Z.add_mod_idemp_l by lia.
    assert (element_size self <= δ) as Hδ' by (unfold δ; lia).
    set (x := i mod max_size self) in *. clearbody x δ.
    destruct (Z_lt_le_dec (x + δ) (max_size self)).
    + left. rewrite Z.mod_small by lia. lia.
    + right.
      replace ((x + δ) mod max_size self) with (x + δ - max_size self); [lia|].
      apply (Zmod_unique _ _ 1); lia.
  - left. assert (0 <= i < max_size self) as Hi by (unfold i; lia).
    rewrite (Z.mod_small i) by done.
    rewrite (Z.mod_small (write_index m)) by lia. lia.
Qed.

Lemma contents_empty m :
  read_index m = write_index m → contents self m = [].
Proof.
  intros Heq. unfold contents. by rewrite Heq, Z.sub_diag, Zdiv_0_l.
Qed.

Lemma enqueued_data element off m :
  0 <= off → 0 <= element_size self →
  Z.of_nat (length element) = element_size self →
  data (enqueued self element off (element_size self) m)
  = write_at (Z.to_nat off) element (data m).
Proof.
  intros Hoff Hes Hlen. unfold enqueued, write_at. simpl.
  rewrite (take_ge element) by lia. do 3 f_equal. lia.
Qed.

(** A successful enqueue appends the payload to the queue. *)
Lemma contents_enqueued m P :
  ring_inv self L m → read_index m <= write_index m →
  0 < element_size self →
  Z.of_nat (length P) = element_size self →
  index_distance m < max_size self →
  write_index m mod max_size self + element_size self <= L →
  write_index m + element_size self < ULONG_MOD →
  contents self
    (enqueued self P (write_index m mod max_size self) (element_size self) m)
  = contents self m ++ [P].
Proof.
  intros Hinv Hnw Hes HP Hroom Hfit Hnowrap.
  pose proof Hinv as (_ & Hlen & Hr & Hw & Hdr & Hdd & Hdm & _).
  rewrite index_distance_nowrap in Hdd, Hroom by done.
  destruct Hdd as [c Hc].
  assert (0 <= c) as Hc0.
  { destruct (Z_lt_le_dec c 0); [|done].
    assert (c * element_size self < 0) by (apply Z.mul_neg_pos; lia). lia. }
  assert (0 < max_size self) as Hms by lia.
  pose proof (Z.mod_pos_bound (write_index m) _ Hms) as Hoff.
  unfold is_ulong in *.
  unfold contents.
  rewrite enqueued_data by lia. simpl.
  rewrite to_ulong_id by lia.
  replace (write_index m + element_size self - read_index m)
    with ((c + 1) * element_size self) by lia.
  rewrite Hc, !Z.div_mul by lia.
  rewrite Z2Nat.inj_add by lia. change (Z.to_nat 1) with 1%nat.
  rewrite Nat.add_1_r, seq_S, map_app. simpl. f_equal.
  - apply map_ext_in. intros k [_ Hk]%in_seq. simpl in Hk.
    unfold slot.
    assert (read_index m + Z.of_nat k * element_size self + element_size self
            <= write_index m) as Hlive.
    { replace (write_index m) with (read_index m + c * element_size self) by lia.
      replace (read_index m + Z.of_nat k * element_size self + element_size self)
        with (read_index m + (Z.of_nat k + 1) * element_size self) by lia.
      apply Z.add_le_mono_l, Z.mul_le_mono_nonneg_r; lia. }
    pose proof (live_slot_bounds m (Z.of_nat k) Hinv Hnw Hes
                  ltac:(lia) Hlive) as [Hb0 Hb1].
    pose proof (new_slot_disjoint m (Z.of_nat k) Hinv Hnw Hes
                  ltac:(by rewrite index_distance_nowrap) ltac:(lia) Hlive)
      as Hdis.
    set (x := (read_index m + Z.of_nat k * element_size self)
                mod max_size self) in *.
    set (y := write_index m mod max_size self) in *. clearbody x y.
    apply read_write_disjoint; lia.
  - f_equal. unfold slot.
    replace (read_index m + Z.of_nat (Z.to_nat c) * element_size self)
      with (write_index m) by lia.
    replace (Z.to_nat (element_size self)) with (length P) by lia.
    set (y := write_index m mod max_size self) in *. clearbody y.
    apply read_write_same. lia.
Qed.

(** A successful dequeue takes the oldest element off the queue. *)
Lemma contents_dequeued m :
  ring_inv self L m → read_index m < write_index m →
  contents self m
  = slot self (data m) (read_index m) :: contents self (dequeued self m).
Proof.
  intros Hinv Hlt.
  destruct (ring_inv_dequeue self L Hf m Hinv Hlt) as (Hes & Hge & _).
  destruct Hinv as (_ & Hlen & Hr & Hw & Hdr & Hdd & Hdm & _).
  rewrite index_distance_nowrap in Hdd by (done || lia).
  destruct Hdd as [c Hc].
  assert (1 <= c) as Hc1.
  { destruct (Z_lt_le_dec c 1); [|done].
    assert (c * element_size self <= 0 * element_size self)
      by (apply Z.mul_le_mono_nonneg_r; lia). lia. }
  unfold is_ulong in *. unfold contents, dequeued. simpl.
  rewrite to_ulong_id by lia.
  replace (write_index m - (read_index m + element_size self))
    with ((c - 1) * element_size self) by lia.
  rewrite Hc, !Z.div_mul by lia.
  replace (Z.to_nat c) with (S (Z.to_nat (c - 1))) by lia.
  simpl. f_equal; [f_equal; lia|].
  rewrite <- seq_shift, map_map. apply map_ext. intros k. f_equal. lia.
Qed.

(** If the write index is not below the read index after an enqueue, it
    was not before, and the enqueue did not wrap it. *)
Lemma enqueue_nowrap m :
  ring_inv self L m → 0 < element_size self →
  index_distance m + element_size self <= max_size self →
  read_index m <= to_ulong (write_index m + element_size self) →
  read_index m <= write_index m
  ∧ write_index m + element_size self < ULONG_MOD.
Proof.
  intros (_ & _ & Hr & Hw & _ & _ & _ & _) Hes Hroom Hle.
  destruct Hf as [_ Hms _ _ _]. unfold is_ulong in *.
  destruct (Z_lt_le_dec (write_index m) (read_index m)) as [Hwrapped|Hnw].
  - exfalso. rewrite index_distance_wrapped in Hroom by done.
    rewrite to_ulong_id in Hle by lia. lia.
  - split; [done|]. rewrite index_distance_nowrap in Hroom by done.
    destruct (Z_lt_le_dec (write_index m + element_size self) ULONG_MOD)
      as [|Hover]; [done|exfalso].
    replace (to_ulong (write_index m + element_size self))
      with (write_index m + element_size self - ULONG_MOD) in Hle; [lia|].
    apply (Zmod_unique _ _ 1); unfold ULONG_MOD in *; lia.
Qed.

Lemma enqueue_all_spec Ps : ∀ m m1,
  ring_inv self L m →
  Forall (fun P => Z.of_nat (length P) <= INT_MAX) Ps →
  enqueue_all self Ps m = Some m1 →
  ring_inv self L m1
  ∧ read_index m1 = read_index m
  ∧ (read_index m1 <= write_index m1 →
     read_index m <= write_index m
     ∧ contents self m1 = contents self m ++ Ps).
Proof.
  induction Ps as [|P Ps IH]; intros m m1 Hinv Hint Hrun; simpl in Hrun.
  - simplify_eq. split; [done|]. split; [done|]. intros ?.
    by rewrite app_nil_r.
  - apply Forall_cons in Hint as [HP Hint]. cbv beta in HP.
    destruct (shmemq_try_enqueue self P _ m) as [[|] m' tr|] eqn:He;
      [|done|done].
    apply try_enqueue_inv in He
      as [(? & _)|(_ & a & Hl & Hu & Hd & Hs & Hb & -> & _)]; [done|].
    assert (is_int (Z.of_nat (length P))) as HintP
      by (unfold is_int, INT_MIN; lia).
    destruct (ring_inv_enqueue self L Hf m P _ a Hinv HintP Hl Hu Hd Hs Hb)
      as (HlenP & Hn & Hes & Hroom & Hinv').
    rewrite Hn in *.
    destruct (IH _ _ Hinv' Hint Hrun) as (Hinv1 & Hr1 & Hc1).
    split; [done|]. split; [done|]. intros Hnw1.
    destruct (Hc1 Hnw1) as [Hnw' ->]. simpl in Hnw'.
    destruct (enqueue_nowrap m Hinv ltac:(lia) Hroom Hnw') as [Hnw Hnowrap].
    split; [done|].
    pose proof Hinv as (_ & Hlen & _).
    rewrite contents_enqueued by (done || lia).
    by rewrite <- app_assoc.
Qed.

Lemma dequeue_all_spec bufs : ∀ m outs m2,
  ring_inv self L m →
  Forall (fun buf => Z.of_nat (length buf) <= INT_MAX) bufs →
  dequeue_all self bufs m = Some (outs, m2) →
  ring_inv self L m2
  ∧ contents self m = outs ++ contents self m2
  ∧ length outs = length bufs.
Proof.
  induction bufs as [|buf bufs IH]; intros m outs m2 Hinv Hint Hrun;
    simpl in Hrun.
  - by simplify_eq.
  - apply Forall_cons in Hint as [Hbuf Hint]. cbv beta in Hbuf.
    destruct (shmemq_try_dequeue self buf _ m) as [[[|] out] m' tr|] eqn:Hd;
      [|done|done].
    destruct (dequeue_all self bufs m') as [[outs' m'']|] eqn:Hrest; [|done].
    simplify_eq.
    apply try_dequeue_inv in Hd
      as [(? & _)|(_ & a & Hl & Hu & Hlt & Hms & Hs & Hb & -> & -> & _)];
      [done|].
    destruct (ring_inv_dequeue self L Hf m Hinv Hlt) as (Hes & Hge & Hinv').
    destruct (IH _ _ _ Hinv' Hint Hrest) as (Hinv2 & Hc & Hlen).
    pose proof Hinv as (_ & HL & _).
    assert (0 < max_size self) as Hmspos
      by (destruct Hf as [_ ? _ _ _]; unfold is_ulong in *; lia).
    pose proof (Z.mod_pos_bound (read_index m) _ Hmspos) as Hoff.
    destruct (matching_len (Z.of_nat (length buf)) (element_size self)
                (Z.of_nat (length (data m))))
      as (HlenB & Hn & _);
      [unfold is_int, INT_MIN; lia|done|lia|lia
      |destruct Hf as [_ _ ? _ _]; lia|].
    split; [done|]. split; [|simpl; lia].
    rewrite (contents_dequeued m) by done. simpl. rewrite <- Hc. f_equal.
    rewrite Hn, (drop_ge buf), app_nil_r by lia. done.
Qed.

(** ** Calls that are bound to succeed *)

Lemma enqueue_slot_fits m :
  ring_ok self L → ring_inv self L m → 0 < element_size self →
  index_distance m < max_size self →
  write_index m mod max_size self + element_size self <= L.
Proof.
  intros [Hdiv ->] (_ & _ & Hr & Hw & Hdr & Hdd & Hdm & _) Hes Hroom.
  pose proof (index_distance_range m) as Hd0.
  pose proof (divide_step _ _ _ Hes Hdd Hdiv Hroom) as Hstep.
  unfold is_ulong in *.
  destruct (Z_lt_le_dec (write_index m) (read_index m)) as [Hwrapped|Hnw].
  - rewrite index_distance_wrapped in Hstep by done.
    rewrite Z.mod_small by lia. lia.
  - apply divide_mod_slot; [done|lia| |done].
    replace (write_index m) with (read_index m + index_distance m)
      by (rewrite index_distance_nowrap by done; lia).
    by apply Z.divide_add_r.
Qed.

Lemma uint_of_element_size :
  0 < element_size self <= INT_MAX →
  to_uint (element_size self) = element_size self
  ∧ to_size_t (element_size self) = element_size self.
Proof.
  unfold to_uint, to_size_t, INT_MAX, UINT_MOD, ULONG_MOD. intros ?.
  by rewrite !Z.mod_small by lia.
Qed.

Lemma enqueue_succeeds m P :
  ring_ok self L → ring_inv self L m → 0 < element_size self <= INT_MAX →
  Z.of_nat (length P) = element_size self →
  index_distance m < max_size self →
  shmemq_try_enqueue self P (element_size self) m
  = Done true
      (enqueued self P (write_index m mod max_size self) (element_size self) m)
      [EvLock;
       EvCopyIn (write_index m mod max_size self) (element_size self);
       EvUnlock].
Proof.
  intros Hok Hinv Hes HP Hroom.
  pose proof (enqueue_slot_fits m Hok Hinv ltac:(lia) Hroom) as Hfit.
  destruct (uint_of_element_size Hes) as [Hu Hn].
  destruct Hinv as ([a Hl] & Hlen & _).
  rewrite (try_enqueue_ok _ _ _ _ a); rewrite ?Hn; (done || lia).
Qed.

Lemma dequeue_succeeds m buf :
  ring_inv self L m → 0 < element_size self <= INT_MAX →
  Z.of_nat (length buf) = element_size self →
  read_index m < write_index m →
  shmemq_try_dequeue self buf (element_size self) m
  = Done (true, slot self (data m) (read_index m)) (dequeued self m)
      [EvLock;
       EvCopyOut (read_index m mod max_size self) (element_size self);
       EvUnlock].
Proof.
  intros Hinv Hes Hbuf Hlt.
  destruct (ring_inv_dequeue self L Hf m Hinv Hlt) as (_ & Hge & _).
  pose proof (live_slot_bounds m 0 Hinv ltac:(lia) ltac:(lia) ltac:(lia)
                ltac:(lia)) as [_ Hfit].
  rewrite Z.mul_0_l, Z.add_0_r in Hfit.
  destruct (uint_of_element_size Hes) as [Hu Hn].
  pose proof Hinv as ([a Hl] & Hlen & _ & _ & _ & _ & Hdm & _).
  rewrite index_distance_nowrap in Hdm
    by (destruct Hinv as (_ & _ & ? & ? & _); done || lia).
  rewrite (try_dequeue_ok _ _ _ _ a); rewrite ?Hn; try (done || lia).
  unfold slot, read_at. by rewrite (drop_ge buf), app_nil_r by lia.
Qed.

Lemma enqueue_all_succeeds Ps : ∀ m,
  ring_ok self L → ring_inv self L m → 0 < element_size self <= INT_MAX →
  Forall (fun P => Z.of_nat (length P) = element_size self) Ps →
  index_distance m + Z.of_nat (length Ps) * element_size self
    <= max_size self →
  ∃ m1, enqueue_all self Ps m = Some m1
        ∧ ring_inv self L m1
        ∧ read_index m1 = read_index m
        ∧ index_distance m1
          = index_distance m + Z.of_nat (length Ps) * element_size self.
Proof.
  induction Ps as [|P Ps IH]; intros m Hok Hinv Hes HPs Hroom.
  - exists m. simpl. split; [done|]. split; [done|]. split; [done|]. lia.
  - apply Forall_cons in HPs as [HP HPs]. cbv beta in HP.
    simpl length in Hroom. rewrite Nat2Z.inj_succ in Hroom.
    assert (0 <= Z.of_nat (length Ps) * element_size self)
      by (apply Z.mul_nonneg_nonneg; lia).
    assert (index_distance m < max_size self) as Hd by lia.
    pose proof (enqueue_succeeds m P Hok Hinv Hes HP Hd) as Hrun.
    pose proof Hinv as ([a Hl] & _).
    assert (is_int (element_size self)) as Hint
      by (unfold is_int, INT_MIN; lia).
    destruct (uint_of_element_size Hes) as [Hu Hn].
    pose proof (enqueue_slot_fits m Hok Hinv ltac:(lia) Hd) as Hfit.
    destruct (ring_inv_enqueue self L Hf m P _ a Hinv Hint Hl Hu Hd)
      as (_ & _ & _ & Hstep & Hinv');
      [rewrite Hn; lia|rewrite Hn; destruct Hinv as (_ & -> & _); lia|].
    rewrite Hn in Hinv'.
    destruct (IH _ Hok Hinv' Hes HPs) as (m1 & Hall & Hinv1 & Hr1 & Hd1).
    { rewrite index_distance_enqueued, to_ulong_id; [lia|].
      destruct Hf as [_ ? _ _ _]. pose proof (index_distance_range m).
      unfold is_ulong in *. lia. }
    exists m1. simpl. rewrite HP, Hrun. split; [done|]. split; [done|].
    split; [done|]. rewrite Hd1, index_distance_enqueued, to_ulong_id; [lia|].
    destruct Hf as [_ ? _ _ _]. pose proof (index_distance_range m).
    unfold is_ulong in *. lia.
Qed.

End ring_contents.

(** * Properties of the segment life cycle *)

Ltac unfold_OS :=
  unfold mbind, mret, OS_bind, OS_ret, sys_log, malloc, free in *.

Section lifecycle_facts.
Context `{platform}.

Lemma new_FAIL_result self s :
  (new_FAIL self s).1.1 = None.
Proof.
  unfold new_FAIL. unfold_OS.
  destruct (negb _); simpl; [unfold close, shm_unlink; destruct (_ <? _)|]; done.
Qed.

Lemma new_FAIL_not_some self s r s' log :
  new_FAIL self s = (Some r, s', log) → False.
Proof. intros Hf. pose proof (new_FAIL_result self s) as Hn. by rewrite Hf in Hn. Qed.

Ltac fail_branch :=
  match goal with
  | |- context [new_FAIL ?x ?st] =>
      let Hf := fresh "Hf" in
      destruct (new_FAIL x st) as [[? ?] ?] eqn:Hf; simpl;
      intros ?; simplify_eq; by apply new_FAIL_not_some in Hf
  end.

Lemma new_map_handle o self created s r s' log :
  new_map o self created s = (Some r, s', log) →
  ∃ addr, r = with_mem addr self.
Proof.
  unfold new_map. unfold_OS. intros Hrun.
  destruct created; simpl in Hrun.
  - destruct (ftruncate _ _ _ s) as [[rc s1] l1] eqn:Hft.
    destruct (rc =? -1); simpl in Hrun.
    + destruct (new_FAIL self s1) as [[? ?] ?] eqn:Hf. simplify_eq.
      by apply new_FAIL_not_some in Hf.
    + destruct (mmap _ _ _ s1) as [[[addr|] s2] l2] eqn:Hmm; simpl in Hrun.
      * destruct (new_init _ s2) as [[? ?] ?]. simplify_eq. by exists addr.
      * destruct (new_FAIL self s2) as [[? ?] ?] eqn:Hf. simplify_eq.
        by apply new_FAIL_not_some in Hf.
  - destruct (mmap _ _ _ s) as [[[addr|] s2] l2] eqn:Hmm; simpl in Hrun.
    + simplify_eq. by exists addr.
    + destruct (new_FAIL self s2) as [[? ?] ?] eqn:Hf. simplify_eq.
      by apply new_FAIL_not_some in Hf.
Qed.

(** The fields of every handle that [shmemq_new] returns. *)
Lemma shmemq_new_handle o nm mc es s self s' log :
  shmemq_new o nm mc es s = (Some self, s', log) →
  max_count self = mc ∧ element_size self = es
  ∧ max_size self = to_ulong (mc * es) ∧ name self = nm
  ∧ mmap_size self = to_ulong (to_ulong (mc * es) + SIZEOF_INFO - 1).
Proof.
  unfold shmemq_new. unfold_OS. intros Hrun. simpl in Hrun.
  destruct (shm_open (open_refused o) nm false _) as [[r1 s1] l1] eqn:Ho1.
  simpl in Hrun.
  destruct (fd_result r1 =? -1);
    [destruct r1 as [e|fd]; [destruct (errno_eqb e ENOENT)|]|];
    simpl in Hrun; try discriminate.
  - destruct (shm_open (create_refused o) nm true s1) as [[r2 s2] l2] eqn:Ho2.
    simpl in Hrun. destruct (fd_result r2 =? -1).
    + destruct (new_FAIL _ s2) as [[? ?] ?] eqn:Hf. simplify_eq.
      by apply new_FAIL_not_some in Hf.
    + destruct (new_map _ _ _ s2) as [[? ?] ?] eqn:Hm. simplify_eq.
      apply new_map_handle in Hm as [addr ->]. done.
  - destruct (new_FAIL _ s1) as [[? ?] ?] eqn:Hf. simplify_eq.
    by apply new_FAIL_not_some in Hf.
  - destruct (new_map _ _ _ s1) as [[? ?] ?] eqn:Hm. simplify_eq.
    apply new_map_handle in Hm as [addr ->]. done.
Qed.

Lemma pages_of_first addr len :
  0 < len → addr / PAGE_SIZE ∈ pages_of addr len.
Proof.
  intros Hlen. unfold pages_of. apply elem_of_seqZ.
  pose proof PAGE_SIZE_pos as HP.
  assert (addr / PAGE_SIZE + 1 <= (addr + len + PAGE_SIZE - 1) / PAGE_SIZE).
  { replace (addr / PAGE_SIZE + 1) with ((addr + 1 * PAGE_SIZE) / PAGE_SIZE)
      by (rewrite Z.div_add by lia; lia).
    apply Z.div_le_mono; lia. }
  lia.
Qed.

Lemma lookup_foldr_insert (vm : gmap Z string) (l : list Z) q nm :
  q ∈ l → foldr (fun q => <[q := nm]>) vm l !! q = Some nm.
Proof.
  induction l as [|x l IH]; simpl; [by intros ?%elem_of_nil|].
  intros [->|Hin]%elem_of_cons; [by rewrite lookup_insert_eq|].
  destruct (decide (x = q)) as [->|Hne];
    [by rewrite lookup_insert_eq | rewrite lookup_insert_ne by done; auto].
Qed.

(** A call that finds the name free and returns a handle has created the
    object, and leaves in it the segment [created_segment]. *)
Lemma shmemq_new_creates o nm mc es s self s' log :
  shm_ns s !! nm = None →
  shmemq_new o nm mc es s = (Some self, s', log) →
  0 <= to_off_t (mmap_size self)
  ∧ shm_ns s' !! nm = Some {| obj_size := to_off_t (mmap_size self);
                              obj_mem := created_segment self |}.
Proof.
  intros Hfree Hrun. pose proof (shmemq_new_handle _ _ _ _ _ _ _ _ Hrun) as Hh.
  destruct Hh as (_ & _ & _ & _ & Hmm).
  revert Hrun. unfold shmemq_new. unfold_OS. simpl.
  unfold shm_open at 1.
  destruct (open_refused o) as [r|]; simpl; [by destruct r|].
  rewrite Hfree. simpl.
  unfold shm_open. destruct (create_refused o) as [r|]; simpl; [by destruct r|].
  rewrite Hfree. simpl.
  set (fd := fresh (dom (fd_table s))).
  rewrite (proj2 (Z.eqb_neq (Z.of_nat fd) (-1))) by lia.
  unfold new_map. unfold_OS. simpl.
  unfold ftruncate. simpl. rewrite Nat2Z.id, lookup_insert_eq.
  rewrite (proj2 (Z.ltb_ge (Z.of_nat fd) 0)) by lia.
  set (msz := to_ulong (to_ulong (mc * es) + SIZEOF_INFO - 1)) in *.
  destruct (ftruncate_refused o); simpl; [fail_branch|].
  destruct (to_off_t msz <? 0) eqn:Hoff; simpl; [fail_branch|].
  apply Z.ltb_ge in Hoff.
  unfold mmap. simpl. rewrite Nat2Z.id, lookup_insert_eq.
  destruct (mmap_page o) as [pg|]; simpl; [|fail_branch].
  destruct (msz =? 0) eqn:Hz; simpl; [fail_branch|].
  rewrite (proj2 (Z.ltb_ge (Z.of_nat fd) 0)) by lia. simpl.
  destruct (forallb _ _) eqn:Hfree_pages; simpl; [|fail_branch].
  apply Z.eqb_neq in Hz.
  assert (0 < msz) as Hpos by (pose proof (to_ulong_range (to_ulong (mc * es) + SIZEOF_INFO - 1)); unfold msz in *; lia).
  unfold new_init, store_mem. unfold_OS. simpl.
  rewrite !(lookup_foldr_insert _ _ _ nm) by (by apply pages_of_first).
  simpl. rewrite !(lookup_foldr_insert _ _ _ nm) by (by apply pages_of_first).
  simpl. intros [= <- <- <-]. simpl. split; [done|].
  rewrite !lookup_alter_eq, lookup_insert_eq. simpl.
  unfold created_segment, resize_mem, set_data, set_lock, set_read_index, set_write_index. simpl.
  by rewrite resize_nil.
Qed.

(** The two ways in which [shmemq_new] returns a handle, with what each
    one does: it created the object, or it attached to it. *)
Lemma shmemq_new_success o nm mc es s self s' log :
  shmemq_new o nm mc es s = (Some self, s', log) →
  let fd := fresh (dom (fd_table s)) in
  shmem_fd self = Z.of_nat fd
  ∧ ((shm_ns s !! nm = None
      ∧ log = [Malloc; Malloc; SysShmOpen nm false (inl ENOENT);
               SysShmOpen nm true (inr fd);
               SysFtruncate (Z.of_nat fd) (mmap_size self) true;
               SysMmap (mmap_size self) (Z.of_nat fd) (Some (mem self));
               StoreIndices 0 0; MutexInit new_mutexattr])
     ∨ (is_Some (shm_ns s !! nm)
        ∧ log = [Malloc; Malloc; SysShmOpen nm false (inr fd);
                 SysMmap (mmap_size self) (Z.of_nat fd) (Some (mem self))]
        ∧ shm_ns s' = shm_ns s)).
Proof.
  unfold shmemq_new. unfold_OS. simpl.
  unfold shm_open at 1.
  destruct (open_refused o) as [r|]; simpl; [by destruct r|].
  set (fd := fresh (dom (fd_table s))).
  assert ((Z.of_nat fd <? 0) = false) as Hfd0 by lia.
  destruct (shm_ns s !! nm) as [obj|] eqn:Hns; simpl.
  - rewrite (proj2 (Z.eqb_neq (Z.of_nat fd) (-1))) by lia.
    unfold new_map. unfold_OS. simpl.
    unfold mmap. simpl. rewrite Nat2Z.id, lookup_insert_eq, Hfd0.
    destruct (mmap_page o) as [pg|]; simpl; [|fail_branch].
    destruct (_ =? 0); simpl; [fail_branch|].
    destruct (forallb _ _); simpl; [|fail_branch].
    intros [= <- <- <-]. simpl. split; [done|]. right. eauto.
  - unfold shm_open. destruct (create_refused o) as [r|]; simpl; [by destruct r|].
    rewrite Hns. simpl. fold fd.
    rewrite (proj2 (Z.eqb_neq (Z.of_nat fd) (-1))) by lia.
    unfold new_map. unfold_OS. simpl.
    unfold ftruncate. simpl. rewrite Nat2Z.id, lookup_insert_eq, Hfd0.
    destruct (ftruncate_refused o); simpl; [fail_branch|].
    destruct (to_off_t _ <? 0); simpl; [fail_branch|].
    unfold mmap. simpl. rewrite Nat2Z.id, lookup_insert_eq, Hfd0.
    destruct (mmap_page o) as [pg|]; simpl; [|fail_branch].
    destruct (_ =? 0); simpl; [fail_branch|].
    destruct (forallb _ _); simpl; [|fail_branch].
    unfold new_init, store_mem. unfold_OS. simpl.
    destruct (foldr _ _ _ !! _); simpl;
      (destruct (foldr _ _ _ !! _); simpl);
      intros [= <- <- <-]; simpl; (split; [done|]); by left.
Qed.

(** Whatever another process did to the name space between the two
    opens, a call that found the name free at its first open and returns
    a handle has run the initialisation: on the object that it made, or
    on the object that the other process put under the name, whose
    payload bytes it keeps. *)
Lemma shmemq_new_racing_initialises f o nm mc es s self s' log :
  shm_ns s !! nm = None →
  shmemq_new_racing (peer_step f) o nm mc es s = (Some self, s', log) →
  log = [Malloc; Malloc; SysShmOpen nm false (inl ENOENT);
         SysShmOpen nm true (inr (Z.to_nat (shmem_fd self)));
         SysFtruncate (shmem_fd self) (mmap_size self) true;
         SysMmap (mmap_size self) (shmem_fd self) (Some (mem self));
         StoreIndices 0 0; MutexInit new_mutexattr]
  ∧ ∃ obj,
      shm_ns s' !! nm = Some obj
      ∧ read_index (obj_mem obj) = 0 ∧ write_index (obj_mem obj) = 0
      ∧ lock (obj_mem obj) = MutexUnlocked new_mutexattr
      ∧ ∀ theirs, f (shm_ns s) !! nm = Some theirs →
          data (obj_mem obj)
          = resize (Z.to_nat (to_off_t (mmap_size self) - (SIZEOF_INFO - 1)))
              Byte.x00 (data (obj_mem theirs)).
Proof.
  intros Hfree. unfold shmemq_new_racing, peer_step. unfold_OS. simpl.
  unfold shm_open at 1.
  destruct (open_refused o) as [r|]; simpl; [by destruct r|].
  rewrite Hfree. simpl.
  set (fd := fresh (dom (fd_table s))).
  assert ((Z.of_nat fd <? 0) = false) as Hfd0 by lia.
  assert ((Z.of_nat fd =? -1) = false) as Hfd1 by lia.
  unfold shm_open. destruct (create_refused o) as [r|]; simpl; [by destruct r|].
  fold fd.
  set (msz := to_ulong (to_ulong (mc * es) + SIZEOF_INFO - 1)).
  destruct (f (shm_ns s) !! nm) as [theirs|] eqn:Hpeer; simpl;
    rewrite Hfd1; unfold new_map; unfold_OS; simpl;
    unfold ftruncate; simpl; rewrite Nat2Z.id, lookup_insert_eq, Hfd0;
    (destruct (ftruncate_refused o); simpl; [fail_branch|]);
    (destruct (to_off_t msz <? 0) eqn:Hoff; simpl; [fail_branch|]);
    unfold mmap; simpl; rewrite Nat2Z.id, lookup_insert_eq, Hfd0;
    (destruct (mmap_page o) as [pg|]; simpl; [|fail_branch]);
    (destruct (msz =? 0) eqn:Hz; simpl; [fail_branch|]);
    (destruct (forallb _ _) eqn:Hfree_pages; simpl; [|fail_branch]);
    apply Z.eqb_neq in Hz;
    assert (0 < msz) as Hpos
      by (pose proof (to_ulong_range (to_ulong (mc * es) + SIZEOF_INFO - 1));
          unfold msz in *; lia);
    unfold new_init, store_mem; unfold_OS; simpl;
    rewrite !(lookup_foldr_insert _ _ _ nm) by (by apply pages_of_first);
    simpl;
    rewrite !(lookup_foldr_insert _ _ _ nm) by (by apply pages_of_first);
    simpl; intros [= <- <- <-]; simpl; rewrite Nat2Z.id;
    (split; [done|]); eexists;
    (split; [by rewrite !lookup_alter_eq, ?Hpeer, ?lookup_insert_eq|]);
    simpl; (split; [done|]); (split; [done|]); (split; [done|]);
    intros ? [= <-]; done.
Qed.

Ltac fail_path Hfd1 Hfd0 Hfresh :=
  unfold new_FAIL, close, shm_unlink; unfold_OS; simpl;
  rewrite ?Hfd1, ?Hfd0; simpl; intros [= <- <-]; simpl;
  split; [repeat constructor|];
  by rewrite ?Nat2Z.id, ?delete_insert_id.

(** A call that fails has initialised nothing and leaves the process as
    it found it: no descriptor, no mapping and no allocation is kept. *)
Lemma shmemq_new_failure o nm mc es s s' log :
  shmemq_new o nm mc es s = (None, s', log) →
  Forall (fun e => is_init e = false) log
  ∧ fd_table s' = fd_table s
  ∧ vm_pages s' = vm_pages s
  ∧ heap_blocks s' = heap_blocks s.
Proof.
  set (fd := fresh (dom (fd_table s))).
  assert ((Z.of_nat fd <? 0) = false) as Hfd0 by lia.
  assert ((Z.of_nat fd =? -1) = false) as Hfd1 by lia.
  assert (fd_table s !! fd = None) as Hfresh
    by (apply not_elem_of_dom, is_fresh).
  unfold shmemq_new. unfold_OS. simpl.
  unfold shm_open at 1.
  destruct (open_refused o) as [r|]; simpl.
  { destruct r; simpl; intros [= <- <-]; simpl;
      (split; [repeat constructor|done]). }
  fold fd. destruct (shm_ns s !! nm) as [obj|] eqn:Hns; simpl.
  - rewrite Hfd1. unfold new_map. unfold_OS. simpl.
    unfold mmap. simpl. rewrite Nat2Z.id, lookup_insert_eq, Hfd0.
    destruct (mmap_page o) as [pg|]; simpl;
      [destruct (_ =? 0); simpl;
       [|destruct (forallb _ _); simpl; [done|]]|];
      fail_path Hfd1 Hfd0 Hfresh.
  - unfold shm_open. destruct (create_refused o) as [r|]; simpl.
    { destruct r; simpl; intros [= <- <-]; simpl;
        (split; [repeat constructor|done]). }
    rewrite Hns. simpl. fold fd. rewrite Hfd1.
    unfold new_map. unfold_OS. simpl.
    unfold ftruncate. simpl. rewrite Nat2Z.id, lookup_insert_eq, Hfd0.
    destruct (ftruncate_refused o); simpl; [fail_path Hfd1 Hfd0 Hfresh|].
    destruct (to_off_t _ <? 0); simpl; [fail_path Hfd1 Hfd0 Hfresh|].
    unfold mmap. simpl. rewrite Nat2Z.id, lookup_insert_eq, Hfd0.
    destruct (mmap_page o) as [pg|]; simpl;
      [destruct (_ =? 0); simpl;
       [|destruct (forallb _ _); simpl;
         [unfold new_init, store_mem; unfold_OS; simpl;
          by repeat (destruct (foldr _ _ _ !! _); simpl)|]]|];
      fail_path Hfd1 Hfd0 Hfresh.
Qed.

Lemma forallb_unmapped_Forall (vm : gmap Z string) (l : list Z) :
  forallb (fun q => bool_decide (vm !! q = None)) l = true →
  Forall (fun q => vm !! q = None) l.
Proof.
  induction l as [|q l IH]; [by constructor|].
  cbn [forallb]. intros [Hq Hl]%andb_true_iff.
  constructor; [by apply bool_decide_eq_true in Hq|auto].
Qed.

(** The state in which [shmemq_new] returns a handle. *)
Lemma shmemq_new_state o nm mc es s self s' log :
  shmemq_new o nm mc es s = (Some self, s', log) →
  let fd := fresh (dom (fd_table s)) in
  let pages := pages_of (mem self) (mmap_size self) in
  shmem_fd self = Z.of_nat fd
  ∧ mmap_size self ≠ 0
  ∧ (∃ pg, mmap_page o = Some pg ∧ mem self = pg * PAGE_SIZE)
  ∧ Forall (fun q => vm_pages s !! q = None) pages
  ∧ fd_table s' = <[fd := nm]> (fd_table s)
  ∧ vm_pages s' = foldr (fun q => <[q := nm]>) (vm_pages s) pages
  ∧ heap_blocks s' = S (S (heap_blocks s))
  ∧ shm_ns s'
    = match shm_ns s !! nm with
      | Some _ => shm_ns s
      | None => <[nm := {| obj_size := to_off_t (mmap_size self);
                           obj_mem := created_segment self |}]> (shm_ns s)
      end.
Proof.
  unfold shmemq_new. unfold_OS. simpl.
  unfold shm_open at 1.
  destruct (open_refused o) as [r|]; simpl; [by destruct r|].
  set (fd := fresh (dom (fd_table s))).
  assert ((Z.of_nat fd <? 0) = false) as Hfd0 by lia.
  destruct (shm_ns s !! nm) as [obj|] eqn:Hns; simpl.
  - rewrite (proj2 (Z.eqb_neq (Z.of_nat fd) (-1))) by lia.
    unfold new_map. unfold_OS. simpl.
    unfold mmap. simpl. rewrite Nat2Z.id, lookup_insert_eq, Hfd0.
    destruct (mmap_page o) as [pg|]; simpl; [|fail_branch].
    destruct (_ =? 0) eqn:Hz; simpl; [fail_branch|].
    destruct (forallb _ _) eqn:Hfree; simpl; [|fail_branch].
    intros [= <- <- <-]. simpl. apply Z.eqb_neq in Hz.
    apply forallb_unmapped_Forall in Hfree. eauto 10.
  - unfold shm_open. destruct (create_refused o) as [r|]; simpl; [by destruct r|].
    rewrite Hns. simpl. fold fd.
    rewrite (proj2 (Z.eqb_neq (Z.of_nat fd) (-1))) by lia.
    unfold new_map. unfold_OS. simpl.
    unfold ftruncate. simpl. rewrite Nat2Z.id, lookup_insert_eq, Hfd0.
    destruct (ftruncate_refused o); simpl; [fail_branch|].
    destruct (to_off_t _ <? 0); simpl; [fail_branch|].
    unfold mmap. simpl. rewrite Nat2Z.id, lookup_insert_eq, Hfd0.
    destruct (mmap_page o) as [pg|]; simpl; [|fail_branch].
    destruct (_ =? 0) eqn:Hz; simpl; [fail_branch|].
    destruct (forallb _ _) eqn:Hfree; simpl; [|fail_branch].
    apply Z.eqb_neq in Hz.
    assert (0 < to_ulong (to_ulong (mc * es) + SIZEOF_INFO - 1)) as Hpos
      by (pose proof (to_ulong_range (to_ulong (mc * es) + SIZEOF_INFO - 1));
          lia).
    apply forallb_unmapped_Forall in Hfree.
    unfold new_init, store_mem. unfold_OS. simpl.
    rewrite !(lookup_foldr_insert _ _ _ nm) by (by apply pages_of_first).
    simpl. rewrite !(lookup_foldr_insert _ _ _ nm) by (by apply pages_of_first).
    simpl. intros [= <- <- <-]. simpl.
    split; [done|]. split; [done|]. split; [by eauto|]. split; [done|].
    split; [done|]. split; [done|]. split; [done|].
    rewrite !alter_insert_eq. simpl. f_equal.
    unfold created_segment, resize_mem, set_data, set_lock, set_read_index,
      set_write_index. simpl. by rewrite resize_nil.
Qed.

(** The name space after a failed call: untouched, or [nm] removed. *)
Lemma shmemq_new_failure_ns o nm mc es s s' log :
  shmemq_new o nm mc es s = (None, s', log) →
  shm_ns s' = shm_ns s ∨ shm_ns s' = delete nm (shm_ns s).
Proof.
  set (fd := fresh (dom (fd_table s))).
  assert ((Z.of_nat fd <? 0) = false) as Hfd0 by lia.
  assert ((Z.of_nat fd =? -1) = false) as Hfd1 by lia.
  unfold shmemq_new. unfold_OS. simpl.
  unfold shm_open at 1.
  destruct (open_refused o) as [r|]; simpl.
  { destruct r; simpl; intros [= <- <-]; by left. }
  fold fd. destruct (shm_ns s !! nm) as [obj|] eqn:Hns; simpl.
  - rewrite Hfd1. unfold new_map. unfold_OS. simpl.
    unfold mmap. simpl. rewrite Nat2Z.id, lookup_insert_eq, Hfd0.
    destruct (mmap_page o) as [pg|]; simpl;
      [destruct (_ =? 0); simpl;
       [|destruct (forallb _ _); simpl; [done|]]|];
      unfold new_FAIL, close, shm_unlink; unfold_OS; simpl;
      rewrite ?Hfd1, ?Hfd0; simpl; intros [= <- <-]; by right.
  - unfold shm_open. destruct (create_refused o) as [r|]; simpl.
    { destruct r; simpl; intros [= <- <-]; by left. }
    rewrite Hns. simpl. fold fd. rewrite Hfd1.
    unfold new_map. unfold_OS. simpl.
    unfold ftruncate. simpl. rewrite Nat2Z.id, lookup_insert_eq, Hfd0.
    destruct (ftruncate_refused o); simpl;
      [unfold new_FAIL, close, shm_unlink; unfold_OS; simpl;
       rewrite ?Hfd1, ?Hfd0; simpl; intros [= <- <-]; right; simpl;
       by rewrite delete_insert_eq|].
    destruct (to_off_t _ <? 0); simpl;
      [unfold new_FAIL, close, shm_unlink; unfold_OS; simpl;
       rewrite ?Hfd1, ?Hfd0; simpl; intros [= <- <-]; right; simpl;
       by rewrite delete_insert_eq|].
    unfold mmap. simpl. rewrite Nat2Z.id, lookup_insert_eq, Hfd0.
    destruct (mmap_page o) as [pg|]; simpl;
      [destruct (_ =? 0); simpl;
       [|destruct (forallb _ _); simpl;
         [unfold new_init, store_mem; unfold_OS; simpl;
          by repeat (destruct (foldr _ _ _ !! _); simpl)|]]|];
      unfold new_FAIL, close, shm_unlink; unfold_OS; simpl;
      rewrite ?Hfd1, ?Hfd0; simpl; intros [= <- <-]; right; simpl;
      by rewrite delete_alter_eq, delete_insert_eq.
Qed.

Lemma forallb_unmapped (l : list Z) :
  forallb (fun q => bool_decide ((∅ : gmap Z string) !! q = None)) l = true.
Proof.
  induction l as [|q l IH]; [done|].
  cbn [forallb]. rewrite bool_decide_eq_true_2 by apply lookup_empty.
  exact IH.
Qed.

(** With nothing open, mapped or named and a kernel that refuses nothing,
    [shmemq_new] creates the segment and returns this handle. *)
Lemma shmemq_new_on_empty nm mc es :
  0 < to_ulong (to_ulong (mc * es) + SIZEOF_INFO - 1) →
  0 <= to_off_t (to_ulong (to_ulong (mc * es) + SIZEOF_INFO - 1)) →
  (shmemq_new kernel_ok nm mc es os_empty).1.1
  = Some {| max_count := mc; element_size := es;
            max_size := to_ulong (mc * es); name := nm; shmem_fd := 0;
            mmap_size := to_ulong (to_ulong (mc * es) + SIZEOF_INFO - 1);
            mem := 16 * PAGE_SIZE |}.
Proof.
  intros Hpos Hoff.
  unfold shmemq_new, shm_open, os_empty. unfold_OS. simpl.
  rewrite lookup_empty. simpl. rewrite lookup_empty. simpl.
  set (fd := fresh (dom _)).
  assert (fd = 0%nat) as Hfd by (by vm_compute). clearbody fd. subst fd.
  simpl.
  unfold new_map. unfold_OS. simpl.
  unfold ftruncate. simpl. rewrite lookup_insert_eq.
  rewrite (proj2 (Z.ltb_ge _ 0) Hoff). simpl.
  unfold mmap. simpl. rewrite lookup_insert_eq.
  rewrite (proj2 (Z.eqb_neq _ 0)) by lia. simpl.
  rewrite forallb_unmapped. simpl.
  unfold new_init, store_mem. unfold_OS. simpl.
  rewrite !(lookup_foldr_insert _ _ _ nm) by (by apply pages_of_first).
  simpl.
  rewrite !(lookup_foldr_insert _ _ _ nm) by (by apply pages_of_first).
  done.
Qed.

Lemma segment_size_eq self :
  segment_size self
  = Z.max 0 (to_off_t (mmap_size self) - (SIZEOF_INFO - 1)).
Proof.
  unfold segment_size, created_segment. simpl. rewrite length_replicate. lia.
Qed.

Lemma created_data_length self :
  Z.of_nat (length (data (created_segment self)))
  = Z.max 0 (to_off_t (mmap_size self) - (SIZEOF_INFO - 1)).
Proof. apply segment_size_eq. Qed.

Lemma created_read_index self : read_index (created_segment self) = 0.
Proof. done. Qed.

Lemma created_write_index self : write_index (created_segment self) = 0.
Proof. done. Qed.

Lemma created_index_distance self : index_distance (created_segment self) = 0.
Proof. done. Qed.

(** What the ring buffer code can rely on in a handle from [shmemq_new],
    whatever the arguments. *)
Lemma shmemq_new_handle_facts o nm mc es s self s' log :
  is_ulong mc → is_uint es →
  shmemq_new o nm mc es s = (Some self, s', log) →
  handle_facts self (segment_size self).
Proof.
  intros Hmc Hes Hrun.
  apply shmemq_new_handle in Hrun as (_ & Hes' & Hms & _ & Hmm).
  pose proof SIZEOF_INFO_range as Hhdr.
  pose proof (to_ulong_range (mc * es)) as Hr1.
  pose proof (to_ulong_range (to_ulong (mc * es) + SIZEOF_INFO - 1)) as Hr2.
  pose proof (to_off_t_spec _ Hr2) as (Ho1 & Ho2 & Ho3).
  rewrite segment_size_eq, Hmm.
  split; rewrite ?Hes', ?Hms; try done.
  - lia.
  - destruct (Z_lt_le_dec (to_ulong (mc * es) + SIZEOF_INFO - 1) ULONG_MOD)
      as [Hsmall|Hbig].
    + rewrite (to_ulong_id (_ + _ - 1)) in * by lia. lia.
    + assert (to_ulong (to_ulong (mc * es) + SIZEOF_INFO - 1)
              = to_ulong (mc * es) + SIZEOF_INFO - 1 - ULONG_MOD) as Heq.
      { unfold to_ulong at 1. symmetry.
        apply (Zmod_unique _ _ 1); unfold ULONG_MOD in *; lia. }
      rewrite Heq in *. unfold ULONG_MOD in *. lia.
  - intros ->. unfold to_ulong. by rewrite Z.mul_0_r.
Qed.

(** With arguments in range nothing wraps: [max_size] is the product, the
    payload array has [max_size] bytes, and the ring is usable. *)
Lemma valid_handle o nm mc es s self s' log :
  shmemq_new o nm mc es s = (Some self, s', log) →
  valid_params mc es →
  max_count self = mc ∧ element_size self = es
  ∧ max_size self = mc * es
  ∧ segment_size self = mc * es
  ∧ ring_ok self (segment_size self)
  ∧ handle_facts self (segment_size self).
Proof.
  intros Hrun (Hmc & Hes & Hfit).
  pose proof SIZEOF_INFO_range as Hhdr.
  assert (mc <= mc * es) as Hle.
  { replace mc with (mc * 1) at 1 by lia. apply Z.mul_le_mono_nonneg_l; lia. }
  assert (0 < mc * es) as Hpos by lia.
  assert (is_ulong mc) as Hmc' by (unfold is_ulong, ULONG_MOD; lia).
  assert (is_uint es) as Hes'
    by (unfold is_uint, UINT_MOD, INT_MAX in *; lia).
  pose proof (shmemq_new_handle_facts _ _ _ _ _ _ _ _ Hmc' Hes' Hrun) as Hf.
  apply shmemq_new_handle in Hrun as (Hc & He & Hms & _ & Hmm).
  rewrite to_ulong_id in Hms by (unfold ULONG_MOD; lia).
  rewrite (to_ulong_id (mc * es)), to_ulong_id in Hmm
    by (unfold ULONG_MOD; lia).
  assert (segment_size self = mc * es) as HL.
  { rewrite segment_size_eq, Hmm.
    destruct (to_off_t_spec (mc * es + SIZEOF_INFO - 1)) as (_ & _ & ->);
      unfold ULONG_MOD; lia. }
  split; [done|]. split; [done|]. split; [done|]. split; [done|].
  split; [|done]. split; [|lia]. rewrite Hms, He. apply Z.divide_factor_r.
Qed.

Lemma ring_inv_created self :
  handle_facts self (segment_size self) →
  ring_inv self (segment_size self) (created_segment self).
Proof.
  intros [_ Hms HL _ _]. unfold ring_inv, index_distance, is_ulong in *. simpl.
  change (to_ulong (0 - 0)) with 0.
  split; [by eauto|]. split; [done|].
  split; [done|]. split; [done|].
  split; [apply Z.divide_0_r|]. split; [apply Z.divide_0_r|].
  split; [|right]; lia.
Qed.

(** The invariant holds in every state a created segment reaches. *)
Lemma reachable_inv self m :
  handle_facts self (segment_size self) →
  reachable self m →
  ring_inv self (segment_size self) m.
Proof.
  intros Hf. induction 1 as [|m c r m' tr _ IH Hint Hrun].
  - by apply ring_inv_created.
  - by eapply ring_inv_call.
Qed.

(** ** What holds in every state of a created segment *)

(** X3 (the distance of the indices).  For arguments in range, in every
    state that a created segment reaches, [write_index - read_index] in
    [unsigned long] arithmetic is at most [max_size]: the queue never
    holds more bytes than the payload array has, also after
    [write_index] wrapped around. *)
Lemma index_distance_bounded o nm mc es s self s' log m :
  shmemq_new o nm mc es s = (Some self, s', log) →
  valid_params mc es →
  reachable self m →
  0 <= index_distance m <= max_size self.
Proof.
  intros Hnew Hvalid Hreach.
  destruct (valid_handle _ _ _ _ _ _ _ _ Hnew Hvalid)
    as (_ & _ & _ & _ & _ & Hf).
  destruct (reachable_inv _ _ Hf Hreach) as (_ & _ & _ & _ & _ & _ & Hd & _).
  pose proof (index_distance_range m). lia.
Qed.

(** For arguments in range: an enqueue with the right length returns
    [false] exactly when the distance is [max_size] ... *)
Lemma full_iff_distance o nm mc es s self s' log m P :
  shmemq_new o nm mc es s = (Some self, s', log) →
  valid_params mc es →
  reachable self m →
  Z.of_nat (length P) = es →
  (∃ m' tr, shmemq_try_enqueue self P es m = Done false m' tr)
  ↔ index_distance m = max_size self.
Proof.
  intros Hnew Hvalid Hreach HP.
  destruct (valid_handle _ _ _ _ _ _ _ _ Hnew Hvalid)
    as (_ & Hes & _ & _ & Hok & Hf).
  destruct Hvalid as (_ & Hesr & _). rewrite <- Hes in *.
  pose proof (reachable_inv _ _ Hf Hreach) as Hinv.
  pose proof Hinv as ([a Hl] & _ & _ & _ & _ & _ & Hd & _).
  destruct (uint_of_element_size self Hesr) as [Hu _].
  split.
  - intros (m' & tr & Hrun).
    destruct (Z_lt_le_dec (index_distance m) (max_size self)); [|lia].
    by rewrite (enqueue_succeeds _ _ Hf) in Hrun.
  - intros Hfull. eexists _, _.
    apply (try_enqueue_full _ _ _ _ a); (done || lia).
Qed.

(** ... and, while [write_index] has not wrapped below [read_index], a
    dequeue with the right length returns [false] exactly when the
    distance is [0]. *)
Lemma empty_iff_distance o nm mc es s self s' log m buf :
  shmemq_new o nm mc es s = (Some self, s', log) →
  valid_params mc es →
  reachable self m →
  read_index m <= write_index m →
  Z.of_nat (length buf) = es →
  (∃ out m' tr, shmemq_try_dequeue self buf es m = Done (false, out) m' tr)
  ↔ index_distance m = 0.
Proof.
  intros Hnew Hvalid Hreach Hnw Hbuf.
  destruct (valid_handle _ _ _ _ _ _ _ _ Hnew Hvalid)
    as (_ & Hes & _ & _ & Hok & Hf).
  destruct Hvalid as (_ & Hesr & _). rewrite <- Hes in *.
  pose proof (reachable_inv _ _ Hf Hreach) as Hinv.
  pose proof Hinv as ([a Hl] & _ & Hr & Hw & _).
  rewrite index_distance_nowrap by done.
  destruct (uint_of_element_size self Hesr) as [Hu _].
  split.
  - intros (out & m' & tr & Hrun).
    destruct (Z_lt_le_dec (read_index m) (write_index m)); [|lia].
    by rewrite (dequeue_succeeds _ _ Hf) in Hrun.
  - intros Hempty. eexists _, _, _.
    apply (try_dequeue_empty _ _ _ _ a); (done || lia).
Qed.

(** X2 (every call returns).  For arguments in range, no call in any
    state that a created segment reaches runs out of the payload array,
    divides by zero or finds the mutex held: it returns, provided that
    the length is an [int] and that the caller's buffer holds the bytes
    that the length promises. *)
Lemma calls_never_fault o nm mc es s self s' log m c :
  shmemq_new o nm mc es s = (Some self, s', log) →
  valid_params mc es →
  reachable self m →
  is_int (call_len c) →
  call_len c <= Z.of_nat (length (call_buffer c)) →
  ∃ r m' tr, shmemq_call self c m = Done r m' tr.
Proof.
  intros Hnew Hvalid Hreach Hint Hbuf.
  destruct (valid_handle _ _ _ _ _ _ _ _ Hnew Hvalid)
    as (_ & Hes & _ & _ & Hok & Hf).
  destruct Hvalid as (_ & Hesr & _). rewrite <- Hes in *.
  pose proof (reachable_inv _ _ Hf Hreach) as Hinv.
  pose proof Hinv as ([a Hl] & Hlen & Hr & Hw & _ & _ & Hdm & _).
  destruct (uint_of_element_size self Hesr) as [Hu Hn].
  destruct (decide (to_uint (call_len c) = element_size self)) as [Hm|Hm].
  - assert (call_len c = element_size self) as Hc.
    { revert Hm Hint.
      unfold to_uint, is_int, INT_MIN, INT_MAX, UINT_MOD in *. intros Hm Hint.
      destruct (Z_lt_le_dec (call_len c) 0) as [Hneg|Hpos].
      - replace (call_len c mod 2 ^ 32) with (call_len c + 2 ^ 32) in Hm;
          [lia|]. apply (Zmod_unique _ _ (-1)); lia.
      - rewrite Z.mod_small in Hm by lia. done. }
    destruct c as [element len|element len];
      cbn [call_len call_buffer] in *; subst len.
    + rewrite shmemq_call_enqueue.
      destruct (Z_lt_le_dec (index_distance m) (max_size self)) as [Hd|Hd].
      * pose proof (enqueue_slot_fits _ _ Hf m Hok Hinv ltac:(lia) Hd).
        rewrite (try_enqueue_ok _ _ _ _ a); rewrite ?Hn; (by eauto) || lia.
      * rewrite (try_enqueue_full _ _ _ _ a) by done. by eauto.
    + destruct (Z_lt_le_dec (read_index m) (write_index m)) as [Hd|Hd].
      * destruct (ring_inv_dequeue _ _ Hf m Hinv Hd) as (_ & Hge & _).
        pose proof (live_slot_bounds _ _ Hf m 0 Hinv ltac:(lia) ltac:(lia)
                      ltac:(lia) ltac:(lia)) as [_ Hfit].
        rewrite Z.mul_0_l, Z.add_0_r in Hfit.
        rewrite index_distance_nowrap in Hdm by (done || lia).
        cbn [shmemq_call].
        rewrite (try_dequeue_ok _ _ _ _ a); rewrite ?Hn; (by eauto) || lia.
      * cbn [shmemq_call].
        rewrite (try_dequeue_empty _ _ _ _ a) by done. by eauto.
  - destruct c as [element len|element len]; simpl in Hm.
    + rewrite shmemq_call_enqueue, try_enqueue_mismatch by done. by eauto.
    + simpl. rewrite try_dequeue_mismatch by done. by eauto.
Qed.

(** What [shmemq_destroy] does in every case: the descriptor is closed
    and both local allocations are freed, whatever the flag; the name is
    removed if and only if the flag is set; [munmap] is called with
    [max_size] as the length. *)
Lemma shmemq_destroy_effects self unlink s :
  0 <= shmem_fd self →
  fd_table (shmemq_destroy self unlink s).1.2
    = delete (Z.to_nat (shmem_fd self)) (fd_table s)
  ∧ heap_blocks (shmemq_destroy self unlink s).1.2
    = Nat.pred (Nat.pred (heap_blocks s))
  ∧ shm_ns (shmemq_destroy self unlink s).1.2
    = (if unlink =? 0 then shm_ns s else delete (name self) (shm_ns s))
  ∧ (shmemq_destroy self unlink s).2
    = SysMunmap (mem self) (max_size self) (negb (max_size self =? 0))
        :: SysClose (shmem_fd self)
        :: (if unlink =? 0 then [] else [SysShmUnlink (name self)])
        ++ [Free; Free].
Proof.
  intros Hfd. unfold shmemq_destroy, munmap, close, shm_unlink. unfold_OS.
  rewrite (proj2 (Z.ltb_ge _ _) Hfd).
  by destruct (max_size self =? 0), (unlink =? 0).
Qed.

End lifecycle_facts.

(** ** A run of the code *)

(** Capacity four, elements of eight bytes: four enqueues succeed, the
    fifth fails; a dequeue yields the first value; the fifth value is
    then accepted; four more dequeues yield the second, third, fourth and
    fifth value, and the queue is empty after them. *)
Example bench_q_run :
  let v (b : byte) := replicate 8 b in
  (shmemq_new (H := linux_x86_64) kernel_ok "bench_q" 4 8 os_empty).1.1
    = Some bench_q
  ∧ call_results bench_q
      [Enqueue (v Byte.x01) 8; Enqueue (v Byte.x02) 8; Enqueue (v Byte.x03) 8;
       Enqueue (v Byte.x04) 8; Enqueue (v Byte.x05) 8;
       Dequeue (v Byte.x00) 8;
       Enqueue (v Byte.x05) 8;
       Dequeue (v Byte.x00) 8; Dequeue (v Byte.x00) 8; Dequeue (v Byte.x00) 8;
       Dequeue (v Byte.x00) 8; Dequeue (v Byte.x00) 8]
      (created_segment (H := linux_x86_64) bench_q)
    = [Some (true, v Byte.x01); Some (true, v Byte.x02);
       Some (true, v Byte.x03); Some (true, v Byte.x04);
       Some (false, v Byte.x05);
       Some (true, v Byte.x01);
       Some (true, v Byte.x05);
       Some (true, v Byte.x02); Some (true, v Byte.x03);
       Some (true, v Byte.x04); Some (true, v Byte.x05);
       Some (false, v Byte.x00)].
Proof. by vm_compute. Qed.

(** * The claims *)

(** FIFO order for arguments in range.  Take a handle returned by
    [shmemq_new] and an empty queue: a state that the created segment
    reaches in which [read_index = write_index].  If enqueueing the
    payloads [Ps] one after the other succeeds every time, then dequeues
    that succeed every time return the payloads of [Ps] in the order of
    insertion.  Lengths are [int] values. *)
Lemma fifo_order_in_range `{platform}
  o nm mc es s self s' log m Ps bufs m1 outs m2 :
  shmemq_new o nm mc es s = (Some self, s', log) →
  valid_params mc es →
  reachable self m →
  read_index m = write_index m →
  Forall (fun P => Z.of_nat (length P) <= INT_MAX) Ps →
  Forall (fun buf => Z.of_nat (length buf) <= INT_MAX) bufs →
  enqueue_all self Ps m = Some m1 →
  dequeue_all self bufs m1 = Some (outs, m2) →
  outs = take (length bufs) Ps.
Proof.
  intros Hnew Hvalid Hreach Hempty HPs Hbufs Henq Hdeq.
  destruct (valid_handle _ _ _ _ _ _ _ _ Hnew Hvalid)
    as (_ & _ & _ & _ & _ & Hf).
  pose proof (reachable_inv _ _ Hf Hreach) as Hinv.
  destruct (enqueue_all_spec _ _ Hf Ps _ _ Hinv HPs Henq) as (Hinv1 & Hr1 & Hc1).
  destruct (dequeue_all_spec _ _ Hf bufs _ _ _ Hinv1 Hbufs Hdeq)
    as (Hinv2 & Hc2 & Hlen).
  destruct bufs as [|buf bufs]; [by destruct outs|].
  assert (read_index m1 < write_index m1) as Hlt.
  { simpl in Hdeq.
    destruct (shmemq_try_dequeue self buf _ m1) as [[[|] out] m' tr|] eqn:Hd;
      [|done|done].
    apply try_dequeue_inv in Hd as [(? & _)|(_ & a & _ & _ & Hlt & _)];
      done. }
  destruct Hc1 as [_ Hc1]; [lia|].
  rewrite (contents_empty self m Hempty) in Hc1. simpl in Hc1.
  rewrite <- Hc1, Hc2, <- Hlen. by rewrite take_app_length.
Qed.

Lemma fifo_order_in_range_witness :
  enqueue_all q22 [[Byte.x01; Byte.x02]; [Byte.x03; Byte.x04]]
    (created_segment (H := linux_x86_64) q22)
  = Some (segment_of 0 4 [Byte.x01; Byte.x02; Byte.x03; Byte.x04])
  ∧ dequeue_all q22 [[Byte.x00; Byte.x00]; [Byte.x00; Byte.x00]]
      (segment_of 0 4 [Byte.x01; Byte.x02; Byte.x03; Byte.x04])
    = Some ([[Byte.x01; Byte.x02]; [Byte.x03; Byte.x04]],
            segment_of 4 4 [Byte.x01; Byte.x02; Byte.x03; Byte.x04])
  ∧ [[Byte.x01; Byte.x02]; [Byte.x03; Byte.x04]]
    = take 2 [[Byte.x01; Byte.x02]; [Byte.x03; Byte.x04]].
Proof.
  split; [reflexivity|]. split; [reflexivity|].
  eapply (fifo_order_in_range (H := linux_x86_64) kernel_ok "q" 2 2 os_empty
            q22 _ _ (created_segment (H := linux_x86_64) q22)
            [[Byte.x01; Byte.x02]; [Byte.x03; Byte.x04]]
            [[Byte.x00; Byte.x00]; [Byte.x00; Byte.x00]]).
  - vm_compute. reflexivity.
  - by vm_compute.
  - apply reach_created.
  - reflexivity.
  - repeat constructor; by vm_compute.
  - repeat constructor; by vm_compute.
  - reflexivity.
  - reflexivity.
Defined.

(** C1 (FIFO order), at the input where the code departs from it.
    [shmemq_new("q", 12297829382473034412, 3)] computes [max_size] as the
    product modulo [2 ^ 64]: it is [4], and the offsets [index % 4] of
    the three-byte elements overlap.  The object on x86-64 has eleven
    bytes from [&data[0]] on, so every copy below stays in mapped memory
    and every call returns.  Two enqueues and two dequeues leave the queue
    empty with both indices at [6].  From there the enqueue of [P3]
    writes the bytes 2 to 4 and the enqueue of [P4] the bytes 1 to 3,
    over the first two bytes of [P3]; both return [true].  The next
    dequeue returns [true] with the last two bytes of [P4] and the last
    byte of [P3]: the element that was enqueued first does not come
    out. *)
Theorem wrapped_size_breaks_fifo :
  let P1 := [Byte.x11; Byte.x12; Byte.x13] in
  let P2 := [Byte.x21; Byte.x22; Byte.x23] in
  let P3 := [Byte.x31; Byte.x32; Byte.x33] in
  let P4 := [Byte.x41; Byte.x42; Byte.x43] in
  let buf := [Byte.x00; Byte.x00; Byte.x00] in
  let d6 := P1 ++ P2 ++ replicate 5 Byte.x00 in
  let d12 := [Byte.x11; Byte.x41; Byte.x42; Byte.x43; Byte.x33; Byte.x23]
               ++ replicate 5 Byte.x00 in
  (shmemq_new (H := linux_x86_64) kernel_ok "q" 12297829382473034412 3
     os_empty).1.1 = Some q_wrap
  ∧ max_count q_wrap * element_size q_wrap = 2 * 2 ^ 64 + 4
  ∧ max_size q_wrap = 4
  ∧ data (created_object q_wrap)
    = data (created_segment (H := linux_x86_64) q_wrap)
        ++ replicate 7 Byte.x00
  ∧ enqueue_all q_wrap [P1; P2] (created_object q_wrap)
    = Some (segment_of 0 6 d6)
  ∧ dequeue_all q_wrap [buf; buf] (segment_of 0 6 d6)
    = Some ([P1; P2], segment_of 6 6 d6)
  ∧ shmemq_try_dequeue q_wrap buf 3 (segment_of 6 6 d6)
    = Done (false, buf) (segment_of 6 6 d6) [EvLock; EvUnlock]
  ∧ enqueue_all q_wrap [P3; P4] (segment_of 6 6 d6)
    = Some (segment_of 6 12 d12)
  ∧ dequeue_all q_wrap [buf; buf] (segment_of 6 12 d12)
    = Some ([[Byte.x42; Byte.x43; Byte.x33]; P4], segment_of 12 12 d12)
  ∧ [Byte.x42; Byte.x43; Byte.x33] ≠ P3.
Proof. by vm_compute. Qed.

(** C2 (capacity), as amended: for arguments in range.  Starting from
    the queue that [shmemq_new(name, max_count, element_size)] created,
    [max_count] enqueues in a row with the right length return [true];
    the next one returns [false] and changes nothing, so that it keeps
    returning [false]; and once a dequeue has returned [true], which the
    next one does, one more enqueue returns [true]. *)
Theorem capacity_bound `{platform} o nm mc es s self s' log Ps P buf :
  shmemq_new o nm mc es s = (Some self, s', log) →
  valid_params mc es →
  Z.of_nat (length Ps) = mc →
  Forall (fun P => Z.of_nat (length P) = es) Ps →
  Z.of_nat (length P) = es →
  Z.of_nat (length buf) = es →
  ∃ m_full,
    enqueue_all self Ps (created_segment self) = Some m_full
    ∧ shmemq_try_enqueue self P es m_full
      = Done false m_full [EvLock; EvUnlock]
    ∧ ∃ out m1 tr1 m2 tr2,
        shmemq_try_dequeue self buf es m_full = Done (true, out) m1 tr1
        ∧ shmemq_try_enqueue self P es m1 = Done true m2 tr2.
Proof.
  intros Hnew Hvalid HPs Hlens HP Hbuf.
  destruct (valid_handle _ _ _ _ _ _ _ _ Hnew Hvalid)
    as (Hmc & Hes & Hms & HL & Hok & Hf).
  destruct Hvalid as (Hmcpos & Hesr & _). clear Hnew.
  rewrite <- Hes in *. rewrite <- Hmc in *. clear Hes Hmc.
  assert (0 < max_size self) as Hmspos
    by (rewrite Hms; apply Z.mul_pos_pos; lia).
  pose proof (ring_inv_created self Hf) as Hinv0.
  destruct (enqueue_all_succeeds _ _ Hf Ps _ Hok Hinv0 Hesr Hlens)
    as (m_full & Hall & Hinv & Hr & Hd).
  { rewrite created_index_distance. lia. }
  rewrite created_index_distance, created_read_index in *.
  rewrite HPs, <- Hms, Z.add_0_l in Hd.
  exists m_full. split; [done|].
  destruct (uint_of_element_size self Hesr) as [Hu Hn].
  pose proof Hinv as ([a Hl] & _ & _ & Hw & _).
  split; [apply (try_enqueue_full _ _ _ _ a); (done || lia)|].
  assert (write_index m_full = max_size self) as Hwfull.
  { unfold index_distance in Hd. rewrite Hr, Z.sub_0_r, to_ulong_id in Hd; done. }
  assert (read_index m_full < write_index m_full) as Hlt by lia.
  destruct (ring_inv_dequeue _ _ Hf _ Hinv Hlt) as (_ & Hge & Hinv1).
  eexists _, _, _, _, _. split; [by apply (dequeue_succeeds _ _ Hf)|].
  apply (enqueue_succeeds _ _ Hf); try done.
  unfold index_distance, dequeued. simpl.
  destruct Hf as [_ Hmsr _ _ _]. unfold is_ulong in *.
  rewrite Hr, Hwfull, Z.add_0_l, (to_ulong_id (element_size self)),
    to_ulong_id by lia.
  lia.
Qed.

Lemma capacity_bound_witness :
  ∃ m_full,
    enqueue_all q22 [[Byte.x01; Byte.x02]; [Byte.x03; Byte.x04]]
      (created_segment (H := linux_x86_64) q22) = Some m_full
    ∧ shmemq_try_enqueue q22 [Byte.x05; Byte.x06] 2 m_full
      = Done false m_full [EvLock; EvUnlock]
    ∧ ∃ out m1 tr1 m2 tr2,
        shmemq_try_dequeue q22 [Byte.x00; Byte.x00] 2 m_full
        = Done (true, out) m1 tr1
        ∧ shmemq_try_enqueue q22 [Byte.x05; Byte.x06] 2 m1 = Done true m2 tr2.
Proof.
  eapply (capacity_bound (H := linux_x86_64) kernel_ok "q" 2 2 os_empty q22).
  - vm_compute. reflexivity.
  - by vm_compute.
  - reflexivity.
  - by repeat constructor.
  - reflexivity.
  - reflexivity.
Defined.

(** C2 as stated fails for elements of zero bytes: the queue that
    [shmemq_new("q", 1, 0)] creates has capacity one, and the first
    enqueue with the right length, zero, returns [false]. *)
Lemma capacity_counterexample :
  (shmemq_new (H := linux_x86_64) kernel_ok "q" 1 0 os_empty).1.1 = Some q10
  ∧ max_count q10 = 1
  ∧ to_uint 0 = element_size q10
  ∧ shmemq_try_enqueue q10 [] 0 (created_segment (H := linux_x86_64) q10)
    = Done false (created_segment (H := linux_x86_64) q10) [EvLock; EvUnlock]
  ∧ enqueue_all q10 [[]] (created_segment (H := linux_x86_64) q10) = None.
Proof. by vm_compute. Qed.

(** C3 (round trip), as amended: on an empty queue, for arguments in
    range and a write index that the enqueue does not wrap around.  For
    every payload [P] of [element_size] bytes, [shmemq_try_enqueue] of [P]
    and then [shmemq_try_dequeue] both return [true], and the bytes
    dequeued are exactly [P]. *)
Theorem round_trip `{platform} o nm mc es s self s' log m P buf :
  shmemq_new o nm mc es s = (Some self, s', log) →
  valid_params mc es →
  reachable self m →
  read_index m = write_index m →
  write_index m + es < ULONG_MOD →
  Z.of_nat (length P) = es →
  Z.of_nat (length buf) = es →
  ∃ m1 tr1 m2 tr2,
    shmemq_try_enqueue self P es m = Done true m1 tr1
    ∧ shmemq_try_dequeue self buf es m1 = Done (true, P) m2 tr2.
Proof.
  intros Hnew Hvalid Hreach Hempty Hnowrap HP Hbuf.
  destruct (valid_handle _ _ _ _ _ _ _ _ Hnew Hvalid)
    as (Hmc & Hes & Hms & HL & Hok & Hf).
  destruct Hvalid as (Hmcpos & Hesr & _). clear Hnew.
  rewrite <- Hes in *. rewrite <- Hmc in *. clear Hes Hmc.
  assert (0 < max_size self) as Hmspos
    by (rewrite Hms; apply Z.mul_pos_pos; lia).
  pose proof (reachable_inv _ _ Hf Hreach) as Hinv.
  assert (index_distance m = 0) as Hd
    by (unfold index_distance; by rewrite Hempty, Z.sub_diag).
  pose proof (enqueue_succeeds _ _ Hf m P Hok Hinv Hesr HP ltac:(lia)) as Henq.
  pose proof (enqueue_slot_fits _ _ Hf m Hok Hinv ltac:(lia) ltac:(lia)) as Hfit.
  pose proof Hinv as ([a Hl] & Hlen & Hr & Hw & _).
  assert (is_int (element_size self)) as Hint
    by (unfold is_int, INT_MIN; lia).
  destruct (uint_of_element_size self Hesr) as [Hu Hn].
  destruct (ring_inv_enqueue _ _ Hf m P _ a Hinv Hint Hl Hu)
    as (_ & _ & _ & _ & Hinv1); [lia|rewrite Hn; lia|rewrite Hn; lia|].
  rewrite Hn in Hinv1.
  set (m1 := enqueued self P (write_index m mod max_size self)
               (element_size self) m) in *.
  assert (read_index m1 < write_index m1) as Hlt.
  { unfold m1, enqueued. simpl. unfold is_ulong in *.
    rewrite to_ulong_id by lia. lia. }
  pose proof (dequeue_succeeds _ _ Hf m1 buf Hinv1 Hesr Hbuf Hlt) as Hdeq.
  assert (slot self (data m1) (read_index m1) = P) as Hslot.
  { pose proof (contents_dequeued _ _ Hf m1 Hinv1 Hlt) as Hc.
    unfold m1 in Hc at 1.
    rewrite (contents_enqueued _ _ Hf) in Hc by (done || lia).
    rewrite (contents_empty _ _ Hempty) in Hc. simpl in Hc. by simplify_eq. }
  rewrite Hslot in Hdeq. by eexists _, _, _, _.
Qed.

Lemma round_trip_witness :
  ∃ m1 tr1 m2 tr2,
    shmemq_try_enqueue q22 [Byte.x01; Byte.x02] 2
      (created_segment (H := linux_x86_64) q22) = Done true m1 tr1
    ∧ shmemq_try_dequeue q22 [Byte.x00; Byte.x00] 2 m1
      = Done (true, [Byte.x01; Byte.x02]) m2 tr2.
Proof.
  eapply (round_trip (H := linux_x86_64) kernel_ok "q" 2 2 os_empty q22).
  - vm_compute. reflexivity.
  - by vm_compute.
  - apply reach_created.
  - reflexivity.
  - by vm_compute.
  - reflexivity.
  - reflexivity.
Defined.

(** C3 as stated fails on a queue that is not full and not empty either:
    with [[x01; x02]] in the queue of capacity two, the enqueue of
    [[x03; x04]] returns [true] and the dequeue after it returns [true]
    with [[x01; x02]], the older element. *)
Lemma round_trip_counterexample :
  shmemq_try_enqueue q22 [Byte.x01; Byte.x02] 2
    (created_segment (H := linux_x86_64) q22)
  = Done true (segment_of 0 2 [Byte.x01; Byte.x02; Byte.x00; Byte.x00])
      [EvLock; EvCopyIn 0 2; EvUnlock]
  ∧ index_distance (segment_of 0 2 [Byte.x01; Byte.x02; Byte.x00; Byte.x00])
    < max_size q22
  ∧ shmemq_try_enqueue q22 [Byte.x03; Byte.x04] 2
      (segment_of 0 2 [Byte.x01; Byte.x02; Byte.x00; Byte.x00])
    = Done true (segment_of 0 4 [Byte.x01; Byte.x02; Byte.x03; Byte.x04])
        [EvLock; EvCopyIn 2 2; EvUnlock]
  ∧ shmemq_try_dequeue q22 [Byte.x00; Byte.x00] 2
      (segment_of 0 4 [Byte.x01; Byte.x02; Byte.x03; Byte.x04])
    = Done (true, [Byte.x01; Byte.x02])
        (segment_of 2 4 [Byte.x01; Byte.x02; Byte.x03; Byte.x04])
        [EvLock; EvCopyOut 0 2; EvUnlock]
  ∧ [Byte.x01; Byte.x02] ≠ [Byte.x03; Byte.x04].
Proof. repeat split; by vm_compute. Qed.

(** On the one-byte queue of capacity one, enqueueing a byte and dequeueing
    it again advances both indices by one: every pair of equal indices is
    reached. *)
Lemma q11_cycles k :
  0 <= k < ULONG_MOD →
  reachable (H := linux_x86_64) q11 (segment_of k k [Byte.x00]).
Proof.
  intros [Hk0 Hk]. revert Hk. pattern k. apply natlike_ind; [| |done].
  - intros _. apply (reach_created (H := linux_x86_64) q11).
  - clear k Hk0. intros k Hk0 IH Hk.
    assert (k mod 1 = 0) as Hmod by apply Z.mod_1_r.
    assert (to_ulong (k + 1) = k + 1) as Hsucc
      by (apply to_ulong_id; lia).
    eapply (reach_call _ (segment_of k (k + 1) [Byte.x00])
              (Dequeue [Byte.x00] 1)); [|by vm_compute|].
    + eapply (reach_call _ (segment_of k k [Byte.x00])
                (Enqueue [Byte.x00] 1)); [apply IH; lia|by vm_compute|].
      rewrite shmemq_call_enqueue.
      rewrite (try_enqueue_ok _ _ _ _ {| pshared := true; adaptive := false |});
        [|by vm_compute|done
         |unfold index_distance; simpl; rewrite Z.sub_diag; by vm_compute
         |by vm_compute
         |simpl; rewrite Hmod; by vm_compute].
      unfold enqueued. simpl. rewrite Hmod, Hsucc. reflexivity.
    + simpl.
      rewrite (try_dequeue_ok _ _ _ _ {| pshared := true; adaptive := false |});
        [|by vm_compute|done|simpl; lia|by vm_compute|by vm_compute
         |simpl; rewrite Hmod; by vm_compute].
      unfold dequeued. simpl. rewrite Hsucc.
      replace (Z.succ k) with (k + 1) by lia. reflexivity.
Qed.

(** C4 (distance of the indices), at the input where the code departs
    from it.  On the one-byte queue of capacity one, after [2 ^ 64 - 1]
    enqueue and dequeue pairs and one more enqueue, [write_index] has
    wrapped to [0] while [read_index] is [2 ^ 64 - 1].  The distance is
    [1 = max_size] and an enqueue returns [false], as it should on a full
    queue; but a dequeue returns [false] as well, although the distance
    is not [0]: its test compares the indices without regard to the
    wrap. *)
Theorem wrapped_queue_reports_empty (buf : list byte) :
  (shmemq_new (H := linux_x86_64) kernel_ok "q" 1 1 os_empty).1.1 = Some q11
  ∧ reachable (H := linux_x86_64) q11
      (segment_of 18446744073709551615 0 [Byte.x00])
  ∧ index_distance (segment_of 18446744073709551615 0 [Byte.x00]) = 1
  ∧ max_size q11 = 1
  ∧ shmemq_try_enqueue q11 [Byte.x00] 1
      (segment_of 18446744073709551615 0 [Byte.x00])
    = Done false (segment_of 18446744073709551615 0 [Byte.x00])
        [EvLock; EvUnlock]
  ∧ shmemq_try_dequeue q11 buf 1
      (segment_of 18446744073709551615 0 [Byte.x00])
    = Done (false, buf) (segment_of 18446744073709551615 0 [Byte.x00])
        [EvLock; EvUnlock].
Proof.
  split; [by vm_compute|]. split; [|by vm_compute].
  eapply (reach_call _ (segment_of 18446744073709551615 18446744073709551615
                          [Byte.x00]) (Enqueue [Byte.x00] 1));
    [apply q11_cycles; by vm_compute|by vm_compute|by vm_compute].
Qed.

(** C5 (length rejection), at the input where the code departs from it.
    On a queue of [UINT_MAX]-byte elements the declared length [-1]
    differs from the element size, but the comparison converts it to
    [unsigned int]: the call is not rejected.  The enqueue takes the lock
    and asks [memcpy] for [(size_t)-1] bytes, which runs out of every
    buffer; the dequeue takes the lock before it returns [false]. *)
Theorem negative_length_not_rejected (element : list byte) :
  is_int (-1)
  ∧ -1 ≠ element_size q_uintmax
  ∧ (shmemq_new (H := linux_x86_64) kernel_ok "q" 1 4294967295 os_empty).1.1
    = Some q_uintmax
  ∧ shmemq_try_enqueue q_uintmax element (-1)
      (created_segment (H := linux_x86_64) q_uintmax)
    = Stuck OutOfBounds [EvLock]
  ∧ shmemq_try_dequeue q_uintmax element (-1)
      (created_segment (H := linux_x86_64) q_uintmax)
    = Done (false, element) (created_segment (H := linux_x86_64) q_uintmax)
        [EvLock; EvUnlock].
Proof.
  split; [by vm_compute|]. split; [done|]. split.
  { by rewrite shmemq_new_on_empty by (by vm_compute). }
  split.
  - apply (try_enqueue_overrun _ _ _ _ (new_mutexattr (H := linux_x86_64))).
    + by vm_compute.
    + reflexivity.
    + rewrite created_index_distance. by vm_compute.
    + rewrite created_data_length, created_write_index. by vm_compute.
  - apply (try_dequeue_empty _ _ _ _ (new_mutexattr (H := linux_x86_64))).
    + by vm_compute.
    + reflexivity.
    + by rewrite created_read_index, created_write_index.
Qed.

(** C6 (release on failure), at the input where the code departs from
    it.  A peer created ["q"]; this call opens it, so it did not create
    it, and the mapping fails.  The call returns [NULL], closes its
    descriptor and frees its allocations, but on its way out it also
    unlinks ["q"]: the peer's object is gone from the name space. *)
Theorem failed_attach_unlinks_peer_object :
  is_Some (shm_ns os_peer !! "q"%string)
  ∧ (shmemq_new (H := linux_x86_64) kernel_no_map "q" 2 2 os_peer).1.1 = None
  ∧ (shmemq_new (H := linux_x86_64) kernel_no_map "q" 2 2 os_peer).2
    = [Malloc; Malloc; SysShmOpen "q" false (inr 0%nat); SysMmap 67 0 None;
       SysClose 0; SysShmUnlink "q"; Free; Free]
  ∧ shm_ns (shmemq_new (H := linux_x86_64) kernel_no_map "q" 2 2 os_peer).1.2
      !! "q"%string = None.
Proof. split; [by eexists|]. by vm_compute. Qed.

(** Initialisation when no other process runs during the call.  For
    every call of [shmemq_new] that returns a handle: the call stores
    zero in both indices and initialises the mutex, process-shared, in
    the mapped header if and only if the name was free when the call
    began, in which case its [O_CREAT] open made the object.  A call that
    finds the object initialises nothing and leaves every object as it
    was. *)
Lemma init_iff_name_free `{platform} o nm mc es s self s' log :
  shmemq_new o nm mc es s = (Some self, s', log) →
  (shm_ns s !! nm = None
   ↔ SysShmOpen nm true (inr (Z.to_nat (shmem_fd self))) ∈ log)
  ∧ (shm_ns s !! nm = None
     ↔ StoreIndices 0 0 ∈ log ∧ MutexInit new_mutexattr ∈ log)
  ∧ (shm_ns s !! nm = None →
     ∃ obj, shm_ns s' !! nm = Some obj
            ∧ read_index (obj_mem obj) = 0 ∧ write_index (obj_mem obj) = 0
            ∧ lock (obj_mem obj)
              = MutexUnlocked {| pshared := true; adaptive := ADAPTIVE_MUTEX |})
  ∧ (is_Some (shm_ns s !! nm) →
     Forall (fun e => is_init e = false) log ∧ shm_ns s' = shm_ns s).
Proof.
  intros Hnew.
  destruct (shmemq_new_success _ _ _ _ _ _ _ _ Hnew)
    as [Hfd [[Hfree ->]|(Hthere & -> & Hns)]].
  - rewrite Hfd, Nat2Z.id.
    split; [split; [intros _; set_solver|done]|].
    split; [split; [intros _; set_solver|done]|].
    split.
    + intros _. destruct (shmemq_new_creates _ _ _ _ _ _ _ _ Hfree Hnew)
        as [_ Hobj].
      eexists. by split.
    + intros [? ?]. congruence.
  - assert (shm_ns s !! nm ≠ None) as Hne by (by destruct Hthere as [? ->]).
    split; [split; [done|]|].
    { intros Hin. exfalso.
      repeat (apply elem_of_cons in Hin as [?|Hin]; [done|]).
      by apply elem_of_nil in Hin. }
    split; [split; [done|]|].
    { intros [Hin _]. exfalso.
      repeat (apply elem_of_cons in Hin as [?|Hin]; [done|]).
      by apply elem_of_nil in Hin. }
    split; [done|]. intros _. split; [by repeat constructor|done].
Qed.

Lemma init_iff_name_free_witness :
  (shm_ns os_empty !! "q"%string = None
   ↔ SysShmOpen "q" true (inr (Z.to_nat (shmem_fd q22)))
       ∈ (shmemq_new (H := linux_x86_64) kernel_ok "q" 2 2 os_empty).2)
  ∧ (shm_ns os_empty !! "q"%string = None
     ↔ StoreIndices 0 0
         ∈ (shmemq_new (H := linux_x86_64) kernel_ok "q" 2 2 os_empty).2
       ∧ MutexInit (new_mutexattr (H := linux_x86_64))
           ∈ (shmemq_new (H := linux_x86_64) kernel_ok "q" 2 2 os_empty).2)
  ∧ (shm_ns os_empty !! "q"%string = None →
     ∃ obj,
       shm_ns (shmemq_new (H := linux_x86_64) kernel_ok "q" 2 2 os_empty).1.2
         !! "q"%string = Some obj
       ∧ read_index (obj_mem obj) = 0 ∧ write_index (obj_mem obj) = 0
       ∧ lock (obj_mem obj)
         = MutexUnlocked {| pshared := true; adaptive := false |})
  ∧ (is_Some (shm_ns os_empty !! "q"%string) →
     Forall (fun e => is_init e = false)
       (shmemq_new (H := linux_x86_64) kernel_ok "q" 2 2 os_empty).2
     ∧ shm_ns (shmemq_new (H := linux_x86_64) kernel_ok "q" 2 2 os_empty).1.2
       = shm_ns os_empty).
Proof.
  apply (init_iff_name_free (H := linux_x86_64) kernel_ok "q" 2 2 os_empty
           q22).
  by vm_compute.
Defined.

(** Without a step of another process [shmemq_new_racing] is
    [shmemq_new]. *)
Lemma shmemq_new_racing_alone `{platform} o nm mc es s :
  shmemq_new_racing (peer_step id) o nm mc es s = shmemq_new o nm mc es s.
Proof.
  unfold shmemq_new_racing, shmemq_new, peer_step. unfold_OS. simpl.
  destruct (shm_open (open_refused o) nm false _) as [[r s1] l1]. simpl.
  destruct (_ =? -1); [|done].
  destruct (match r with inl _ => _ | inr _ => _ end); [|done].
  replace (set_shm_ns id s1) with s1 by (by destruct s1).
  destruct (shm_open (create_refused o) nm true s1) as [[r2 s2] l2].
  match goal with
  | |- context [(if ?c then ?a else ?b) s2] =>
      by destruct ((if c then a else b) s2) as [[? ?] ?]
  end.
Qed.

(** C7 (initialisation if and only if created), at the input where the
    code departs from it.  The name ["q"] is free when
    [shmemq_new("q", 2, 2)] begins, and its first [shm_open] fails with
    [ENOENT].  Before its second [shm_open] a peer creates ["q"], enqueues
    one element and takes the lock in its next call.  The second
    [shm_open] has [O_CREAT] but not [O_EXCL]: it opens the peer's object,
    and the code sets [created] all the same.  The call truncates the
    object to its own size, stores zero in both indices and initialises
    the mutex: the peer's element is still in the array but
    [write_index] went from [2] to [0], and the mutex that the peer holds
    is unlocked.  When the first [shm_open] finds the same object, the
    call initialises nothing and leaves the object as it is. *)
Theorem create_race_initialises_peer_object :
  let raced :=
    shmemq_new_racing (H := linux_x86_64)
      (peer_step <["q"%string := peer_object]>) kernel_ok "q" 2 2 os_empty in
  let attached :=
    shmemq_new (H := linux_x86_64) kernel_ok "q" 2 2
      (set_shm_ns <["q"%string := peer_object]> os_empty) in
  shm_ns os_empty !! "q"%string = None
  ∧ obj_mem <$> shm_ns os_q22 !! "q"%string
    = Some (created_segment (H := linux_x86_64) q22)
  ∧ shmemq_try_enqueue q22 [Byte.x01; Byte.x02] 2
      (created_segment (H := linux_x86_64) q22)
    = Done true (segment_of 0 2 [Byte.x01; Byte.x02; Byte.x00; Byte.x00])
        [EvLock; EvCopyIn 0 2; EvUnlock]
  ∧ pthread_mutex_lock
      (segment_of 0 2 [Byte.x01; Byte.x02; Byte.x00; Byte.x00])
    = Done tt (obj_mem peer_object) [EvLock]
  ∧ raced.1.1 = Some q22
  ∧ raced.2
    = [Malloc; Malloc; SysShmOpen "q" false (inl ENOENT);
       SysShmOpen "q" true (inr 0%nat); SysFtruncate 0 67 true;
       SysMmap 67 0 (Some 65536); StoreIndices 0 0;
       MutexInit {| pshared := true; adaptive := false |}]
  ∧ shm_ns raced.1.2 !! "q"%string
    = Some {| obj_size := 67;
              obj_mem := segment_of 0 0
                           [Byte.x01; Byte.x02; Byte.x00; Byte.x00] |}
  ∧ attached.1.1 = Some q22
  ∧ attached.2
    = [Malloc; Malloc; SysShmOpen "q" false (inr 0%nat);
       SysMmap 67 0 (Some 65536)]
  ∧ shm_ns attached.1.2 !! "q"%string = Some peer_object.
Proof. by vm_compute. Qed.

(** C8 (teardown), at the input where the code departs from it.  The
    segment of [shmemq_new("q", 512, 8)] is mapped with a length of
    [mmap_size = 4159] bytes, two pages; [shmemq_destroy] passes
    [max_size = 4096] to [munmap], which unmaps the first page only.
    After the teardown, with the flag clear or set, the descriptor is
    closed and the second page is still mapped. *)
Theorem destroy_unmaps_max_size_only :
  (shmemq_new (H := linux_x86_64) kernel_ok "q" 512 8 os_empty).1.1
    = Some q_page
  ∧ mmap_size q_page = 4159 ∧ max_size q_page = 4096
  ∧ vm_pages (shmemq_new (H := linux_x86_64) kernel_ok "q" 512 8 os_empty).1.2
    = {[ 16 := "q"%string; 17 := "q"%string ]}
  ∧ (shmemq_destroy (H := linux_x86_64) q_page 0
       (shmemq_new (H := linux_x86_64) kernel_ok "q" 512 8 os_empty).1.2).2
    = [SysMunmap 65536 4096 true; SysClose 0; Free; Free]
  ∧ vm_pages
      (shmemq_destroy (H := linux_x86_64) q_page 0
         (shmemq_new (H := linux_x86_64) kernel_ok "q" 512 8 os_empty).1.2).1.2
    = {[ 17 := "q"%string ]}
  ∧ (shmemq_destroy (H := linux_x86_64) q_page 1
       (shmemq_new (H := linux_x86_64) kernel_ok "q" 512 8 os_empty).1.2).2
    = [SysMunmap 65536 4096 true; SysClose 0; SysShmUnlink "q"; Free; Free]
  ∧ vm_pages
      (shmemq_destroy (H := linux_x86_64) q_page 1
         (shmemq_new (H := linux_x86_64) kernel_ok "q" 512 8 os_empty).1.2).1.2
    = {[ 17 := "q"%string ]}.
Proof. by vm_compute. Qed.

(** C9 (copies stay in the array), at the input where the code departs
    from it.  [shmemq_new("q", 6148914691236517206, 3)] computes
    [max_size] as the product modulo [2 ^ 64]: it is [2], not
    [max_count * element_size], and the payload array has two bytes.  The
    first enqueue finds the queue not full and copies three bytes to
    offset [0]: the copy leaves the array. *)
Theorem overflowed_size_copy_out_of_bounds :
  (shmemq_new (H := linux_x86_64) kernel_ok "q" 6148914691236517206 3
     os_empty).1.1 = Some q_over
  ∧ max_count q_over * element_size q_over = 18446744073709551618
  ∧ max_size q_over = 2
  ∧ length (data (created_segment (H := linux_x86_64) q_over)) = 2%nat
  ∧ shmemq_try_enqueue q_over [Byte.x01; Byte.x02; Byte.x03] 3
      (created_segment (H := linux_x86_64) q_over)
    = Stuck OutOfBounds [EvLock].
Proof. by vm_compute. Qed.

(** C10 (a failed call changes nothing).  Whenever [shmemq_try_enqueue]
    or [shmemq_try_dequeue] returns [false], for whatever reason, the
    shared segment (both indices, the payload array, and the mutex) is
    as before the call, and so is the caller's buffer. *)
Theorem failed_call_changes_nothing self c m b out m' tr :
  shmemq_call self c m = Done (b, out) m' tr →
  b = false →
  m' = m ∧ out = call_buffer c.
Proof.
  intros Hrun ->. destruct c as [element len|element len].
  - rewrite shmemq_call_enqueue in Hrun.
    destruct (shmemq_try_enqueue self element len m) as [b m1 t1|] eqn:He;
      [|done].
    simplify_eq.
    by apply try_enqueue_inv in He as [(_ & -> & _)|(? & _)].
  - simpl in Hrun.
    by apply try_dequeue_inv in Hrun as [(_ & -> & -> & _)|(? & _)].
Qed.

Lemma failed_call_changes_nothing_witness :
  shmemq_call q22 (Dequeue [Byte.x07; Byte.x07] 2)
    (created_segment (H := linux_x86_64) q22)
  = Done (false, [Byte.x07; Byte.x07])
      (created_segment (H := linux_x86_64) q22) [EvLock; EvUnlock]
  ∧ created_segment (H := linux_x86_64) q22
    = created_segment (H := linux_x86_64) q22
  ∧ [Byte.x07; Byte.x07] = call_buffer (Dequeue [Byte.x07; Byte.x07] 2).
Proof.
  split; [reflexivity|].
  by eapply (failed_call_changes_nothing q22 (Dequeue [Byte.x07; Byte.x07] 2)
               (created_segment (H := linux_x86_64) q22) false).
Defined.

(** * Further properties of the ring buffer *)

(** ** Runs of calls against a first-in first-out list *)

Section fifo_refinement.
Context `{platform}.

Lemma length_contents self m :
  length (contents self m)
  = Z.to_nat ((write_index m - read_index m) / element_size self).
Proof. unfold contents. by rewrite length_map, length_seq. Qed.

(** The number of queued elements, for arguments in range and a write
    index that has not wrapped. *)
Lemma contents_count o nm mc es s self s' log m :
  shmemq_new o nm mc es s = (Some self, s', log) →
  valid_params mc es →
  reachable self m →
  read_index m <= write_index m →
  index_distance m = Z.of_nat (length (contents self m)) * es
  ∧ Z.of_nat (length (contents self m)) <= mc.
Proof.
  intros Hnew Hvalid Hreach Hnw.
  destruct (valid_handle _ _ _ _ _ _ _ _ Hnew Hvalid)
    as (_ & Hes & Hms & _ & Hok & Hf).
  destruct Hvalid as (Hmc & Hesr & _).
  pose proof (reachable_inv _ _ Hf Hreach)
    as (_ & _ & Hr & Hw & _ & Hdd & Hdm & _).
  rewrite index_distance_nowrap in * by done.
  rewrite length_contents, Hes.
  destruct Hdd as [k Hk]. rewrite Hes in Hk. rewrite Hk.
  rewrite Z.div_mul by lia.
  assert (0 <= k) by nia.
  rewrite Z2Nat.id by done. split; [done|].
  rewrite Hms in Hdm. nia.
Qed.

(** An enqueue with the right length on a queue whose write index has
    not wrapped: it appends the payload if fewer than [max_count]
    elements are queued, and returns [false] otherwise. *)
Lemma enqueue_step o nm mc es s self s' log m P :
  shmemq_new o nm mc es s = (Some self, s', log) →
  valid_params mc es →
  reachable self m →
  read_index m <= write_index m →
  write_index m + es < ULONG_MOD →
  Z.of_nat (length P) = es →
  if Z.of_nat (length (contents self m)) <? mc then
    ∃ m' tr,
      shmemq_try_enqueue self P es m = Done true m' tr
      ∧ contents self m' = contents self m ++ [P]
      ∧ read_index m' = read_index m
      ∧ write_index m' = write_index m + es
  else
    Z.of_nat (length (contents self m)) = mc
    ∧ shmemq_try_enqueue self P es m = Done false m [EvLock; EvUnlock].
Proof.
  intros Hnew Hvalid Hreach Hnw Hnowrap HP.
  destruct (contents_count _ _ _ _ _ _ _ _ _ Hnew Hvalid Hreach Hnw)
    as [Hcount Hle].
  destruct (valid_handle _ _ _ _ _ _ _ _ Hnew Hvalid)
    as (_ & Hes & Hms & _ & Hok & Hf).
  destruct Hvalid as (Hmc & Hesr & _). rewrite <- Hes in *.
  pose proof (reachable_inv _ _ Hf Hreach) as Hinv.
  pose proof Hinv as ([a Hl] & _ & Hr & Hw & _ & _ & Hdm & _).
  destruct (uint_of_element_size self Hesr) as [Hu _].
  destruct (Z.ltb_spec (Z.of_nat (length (contents self m))) mc) as [Hlt|Hge].
  - assert (index_distance m < max_size self) as Hd by nia.
    pose proof (enqueue_slot_fits _ _ Hf m Hok Hinv ltac:(lia) Hd) as Hfit.
    eexists _, _. split; [by apply (enqueue_succeeds _ _ Hf)|].
    split; [apply (contents_enqueued _ _ Hf); (done || lia)|].
    split; [done|]. simpl. unfold is_ulong in *.
    apply to_ulong_id. lia.
  - split; [lia|]. apply (try_enqueue_full _ _ _ _ a); [done|done|nia].
Qed.

(** A dequeue with the right length on such a queue: it takes the oldest
    element off, or returns [false] if there is none. *)
Lemma dequeue_step o nm mc es s self s' log m buf :
  shmemq_new o nm mc es s = (Some self, s', log) →
  valid_params mc es →
  reachable self m →
  read_index m <= write_index m →
  Z.of_nat (length buf) = es →
  match contents self m with
  | [] => shmemq_try_dequeue self buf es m
          = Done (false, buf) m [EvLock; EvUnlock]
  | x :: xs =>
      ∃ m' tr,
        shmemq_try_dequeue self buf es m = Done (true, x) m' tr
        ∧ contents self m' = xs
        ∧ write_index m' = write_index m
        ∧ read_index m' <= write_index m'
  end.
Proof.
  intros Hnew Hvalid Hreach Hnw Hbuf.
  destruct (contents_count _ _ _ _ _ _ _ _ _ Hnew Hvalid Hreach Hnw)
    as [Hcount Hle].
  destruct (valid_handle _ _ _ _ _ _ _ _ Hnew Hvalid)
    as (_ & Hes & Hms & _ & Hok & Hf).
  destruct Hvalid as (Hmc & Hesr & _). rewrite <- Hes in *.
  pose proof (reachable_inv _ _ Hf Hreach) as Hinv.
  pose proof Hinv as ([a Hl] & _ & Hr & Hw & _).
  destruct (uint_of_element_size self Hesr) as [Hu _].
  rewrite index_distance_nowrap in Hcount by done.
  destruct (contents self m) as [|x xs] eqn:Hc.
  - simpl in Hcount. apply (try_dequeue_empty _ _ _ _ a); (done || lia).
  - assert (read_index m < write_index m) as Hlt.
    { rewrite length_cons in Hcount. nia. }
    rewrite (contents_dequeued _ _ Hf m Hinv Hlt) in Hc. simplify_eq.
    destruct (ring_inv_dequeue _ _ Hf m Hinv Hlt) as (_ & Hge & _).
    eexists _, _. split; [by apply (dequeue_succeeds _ _ Hf)|].
    split; [done|]. split; [done|]. simpl. unfold is_ulong in *.
    rewrite to_ulong_id by lia. lia.
Qed.

(** An [int] length that the comparison takes for the element size is
    the element size, when an [int] can hold that. *)
Lemma int_length_matches len es :
  is_int len → 0 < es <= INT_MAX → to_uint len = es → len = es.
Proof.
  unfold to_uint, is_int, INT_MIN, INT_MAX, UINT_MOD. intros Hint Hes Hm.
  destruct (Z_lt_le_dec len 0) as [Hneg|Hpos].
  - replace (len mod 2 ^ 32) with (len + 2 ^ 32) in Hm; [lia|].
    apply (Zmod_unique _ _ (-1)); lia.
  - rewrite Z.mod_small in Hm by lia. done.
Qed.

Lemma queue_refines_fifo_from o nm mc es s self s' log cs : ∀ m,
  shmemq_new o nm mc es s = (Some self, s', log) →
  valid_params mc es →
  reachable self m →
  read_index m <= write_index m →
  write_index m + Z.of_nat (length cs) * es < ULONG_MOD →
  Forall (sized_call es) cs →
  call_results self cs m = fifo_results mc es (contents self m) cs.
Proof.
  induction cs as [|c cs IH]; intros m Hnew Hvalid Hreach Hnw Hfit Hcs;
    [done|].
  apply Forall_cons in Hcs as [[Hint Hbuf] Hcs].
  pose proof Hvalid as (_ & Hesr & _).
  pose proof (shmemq_new_handle _ _ _ _ _ _ _ _ Hnew) as (_ & Hes & _).
  rewrite length_cons, Nat2Z.inj_succ in Hfit.
  cbn [call_results fifo_results]. unfold fifo_call.
  destruct (Z.eqb_spec (call_len c) es) as [Hlen|Hlen]; cbn [negb].
  - specialize (Hbuf Hlen).
    destruct c as [element len|element len]; cbn [call_len call_buffer] in *;
      subst len.
    + rewrite shmemq_call_enqueue.
      pose proof (enqueue_step _ _ _ _ _ _ _ _ m element Hnew Hvalid Hreach
                    Hnw ltac:(nia) Hbuf) as Hstep.
      destruct (Z.of_nat (length (contents self m)) <? mc).
      * destruct Hstep as (m' & tr & Hrun & Hcont & Hr & Hw).
        rewrite Hrun. cbn [fst snd]. f_equal. rewrite <- Hcont.
        apply (IH m'); try done.
        -- apply (reach_call self m (Enqueue element es) (true, element) m' tr);
             [done|done|]. by rewrite shmemq_call_enqueue, Hrun.
        -- lia.
        -- lia.
      * destruct Hstep as [_ Hrun]. rewrite Hrun. cbn [fst snd]. f_equal.
        by apply IH; try done; nia.
    + cbn [shmemq_call].
      pose proof (dequeue_step _ _ _ _ _ _ _ _ m element Hnew Hvalid Hreach
                    Hnw Hbuf) as Hstep.
      destruct (contents self m) as [|x xs] eqn:Hc.
      * rewrite Hstep. cbn [fst snd]. f_equal. rewrite <- Hc.
        by apply IH; try done; nia.
      * destruct Hstep as (m' & tr & Hrun & Hcont & Hw & Hnw').
        rewrite Hrun. cbn [fst snd]. f_equal. rewrite <- Hcont.
        apply (IH m'); try done.
        -- by apply (reach_call self m (Dequeue element es) (true, x) m' tr).
        -- rewrite Hw. nia.
  - rewrite length_mismatch_rejected.
    + cbn [fst snd]. f_equal. by apply IH; try done; nia.
    + intros Hm. apply Hlen. rewrite Hes in Hm.
      by apply int_length_matches.
Qed.

(** X1 (the queue is a bounded first-in first-out list).  For arguments
    in range, take any sequence of calls on the queue that [shmemq_new]
    created, enqueues and dequeues in any order, each with an [int]
    length and, when the length is the element size, a buffer of that
    many bytes.  Every call returns, and the results, the bytes that the
    dequeues deliver included, are those of a list of at most
    [max_count] elements to which an enqueue appends and from which a
    dequeue takes the head; a call with another length is rejected by
    both.  The sequence is short enough for [write_index] not to wrap. *)
Theorem queue_refines_fifo o nm mc es s self s' log cs :
  shmemq_new o nm mc es s = (Some self, s', log) →
  valid_params mc es →
  Forall (sized_call es) cs →
  Z.of_nat (length cs) * es < ULONG_MOD →
  call_results self cs (created_segment self) = fifo_results mc es [] cs.
Proof.
  intros Hnew Hvalid Hcs Hfit.
  rewrite <- (contents_empty self (created_segment self)) by done.
  eapply queue_refines_fifo_from; try done. apply reach_created.
Qed.

End fifo_refinement.

Lemma queue_refines_fifo_witness :
  call_results q22
    [Enqueue [Byte.x01; Byte.x02] 2; Enqueue [Byte.x03; Byte.x04] 2;
     Enqueue [Byte.x05; Byte.x06] 2; Dequeue [Byte.x00; Byte.x00] 2;
     Enqueue [Byte.x05; Byte.x06] 2; Dequeue [Byte.x00] 1;
     Dequeue [Byte.x00; Byte.x00] 2; Dequeue [Byte.x00; Byte.x00] 2;
     Dequeue [Byte.x00; Byte.x00] 2]
    (created_segment (H := linux_x86_64) q22)
  = fifo_results 2 2 []
      [Enqueue [Byte.x01; Byte.x02] 2; Enqueue [Byte.x03; Byte.x04] 2;
       Enqueue [Byte.x05; Byte.x06] 2; Dequeue [Byte.x00; Byte.x00] 2;
       Enqueue [Byte.x05; Byte.x06] 2; Dequeue [Byte.x00] 1;
       Dequeue [Byte.x00; Byte.x00] 2; Dequeue [Byte.x00; Byte.x00] 2;
       Dequeue [Byte.x00; Byte.x00] 2].
Proof.
  eapply (queue_refines_fifo (H := linux_x86_64) kernel_ok "q" 2 2 os_empty
            q22).
  - vm_compute. reflexivity.
  - by vm_compute.
  - repeat constructor; by vm_compute.
  - by vm_compute.
Defined.

Lemma calls_never_fault_witness :
  ∃ r m' tr,
    shmemq_call q22 (Enqueue [Byte.x01; Byte.x02; Byte.x03] 2)
      (created_segment (H := linux_x86_64) q22) = Done r m' tr.
Proof.
  eapply (calls_never_fault (H := linux_x86_64) kernel_ok "q" 2 2 os_empty
            q22).
  - vm_compute. reflexivity.
  - by vm_compute.
  - apply reach_created.
  - by vm_compute.
  - by vm_compute.
Defined.

Lemma index_distance_bounded_witness :
  call_results q22
    [Enqueue [Byte.x01; Byte.x02] 2; Enqueue [Byte.x03; Byte.x04] 2;
     Dequeue [Byte.x00; Byte.x00] 2; Enqueue [Byte.x05; Byte.x06] 2]
    (created_segment (H := linux_x86_64) q22)
  = [Some (true, [Byte.x01; Byte.x02]); Some (true, [Byte.x03; Byte.x04]);
     Some (true, [Byte.x01; Byte.x02]); Some (true, [Byte.x05; Byte.x06])]
  ∧ 0 <= index_distance
           (segment_of 2 6 [Byte.x05; Byte.x06; Byte.x03; Byte.x04])
      <= max_size q22.
Proof.
  split; [reflexivity|].
  eapply (index_distance_bounded (H := linux_x86_64) kernel_ok "q" 2 2
            os_empty q22).
  - vm_compute. reflexivity.
  - by vm_compute.
  - eapply (reach_call _
              (segment_of 2 4 [Byte.x01; Byte.x02; Byte.x03; Byte.x04])
              (Enqueue [Byte.x05; Byte.x06] 2));
      [|by vm_compute|reflexivity].
    eapply (reach_call _
              (segment_of 0 4 [Byte.x01; Byte.x02; Byte.x03; Byte.x04])
              (Dequeue [Byte.x00; Byte.x00] 2));
      [|by vm_compute|reflexivity].
    eapply (reach_call _
              (segment_of 0 2 [Byte.x01; Byte.x02; Byte.x00; Byte.x00])
              (Enqueue [Byte.x03; Byte.x04] 2));
      [|by vm_compute|reflexivity].
    eapply (reach_call _ (created_segment (H := linux_x86_64) q22)
              (Enqueue [Byte.x01; Byte.x02] 2));
      [apply reach_created|by vm_compute|reflexivity].
Defined.

(** ** The mutex *)





(** ** Queues without room *)

Section zero_capacity.
Context `{platform}.

(** X5 (a queue without room).  When the product
    [max_count * element_size] is zero in [unsigned long], as it is for
    [max_count = 0] and for [element_size = 0], the queue that
    [shmemq_new] created never changes: every call, whatever its
    arguments, returns [false] and leaves the segment and the caller's
    buffer alone.  No call divides by the zero [max_size]. *)
Theorem zero_capacity_rejects_all o nm mc es s self s' log m c :
  shmemq_new o nm mc es s = (Some self, s', log) →
  to_ulong (mc * es) = 0 →
  reachable self m →
  m = created_segment self
  ∧ ∃ tr, shmemq_call self c m = Done (false, call_buffer c) m tr.
Proof.
  intros Hnew Hzero Hreach.
  apply shmemq_new_handle in Hnew as (_ & _ & Hms & _).
  rewrite Hzero in Hms.
  assert (∀ c, ∃ tr, shmemq_call self c (created_segment self)
                     = Done (false, call_buffer c) (created_segment self) tr)
    as Hcall.
  { intros [element len|element len]; cbn [call_buffer].
    - rewrite shmemq_call_enqueue.
      destruct (decide (to_uint len = element_size self)) as [Hlen|Hlen].
      + rewrite (try_enqueue_full _ _ _ _ new_mutexattr); [by eauto|done|done|].
        rewrite created_index_distance. lia.
      + rewrite try_enqueue_mismatch by done. by eauto.
    - cbn [shmemq_call].
      destruct (decide (to_uint len = element_size self)) as [Hlen|Hlen].
      + rewrite (try_dequeue_empty _ _ _ _ new_mutexattr); [by eauto|done|done|].
        by rewrite created_read_index, created_write_index.
      + rewrite try_dequeue_mismatch by done. by eauto. }
  assert (m = created_segment self) as ->; [|by split].
  induction Hreach as [|m c' r m' tr _ IH Hint Hrun]; [done|].
  subst m. destruct (Hcall c') as [tr' Hc']. rewrite Hc' in Hrun.
  by simplify_eq.
Qed.

End zero_capacity.

Lemma zero_capacity_rejects_all_witness :
  created_segment (H := linux_x86_64) q10
  = created_segment (H := linux_x86_64) q10
  ∧ ∃ tr,
      shmemq_call q10 (Dequeue [Byte.x07] 0)
        (created_segment (H := linux_x86_64) q10)
      = Done (false, call_buffer (Dequeue [Byte.x07] 0))
          (created_segment (H := linux_x86_64) q10) tr.
Proof.
  eapply (zero_capacity_rejects_all (H := linux_x86_64) kernel_ok "q" 1 0
            os_empty q10).
  - vm_compute. reflexivity.
  - by vm_compute.
  - apply reach_created.
Defined.

(** ** Handles of different processes *)

(** The calls read nothing in a handle but [element_size] and
    [max_size]. *)
Lemma try_enqueue_geometry h h' element len m :
  element_size h = element_size h' → max_size h = max_size h' →
  shmemq_try_enqueue h element len m = shmemq_try_enqueue h' element len m.
Proof. unfold shmemq_try_enqueue. by intros -> ->. Qed.

Lemma try_dequeue_geometry h h' element len m :
  element_size h = element_size h' → max_size h = max_size h' →
  shmemq_try_dequeue h element len m = shmemq_try_dequeue h' element len m.
Proof. unfold shmemq_try_dequeue. by intros -> ->. Qed.

Lemma contents_geometry h h' m :
  element_size h = element_size h' → max_size h = max_size h' →
  contents h m = contents h' m.
Proof. unfold contents, slot. by intros -> ->. Qed.

Section shared_queue.
Context `{platform}.

(** X6 (handles made with the same arguments are interchangeable).  Two
    handles that [shmemq_new] returned for the same [max_count] and
    [element_size], in whatever process, under whatever name and whether
    the call created the object or attached to it, start from the same
    created segment, do the same in every call in every state, and so
    reach the same states: what holds of the queue seen through the
    handle of its creator holds of it seen through the handle of any
    process that attached with the same arguments. *)
Theorem equal_arguments_equal_calls
  o1 o2 nm1 nm2 mc es s1 s2 h1 h2 s1' s2' log1 log2 :
  shmemq_new o1 nm1 mc es s1 = (Some h1, s1', log1) →
  shmemq_new o2 nm2 mc es s2 = (Some h2, s2', log2) →
  created_segment h1 = created_segment h2
  ∧ (∀ c m, shmemq_call h1 c m = shmemq_call h2 c m)
  ∧ (∀ m, reachable h1 m → reachable h2 m).
Proof.
  intros (_ & Hes1 & Hms1 & _ & Hmm1)%shmemq_new_handle
         (_ & Hes2 & Hms2 & _ & Hmm2)%shmemq_new_handle.
  assert (created_segment h1 = created_segment h2) as Hcreated
    by (unfold created_segment; by rewrite Hmm1, Hmm2).
  assert (∀ c m, shmemq_call h1 c m = shmemq_call h2 c m) as Hcall.
  { intros [element len|element len] m.
    - rewrite !shmemq_call_enqueue.
      rewrite (try_enqueue_geometry h1 h2) by congruence. done.
    - cbn [shmemq_call]. apply try_dequeue_geometry; congruence. }
  split; [done|]. split; [done|].
  intros m. induction 1 as [|m c r m' tr _ IH Hint Hrun].
  - rewrite Hcreated. apply reach_created.
  - rewrite Hcall in Hrun. by eapply reach_call.
Qed.

(** X21 (handles made with different arguments).  [shmemq_new] builds
    the handle from its arguments alone, also when it attaches.  Let one
    handle be made for [max_count] elements and create the queue, and
    let another be made for more elements of the same size.  Once
    [max_count] elements are queued, an enqueue through the first handle
    returns [false], but an enqueue through the second finds room and
    copies past the end of the payload array. *)
Theorem larger_attach_overruns
  o o' nm nm' mc mc' es s h s1 log s' h' s2 log' Ps P :
  shmemq_new o nm mc es s = (Some h, s1, log) →
  shmemq_new o' nm' mc' es s' = (Some h', s2, log') →
  valid_params mc es → valid_params mc' es → mc < mc' →
  Z.of_nat (length Ps) = mc →
  Forall (fun P => Z.of_nat (length P) = es) Ps →
  Z.of_nat (length P) = es →
  ∃ m_full,
    enqueue_all h Ps (created_segment h) = Some m_full
    ∧ shmemq_try_enqueue h P es m_full
      = Done false m_full [EvLock; EvUnlock]
    ∧ shmemq_try_enqueue h' P es m_full = Stuck OutOfBounds [EvLock].
Proof.
  intros Hnew Hnew' Hvalid Hvalid' Hlt HPs Hlen HP.
  destruct (valid_handle _ _ _ _ _ _ _ _ Hnew Hvalid)
    as (_ & Hes & Hms & HL & Hok & Hf).
  destruct (valid_handle _ _ _ _ _ _ _ _ Hnew' Hvalid')
    as (_ & Hes' & Hms' & _).
  destruct Hvalid as (Hmc & Hesr & _).
  pose proof (ring_inv_created h Hf) as Hinv0.
  destruct (enqueue_all_succeeds _ _ Hf Ps (created_segment h) Hok Hinv0)
    as (m & Hrun & Hinv & Hr & Hd).
  { by rewrite Hes. }
  { by rewrite Hes. }
  { rewrite created_index_distance, HPs, Hes, Hms. lia. }
  rewrite created_index_distance, created_read_index, HPs, Hes in *.
  pose proof Hinv as ([a Hl] & Hdata & Hrm & Hwm & _).
  assert (write_index m = mc * es) as Hw.
  { unfold index_distance in Hd. rewrite Hr, Z.sub_0_r in Hd.
    rewrite to_ulong_id in Hd by done. lia. }
  destruct (uint_of_element_size h) as [Hu Hn]; [by rewrite Hes|].
  rewrite Hes in Hu, Hn.
  exists m. split; [done|]. split.
  - apply (try_enqueue_full _ _ _ _ a); [by rewrite Hes|done|].
    rewrite Hms. lia.
  - apply (try_enqueue_overrun _ _ _ _ a); [by rewrite Hes'|done| |].
    + rewrite Hms'. nia.
    + rewrite Hdata, HL, Hn, Hms', Hw.
      rewrite Z.mod_small by nia. lia.
Qed.

End shared_queue.

Lemma equal_arguments_equal_calls_witness :
  created_segment (H := linux_x86_64) q22
  = created_segment (H := linux_x86_64) q22_peer
  ∧ (∀ c m, shmemq_call q22 c m = shmemq_call q22_peer c m)
  ∧ (∀ m, reachable (H := linux_x86_64) q22 m →
          reachable (H := linux_x86_64) q22_peer m).
Proof.
  apply (equal_arguments_equal_calls (H := linux_x86_64) kernel_ok kernel_ok2
           "q" "q" 2 2 os_empty os_q22 q22 q22_peer os_q22
           (shmemq_new (H := linux_x86_64) kernel_ok2 "q" 2 2 os_q22).1.2
           (shmemq_new (H := linux_x86_64) kernel_ok "q" 2 2 os_empty).2
           (shmemq_new (H := linux_x86_64) kernel_ok2 "q" 2 2 os_q22).2).
  - reflexivity.
  - reflexivity.
Defined.

Lemma larger_attach_overruns_witness :
  ∃ m_full,
    enqueue_all q22 [[Byte.x01; Byte.x02]; [Byte.x03; Byte.x04]]
      (created_segment (H := linux_x86_64) q22) = Some m_full
    ∧ shmemq_try_enqueue q22 [Byte.x05; Byte.x06] 2 m_full
      = Done false m_full [EvLock; EvUnlock]
    ∧ shmemq_try_enqueue q32 [Byte.x05; Byte.x06] 2 m_full
      = Stuck OutOfBounds [EvLock].
Proof.
  eapply (larger_attach_overruns (H := linux_x86_64) kernel_ok kernel_ok2
            "q" "q" 2 3 2 os_empty q22 _ _ os_q22 q32).
  - vm_compute. reflexivity.
  - vm_compute. reflexivity.
  - by vm_compute.
  - by vm_compute.
  - by vm_compute.
  - reflexivity.
  - by repeat constructor.
  - reflexivity.
Defined.

(** * Further properties of the segment life cycle *)

Section life_cycle_round_trip.
Context `{platform}.

Lemma lookup_foldr_insert_notin (vm : gmap Z string) (l : list Z) q nm :
  q ∉ l → foldr (fun q => <[q := nm]>) vm l !! q = vm !! q.
Proof.
  induction l as [|x l IH]; simpl; [done|].
  intros [Hne Hin]%not_elem_of_cons. by rewrite lookup_insert_ne, IH.
Qed.

Lemma lookup_foldr_delete (vm : gmap Z string) (l : list Z) q :
  foldr delete vm l !! q = if decide (q ∈ l) then None else vm !! q.
Proof.
  induction l as [|x l IH]; simpl; [done|].
  destruct (decide (x = q)) as [->|Hne].
  - rewrite lookup_delete_eq. by rewrite decide_True by left.
  - rewrite lookup_delete_ne, IH by done.
    destruct (decide (q ∈ l)) as [Hin|Hin].
    + by rewrite decide_True by (by right).
    + rewrite decide_False; [done|].
      intros [?|?]%elem_of_cons; by simplify_eq.
Qed.

(** Unmapping the pages that were mapped into free places gives back the
    page table as it was. *)
Lemma foldr_delete_insert (vm : gmap Z string) (l : list Z) nm :
  Forall (fun q => vm !! q = None) l →
  foldr delete (foldr (fun q => <[q := nm]>) vm l) l = vm.
Proof.
  intros Hfree. apply map_eq. intros q. rewrite lookup_foldr_delete.
  destruct (decide (q ∈ l)) as [Hin|Hin].
  - symmetry. by eapply Forall_forall in Hfree.
  - by apply lookup_foldr_insert_notin.
Qed.

Lemma pages_of_aligned pg len :
  pages_of (pg * PAGE_SIZE) len = seqZ pg ((len + PAGE_SIZE - 1) / PAGE_SIZE).
Proof.
  pose proof PAGE_SIZE_pos as HP. unfold pages_of.
  rewrite Z.div_mul by lia.
  replace (pg * PAGE_SIZE + len + PAGE_SIZE - 1)
    with ((len + PAGE_SIZE - 1) + pg * PAGE_SIZE) by lia.
  rewrite Z.div_add by lia. f_equal. lia.
Qed.

Lemma elem_of_pages_of addr len a :
  addr <= a < addr + len → a / PAGE_SIZE ∈ pages_of addr len.
Proof.
  pose proof PAGE_SIZE_pos as HP. intros Ha.
  unfold pages_of. apply elem_of_seqZ.
  assert (addr / PAGE_SIZE <= a / PAGE_SIZE) by (apply Z.div_le_mono; lia).
  assert (a / PAGE_SIZE + 1 <= (addr + len + PAGE_SIZE - 1) / PAGE_SIZE).
  { replace (a / PAGE_SIZE + 1) with ((a + 1 * PAGE_SIZE) / PAGE_SIZE)
      by (rewrite Z.div_add by lia; lia).
    apply Z.div_le_mono; lia. }
  lia.
Qed.

(** X7 (what a handle stands for).  When [shmemq_new] returns a handle,
    its descriptor was free before the call and is now open on the
    object of that name, which exists; [mem] is the start of a page; all
    [mmap_size > 0] bytes from [mem] on were unmapped before the call
    and are now mapped to the object; two allocations are live.  The
    descriptors and the pages that the process had stay as they were. *)
Theorem new_handle_resources o nm mc es s self s' log :
  shmemq_new o nm mc es s = (Some self, s', log) →
  0 <= shmem_fd self
  ∧ fd_table s !! Z.to_nat (shmem_fd self) = None
  ∧ fd_table s' !! Z.to_nat (shmem_fd self) = Some nm
  ∧ (∀ fd nm', fd_table s !! fd = Some nm' → fd_table s' !! fd = Some nm')
  ∧ mem self mod PAGE_SIZE = 0
  ∧ 0 < mmap_size self
  ∧ (∀ a, mem self <= a < mem self + mmap_size self →
       vm_pages s !! (a / PAGE_SIZE) = None
       ∧ vm_pages s' !! (a / PAGE_SIZE) = Some nm)
  ∧ (∀ q nm', vm_pages s !! q = Some nm' → vm_pages s' !! q = Some nm')
  ∧ is_Some (shm_ns s' !! nm)
  ∧ heap_blocks s' = S (S (heap_blocks s)).
Proof.
  intros Hnew.
  pose proof (shmemq_new_handle _ _ _ _ _ _ _ _ Hnew) as (_ & _ & _ & _ & Hmm).
  destruct (shmemq_new_state _ _ _ _ _ _ _ _ Hnew)
    as (Hfd & Hnz & (pg & _ & Hmem) & Hfree & Hfds & Hvm & Hheap & Hns).
  pose proof PAGE_SIZE_pos as HP.
  assert (fd_table s !! fresh (dom (fd_table s)) = None) as Hfresh
    by (apply not_elem_of_dom, is_fresh).
  rewrite Hfd, Nat2Z.id, Hfds, Hvm.
  split; [lia|]. split; [done|]. split; [by rewrite lookup_insert_eq|].
  split.
  { intros fd nm' Hlook. rewrite lookup_insert_ne; [done|].
    intros Heq. rewrite <- Heq in Hlook. congruence. }
  split; [by rewrite Hmem, Z.mod_mul by lia|].
  split.
  { pose proof (to_ulong_range (to_ulong (mc * es) + SIZEOF_INFO - 1)).
    rewrite Hmm in *. lia. }
  split.
  { intros a Ha. apply elem_of_pages_of in Ha. split.
    - by eapply Forall_forall in Hfree.
    - by apply lookup_foldr_insert. }
  split.
  { intros q nm' Hq. rewrite lookup_foldr_insert_notin; [done|].
    intros Hin. eapply Forall_forall in Hfree; [|done]. simpl in Hfree.
    by simplify_eq. }
  split; [|done].
  rewrite Hns. destruct (shm_ns s !! nm) eqn:Hs.
  - by rewrite Hs.
  - by rewrite lookup_insert_eq.
Qed.

Lemma os_state_eq (s1 s2 : os_state) :
  shm_ns s1 = shm_ns s2 → fd_table s1 = fd_table s2 →
  vm_pages s1 = vm_pages s2 → heap_blocks s1 = heap_blocks s2 → s1 = s2.
Proof. destruct s1, s2; simpl; congruence. Qed.

(** X8 (a failed call leaves nothing behind).  When [shmemq_new] returns
    [NULL], the process has the descriptors, the mappings and the
    allocations that it had before the call, and no name other than the
    one asked for has changed.  If that name was free, so that the call
    created the object before it failed, the object is gone again: the
    process and the name space are exactly as before the call. *)
Theorem failed_new_cleans_up o nm mc es s s' log :
  shmemq_new o nm mc es s = (None, s', log) →
  fd_table s' = fd_table s
  ∧ vm_pages s' = vm_pages s
  ∧ heap_blocks s' = heap_blocks s
  ∧ (∀ nm', nm' ≠ nm → shm_ns s' !! nm' = shm_ns s !! nm')
  ∧ (shm_ns s !! nm = None → s' = s).
Proof.
  intros Hnew.
  destruct (shmemq_new_failure _ _ _ _ _ _ _ Hnew) as (_ & Hfds & Hvm & Hheap).
  pose proof (shmemq_new_failure_ns _ _ _ _ _ _ _ Hnew) as Hns.
  split; [done|]. split; [done|]. split; [done|]. split.
  - intros nm' Hne. destruct Hns as [-> | ->]; [done|].
    by rewrite lookup_delete_ne.
  - intros Hfree. apply os_state_eq; try done.
    destruct Hns as [-> | ->]; [done|]. by apply delete_id.
Qed.

(** X9 (creation and teardown cancel).  Let [shmemq_new] return a handle
    whose payload array is not empty and ends in the last page of the
    mapping, so that [max_size] and [mmap_size] cover the same pages.
    Then [shmemq_destroy] on this handle gives the process back the
    descriptors, the mappings and the allocations that it had before
    [shmemq_new]; the name space is untouched if the flag is clear and
    has lost the name if the flag is set.  If the call created the
    object and the flag is set, everything is exactly as before. *)
Theorem new_destroy_round_trip o nm mc es s self s' log unlink :
  shmemq_new o nm mc es s = (Some self, s', log) →
  0 < max_size self →
  (max_size self + PAGE_SIZE - 1) / PAGE_SIZE
    = (mmap_size self + PAGE_SIZE - 1) / PAGE_SIZE →
  let s'' := (shmemq_destroy self unlink s').1.2 in
  fd_table s'' = fd_table s
  ∧ vm_pages s'' = vm_pages s
  ∧ heap_blocks s'' = heap_blocks s
  ∧ shm_ns s'' = (if unlink =? 0 then shm_ns s' else delete nm (shm_ns s'))
  ∧ (shm_ns s !! nm = None → unlink ≠ 0 → s'' = s).
Proof.
  intros Hnew Hpos Hpages.
  pose proof (shmemq_new_handle _ _ _ _ _ _ _ _ Hnew) as (_ & _ & _ & Hnm & _).
  destruct (shmemq_new_state _ _ _ _ _ _ _ _ Hnew)
    as (Hfd & Hnz & (pg & _ & Hmem) & Hfree & Hfds & Hvm & Hheap & Hns).
  assert (fd_table s !! fresh (dom (fd_table s)) = None) as Hfresh
    by (apply not_elem_of_dom, is_fresh).
  assert (pages_of (mem self) (max_size self)
          = pages_of (mem self) (mmap_size self)) as Hsame
    by (by rewrite Hmem, !pages_of_aligned, Hpages).
  unfold shmemq_destroy, munmap, close, shm_unlink. unfold_OS.
  rewrite (proj2 (Z.eqb_neq (max_size self) 0)) by lia.
  rewrite Hfd. rewrite (proj2 (Z.ltb_ge (Z.of_nat _) 0)) by lia.
  assert (∀ st : os_state,
            fd_table st = fd_table s' → vm_pages st = vm_pages s' →
            delete (Z.to_nat (Z.of_nat (fresh (dom (fd_table s)))))
              (fd_table st) = fd_table s
            ∧ foldr delete (vm_pages st) (pages_of (mem self) (max_size self))
              = vm_pages s) as Hback.
  { intros st -> ->. rewrite Hfds, Hvm, Nat2Z.id, Hsame. split.
    - by apply delete_insert_id.
    - by apply foldr_delete_insert. }
  destruct (Hback s' eq_refl eq_refl) as [Hb1 Hb2].
  destruct (unlink =? 0) eqn:Hu; simpl.
  - rewrite Hb1, Hb2, Hheap. repeat (split; [done|]).
    intros _ Hne. apply Z.eqb_eq in Hu. done.
  - rewrite Hb1, Hb2, Hheap, Hnm. repeat (split; [done|]).
    intros Hnone _. apply os_state_eq; simpl; try done.
    + rewrite Hns, Hnone. by apply delete_insert_id.
    + by rewrite Hheap.
Qed.

End life_cycle_round_trip.

(** Naming the three components of a result. *)
Lemma triple_eta {A B C : Type} (x : A * B * C) (a : A) :
  x.1.1 = a → x = (a, x.1.2, x.2).
Proof. destruct x as [[? ?] ?]. simpl. by intros ->. Qed.

Lemma new_handle_resources_witness :
  0 <= shmem_fd q22
  ∧ fd_table os_empty !! Z.to_nat (shmem_fd q22) = None
  ∧ fd_table os_q22 !! Z.to_nat (shmem_fd q22) = Some "q"%string
  ∧ (∀ fd nm', fd_table os_empty !! fd = Some nm' →
       fd_table os_q22 !! fd = Some nm')
  ∧ mem q22 mod PAGE_SIZE (platform := linux_x86_64) = 0
  ∧ 0 < mmap_size q22
  ∧ (∀ a, mem q22 <= a < mem q22 + mmap_size q22 →
       vm_pages os_empty !! (a / PAGE_SIZE (platform := linux_x86_64)) = None
       ∧ vm_pages os_q22 !! (a / PAGE_SIZE (platform := linux_x86_64))
         = Some "q"%string)
  ∧ (∀ q nm', vm_pages os_empty !! q = Some nm' →
       vm_pages os_q22 !! q = Some nm')
  ∧ is_Some (shm_ns os_q22 !! "q"%string)
  ∧ heap_blocks os_q22 = S (S (heap_blocks os_empty)).
Proof.
  apply (new_handle_resources (H := linux_x86_64) kernel_ok "q" 2 2 os_empty
           q22 os_q22
           (shmemq_new (H := linux_x86_64) kernel_ok "q" 2 2 os_empty).2).
  reflexivity.
Defined.

Lemma failed_new_cleans_up_witness :
  fd_table (shmemq_new (H := linux_x86_64) kernel_no_map "q" 2 2 os_empty).1.2
  = fd_table os_empty
  ∧ vm_pages
      (shmemq_new (H := linux_x86_64) kernel_no_map "q" 2 2 os_empty).1.2
    = vm_pages os_empty
  ∧ heap_blocks
      (shmemq_new (H := linux_x86_64) kernel_no_map "q" 2 2 os_empty).1.2
    = heap_blocks os_empty
  ∧ (∀ nm', nm' ≠ "q"%string →
       shm_ns
         (shmemq_new (H := linux_x86_64) kernel_no_map "q" 2 2 os_empty).1.2
         !! nm' = shm_ns os_empty !! nm')
  ∧ (shm_ns os_empty !! "q"%string = None →
     (shmemq_new (H := linux_x86_64) kernel_no_map "q" 2 2 os_empty).1.2
     = os_empty).
Proof.
  apply (failed_new_cleans_up (H := linux_x86_64) kernel_no_map "q" 2 2
           os_empty _
           (shmemq_new (H := linux_x86_64) kernel_no_map "q" 2 2 os_empty).2).
  reflexivity.
Defined.

Lemma new_destroy_round_trip_witness :
  fd_table (shmemq_destroy (H := linux_x86_64) q22 1 os_q22).1.2
  = fd_table os_empty
  ∧ vm_pages (shmemq_destroy (H := linux_x86_64) q22 1 os_q22).1.2
    = vm_pages os_empty
  ∧ heap_blocks (shmemq_destroy (H := linux_x86_64) q22 1 os_q22).1.2
    = heap_blocks os_empty
  ∧ shm_ns (shmemq_destroy (H := linux_x86_64) q22 1 os_q22).1.2
    = (if 1 =? 0 then shm_ns os_q22 else delete "q"%string (shm_ns os_q22))
  ∧ (shm_ns os_empty !! "q"%string = None → 1 ≠ 0 →
     (shmemq_destroy (H := linux_x86_64) q22 1 os_q22).1.2 = os_empty).
Proof.
  apply (new_destroy_round_trip (H := linux_x86_64) kernel_ok "q" 2 2 os_empty
           q22 os_q22
           (shmemq_new (H := linux_x86_64) kernel_ok "q" 2 2 os_empty).2 1).
  - reflexivity.
  - by vm_compute.
  - by vm_compute.
Defined.

(** * The driver *)

(** ** The calls of the driver *)

Lemma length_msg_init : Z.of_nat (length msg_init) = SIZEOF_MESSAGE.
Proof. reflexivity. Qed.

Section driver.
Context `{platform}.

Lemma bench_params : valid_params QUEUE_SIZE SIZEOF_MESSAGE.
Proof.
  pose proof SIZEOF_INFO_range.
  unfold valid_params, QUEUE_SIZE, SIZEOF_MESSAGE, SIZEOF_INT, DATA_SIZE,
    INT_MAX.
  lia.
Qed.

(** What the calls read in a handle of the driver. *)
Lemma bench_handle_geometry h :
  bench_handle h →
  element_size h = SIZEOF_MESSAGE
  ∧ max_size h = QUEUE_SIZE * SIZEOF_MESSAGE
  ∧ mmap_size h = QUEUE_SIZE * SIZEOF_MESSAGE + SIZEOF_INFO - 1
  ∧ segment_size h = QUEUE_SIZE * SIZEOF_MESSAGE
  ∧ ring_ok h (QUEUE_SIZE * SIZEOF_MESSAGE)
  ∧ handle_facts h (QUEUE_SIZE * SIZEOF_MESSAGE).
Proof.
  intros (o & nm & s & s' & log & Hnew).
  destruct (valid_handle _ _ _ _ _ _ _ _ Hnew bench_params)
    as (_ & Hes & Hms & HL & Hok & Hf).
  apply shmemq_new_handle in Hnew as (_ & _ & _ & _ & Hmm).
  pose proof SIZEOF_INFO_range.
  rewrite HL in *. repeat (split; [done|]). split; [|done].
  rewrite Hmm. unfold to_ulong.
  rewrite (Z.mod_small (QUEUE_SIZE * SIZEOF_MESSAGE)) by (by vm_compute).
  apply Z.mod_small.
  unfold QUEUE_SIZE, SIZEOF_MESSAGE, SIZEOF_INT, DATA_SIZE, ULONG_MOD. lia.
Qed.

Lemma sizeof_message_int : 0 < SIZEOF_MESSAGE <= INT_MAX.
Proof. by vm_compute. Qed.

(** A send into a queue that is not full. *)
Lemma send_step q h m P :
  bench_handle q → bench_handle h →
  ring_inv h (QUEUE_SIZE * SIZEOF_MESSAGE) m →
  read_index m <= write_index m →
  index_distance m < max_size h →
  write_index m + SIZEOF_MESSAGE < ULONG_MOD →
  Z.of_nat (length P) = SIZEOF_MESSAGE →
  ∃ m', wait_enqueue q P m = inr (true, P, m')
        ∧ ring_inv h (QUEUE_SIZE * SIZEOF_MESSAGE) m'
        ∧ read_index m' = read_index m
        ∧ write_index m' = write_index m + SIZEOF_MESSAGE
        ∧ contents h m' = contents h m ++ [P].
Proof.
  intros Hq Hh Hinv Hnw Hd Hw HP.
  destruct (bench_handle_geometry q Hq) as (Hqes & Hqms & _).
  destruct (bench_handle_geometry h Hh) as (Hes & Hms & _ & _ & Hok & Hf).
  pose proof sizeof_message_int as Hint.
  pose proof Hinv as (_ & _ & Hr & Hwr & _).
  unfold wait_enqueue.
  rewrite (try_enqueue_geometry q h) by congruence.
  rewrite <- Hes in *.
  pose proof (enqueue_succeeds _ _ Hf m P Hok Hinv Hint HP Hd) as Hrun.
  rewrite Hrun. eexists. split; [done|].
  split.
  { apply (ring_inv_call h _ m (Enqueue P (element_size h)) (true, P) _
             [EvLock;
              EvCopyIn (write_index m mod max_size h) (element_size h);
              EvUnlock]); [done|done| |].
    - unfold is_int, INT_MIN. simpl. lia.
    - by rewrite shmemq_call_enqueue, Hrun. }
  split; [done|]. split.
  { simpl. apply to_ulong_id. unfold is_ulong in *. lia. }
  apply (contents_enqueued _ _ Hf); try done; try lia.
  apply (enqueue_slot_fits _ _ Hf); (done || lia).
Qed.

(** A receive from a queue that is not empty. *)
Lemma recv_step q h m buf :
  bench_handle q → bench_handle h →
  ring_inv h (QUEUE_SIZE * SIZEOF_MESSAGE) m →
  read_index m < write_index m →
  Z.of_nat (length buf) = SIZEOF_MESSAGE →
  ∃ x m', wait_dequeue q buf m = inr (true, x, m')
          ∧ contents h m = x :: contents h m'
          ∧ ring_inv h (QUEUE_SIZE * SIZEOF_MESSAGE) m'
          ∧ read_index m' = read_index m + SIZEOF_MESSAGE
          ∧ write_index m' = write_index m.
Proof.
  intros Hq Hh Hinv Hlt Hbuf.
  destruct (bench_handle_geometry q Hq) as (Hqes & Hqms & _).
  destruct (bench_handle_geometry h Hh) as (Hes & Hms & _ & _ & Hok & Hf).
  pose proof sizeof_message_int as Hint.
  pose proof Hinv as (_ & _ & Hr & Hwr & _).
  unfold wait_dequeue.
  rewrite (try_dequeue_geometry q h) by congruence.
  rewrite <- Hes in *.
  rewrite (dequeue_succeeds _ _ Hf m buf Hinv Hint Hbuf Hlt).
  destruct (ring_inv_dequeue _ _ Hf m Hinv Hlt) as (_ & Hge & Hinv').
  eexists _, _. split; [done|].
  split; [by apply (contents_dequeued _ _ Hf)|].
  split; [done|]. split; [|done].
  simpl. apply to_ulong_id. unfold is_ulong in *. lia.
Qed.

(** A receive from a queue that is empty. *)
Lemma recv_wait q h m buf :
  bench_handle q → bench_handle h →
  ring_inv h (QUEUE_SIZE * SIZEOF_MESSAGE) m →
  write_index m <= read_index m →
  wait_dequeue q buf m = inr (false, buf, m).
Proof.
  intros Hq Hh ([a Hl] & _) Hle.
  destruct (bench_handle_geometry q Hq) as (Hqes & Hqms & _).
  destruct (uint_of_element_size q) as [Hu _];
    [rewrite Hqes; apply sizeof_message_int|].
  unfold wait_dequeue. rewrite <- Hqes.
  by rewrite (try_dequeue_empty _ _ _ _ a).
Qed.

(** A queue as [main] created it, seen through any of the handles. *)
Lemma created_queue_inv q h :
  bench_handle q → bench_handle h →
  ring_inv h (QUEUE_SIZE * SIZEOF_MESSAGE) (created_segment q)
  ∧ contents h (created_segment q) = [].
Proof.
  intros Hq Hh.
  destruct (bench_handle_geometry h Hh) as (_ & _ & Hmm & HL & _ & Hf).
  destruct (bench_handle_geometry q Hq) as (_ & _ & Hmmq & _).
  replace (created_segment q) with (created_segment h)
    by (unfold created_segment; by rewrite Hmm, Hmmq).
  split; [|by apply contents_empty].
  rewrite <- HL in *. by apply ring_inv_created.
Qed.

End driver.

Ltac split_all := repeat match goal with |- _ ∧ _ => split end.

Ltac close_turn :=
  split_all;
  cbn [loop_i pos msg server_p client_p server_mem client_mem];
  first [ done | lia | by left | by right | right; lia
        | intros ? [?|?]; (done || lia) ].

(** ** What holds between two turns *)

Section driver_runs.
Context `{platform}.
Variables (reps : Z) (h : shmemq_t) (sqs cqs : queues).
Hypothesis Hreps : 10 <= reps <= INT_MAX.
Hypothesis Hh : bench_handle h.
Hypothesis Hsqs : bench_queues sqs.
Hypothesis Hcqs : bench_queues cqs.

Lemma end_iteration_ok p :
  end_iteration reps p
  = inr {| loop_i := loop_i p + 1; pos := FirstWait; msg := msg p |}.
Proof.
  unfold end_iteration. rewrite Z.quot_div_nonneg by lia.
  assert (1 <= reps / 10) by (apply Z.div_le_lower_bound; lia).
  by rewrite (proj2 (Z.eqb_neq _ 0)) by lia.
Qed.

Lemma empty_distance m :
  ring_inv h (QUEUE_SIZE * SIZEOF_MESSAGE) m →
  read_index m = write_index m →
  index_distance m < max_size h.
Proof.
  intros (_ & _ & Hr & Hw & _) Heq.
  destruct (bench_handle_geometry h Hh) as (_ & -> & _).
  unfold index_distance. rewrite Heq, Z.sub_diag. by vm_compute.
Qed.

(** A turn of the server returns and keeps the invariant; it leaves the
    state as it is or completes one more call, which it does whenever
    it is about to send or has something to receive. *)
Lemma server_turn_inv b :
  bench_inv reps h (QUEUE_SIZE * SIZEOF_MESSAGE) b →
  ∃ b', server_turn reps sqs b = inr b'
        ∧ bench_inv reps h (QUEUE_SIZE * SIZEOF_MESSAGE) b'
        ∧ client_p b' = client_p b
        ∧ (b' = b
           ∨ calls_done (server_p b') = calls_done (server_p b) + 1)
        ∧ (loop_i (server_p b) < reps →
           pos (server_p b) = SecondWait
           ∨ read_index (server_mem b) < write_index (server_mem b) →
           calls_done (server_p b') = calls_done (server_p b) + 1).
Proof.
  destruct Hsqs as [Hsq Hcq].
  destruct (bench_handle_geometry h Hh) as (Hes & Hms & _).
  assert (element_size h = 256) as Hes' by (by rewrite Hes).
  assert (SIZEOF_MESSAGE = 256) as Hsz by done.
  pose proof length_msg_init as Hlen.
  destruct b as [sm cm [si sp smsg] [ci cp cmsg]].
  unfold bench_inv, calls_done, in_second. simpl.
  intros (Hsm & Hcm & Hsi & Hci & Hsend & Hcend & Hshape & Hw1 & Hr1 & Hw2
          & Hr2 & -> & -> & Hc1 & Hc2).
  rewrite Hes' in *.
  unfold server_turn. simpl.
  destruct (Z.ltb_spec si reps) as [Hlt|Hge]; simpl;
    [|eexists; split; [done|]; close_turn].
  destruct sp.
  - destruct (Z_lt_le_dec (read_index sm) (write_index sm)) as [Hne|He].
    + destruct (recv_step _ _ sm msg_init Hsq Hh Hsm Hne Hlen)
        as (x & m' & -> & Hcont & Hinv' & Hr' & Hw').
      rewrite Hcont in Hc1. apply Forall_cons in Hc1 as [-> Hc1].
      assert (si = ci ∧ cp = SecondWait) as [-> ->]
        by (destruct cp, Hshape as [[? ?]|(? & ? & ?)]; (done || lia)).
      eexists. split; [done|]. simpl. close_turn.
    + rewrite (recv_wait _ _ sm msg_init Hsq Hh Hsm He).
      eexists. split; [done|]. simpl. close_turn.
  - assert (si = ci ∧ cp = SecondWait) as [-> ->]
      by (destruct Hshape as [[? ?]|(? & ? & ?)]; [by auto|done]).
    assert (read_index cm <= write_index cm) as Hnw by lia.
    assert (index_distance cm < max_size h) as Hd
      by (apply empty_distance; [done|lia]).
    assert (write_index cm + SIZEOF_MESSAGE < ULONG_MOD) as Hfit
      by (unfold ULONG_MOD, INT_MAX in *; lia).
    destruct (send_step _ _ cm msg_init Hcq Hh Hcm Hnw Hd Hfit Hlen)
      as (m' & -> & Hinv' & Hr' & Hw' & Hcont).
    rewrite end_iteration_ok. simpl.
    eexists. split; [done|]. simpl.
    assert (Forall (fun x => x = msg_init) (contents h m')) as Hc2'
      by (rewrite Hcont; apply Forall_app; split; [done|by constructor]).
    close_turn.
Qed.

(** The same for a turn of the client, which completes one more call
    whenever it is about to send or has something to receive. *)
Lemma client_turn_inv b :
  bench_inv reps h (QUEUE_SIZE * SIZEOF_MESSAGE) b →
  ∃ b', client_turn reps cqs b = inr b'
        ∧ bench_inv reps h (QUEUE_SIZE * SIZEOF_MESSAGE) b'
        ∧ server_p b' = server_p b
        ∧ (b' = b
           ∨ calls_done (client_p b') = calls_done (client_p b) + 1)
        ∧ (loop_i (client_p b) < reps →
           pos (client_p b) = FirstWait
           ∨ read_index (client_mem b) < write_index (client_mem b) →
           calls_done (client_p b') = calls_done (client_p b) + 1).
Proof.
  destruct Hcqs as [Hsq Hcq].
  destruct (bench_handle_geometry h Hh) as (Hes & Hms & _).
  assert (element_size h = 256) as Hes' by (by rewrite Hes).
  assert (SIZEOF_MESSAGE = 256) as Hsz by done.
  pose proof length_msg_init as Hlen.
  destruct b as [sm cm [si sp smsg] [ci cp cmsg]].
  unfold bench_inv, calls_done, in_second. simpl.
  intros (Hsm & Hcm & Hsi & Hci & Hsend & Hcend & Hshape & Hw1 & Hr1 & Hw2
          & Hr2 & -> & -> & Hc1 & Hc2).
  rewrite Hes' in *.
  unfold client_turn. simpl.
  destruct (Z.ltb_spec ci reps) as [Hlt|Hge]; simpl;
    [|eexists; split; [done|]; close_turn].
  destruct cp.
  - assert (si = ci ∧ sp = FirstWait) as [-> ->]
      by (destruct sp, Hshape as [[? Hs]|(? & ? & ?)];
          (done || (by specialize (Hs eq_refl)) || lia)).
    assert (read_index sm <= write_index sm) as Hnw by lia.
    assert (index_distance sm < max_size h) as Hd
      by (apply empty_distance; [done|lia]).
    assert (write_index sm + SIZEOF_MESSAGE < ULONG_MOD) as Hfit
      by (unfold ULONG_MOD, INT_MAX in *; lia).
    destruct (send_step _ _ sm msg_init Hsq Hh Hsm Hnw Hd Hfit Hlen)
      as (m' & -> & Hinv' & Hr' & Hw' & Hcont).
    eexists. split; [done|]. simpl.
    assert (Forall (fun x => x = msg_init) (contents h m')) as Hc1'
      by (rewrite Hcont; apply Forall_app; split; [done|by constructor]).
    close_turn.
  - destruct (Z_lt_le_dec (read_index cm) (write_index cm)) as [Hne|He].
    + destruct (recv_step _ _ cm msg_init Hcq Hh Hcm Hne Hlen)
        as (x & m' & -> & Hcont & Hinv' & Hr' & Hw').
      rewrite Hcont in Hc2. apply Forall_cons in Hc2 as [-> Hc2].
      assert (si = ci + 1 ∧ sp = FirstWait) as [-> ->]
        by (destruct Hshape as [[? ?]|(? & ? & ?)]; [lia|done]).
      rewrite end_iteration_ok. simpl.
      eexists. split; [done|]. simpl. close_turn.
    + rewrite (recv_wait _ _ cm msg_init Hcq Hh Hcm He).
      eexists. split; [done|]. simpl. close_turn.
Qed.

Lemma turn_inv who b :
  bench_inv reps h (QUEUE_SIZE * SIZEOF_MESSAGE) b →
  ∃ b', turn reps sqs cqs who b = inr b'
        ∧ bench_inv reps h (QUEUE_SIZE * SIZEOF_MESSAGE) b'.
Proof.
  intros Hinv. destruct who; simpl.
  - destruct (server_turn_inv b Hinv) as (b' & ? & ? & _). by eauto.
  - destruct (client_turn_inv b Hinv) as (b' & ? & ? & _). by eauto.
Qed.

Lemma run_inv sched : ∀ b,
  bench_inv reps h (QUEUE_SIZE * SIZEOF_MESSAGE) b →
  ∃ b', run reps sqs cqs sched b = inr b'
        ∧ bench_inv reps h (QUEUE_SIZE * SIZEOF_MESSAGE) b'.
Proof.
  induction sched as [|who sched IH]; intros b Hinv; simpl; [by eauto|].
  destruct (turn_inv who b Hinv) as (b1 & -> & Hinv1). by apply IH.
Qed.

Lemma run_app sched1 sched2 b b1 :
  run reps sqs cqs sched1 b = inr b1 →
  run reps sqs cqs (sched1 ++ sched2) b = run reps sqs cqs sched2 b1.
Proof.
  revert b. induction sched1 as [|who sched1 IH]; intros b; simpl.
  - by intros [= ->].
  - destruct (turn reps sqs cqs who b) as [f|b']; [done|]. apply IH.
Qed.

Lemma bench_init_inv main_qs :
  bench_queues main_qs →
  bench_inv reps h (QUEUE_SIZE * SIZEOF_MESSAGE) (bench_init main_qs).
Proof.
  intros [Hsq Hcq].
  destruct (created_queue_inv _ h Hsq Hh) as [? Hc1].
  destruct (created_queue_inv _ h Hcq Hh) as [? Hc2].
  unfold bench_inv, bench_init, in_second.
  cbn [loop_i pos msg server_p client_p server_mem client_mem].
  rewrite Hc1, Hc2, !created_read_index, !created_write_index.
  split_all; first [done | lia | by left].
Qed.

(** The calls that returned [true] so far, in both processes. *)
Lemma calls_done_bound b :
  bench_inv reps h (QUEUE_SIZE * SIZEOF_MESSAGE) b →
  calls_done (server_p b) + calls_done (client_p b) <= 4 * reps
  ∧ (calls_done (server_p b) + calls_done (client_p b) = 4 * reps →
     loop_i (server_p b) = reps ∧ loop_i (client_p b) = reps).
Proof.
  unfold bench_inv, calls_done, in_second.
  intros (_ & _ & Hsi & Hci & Hsend & Hcend & _).
  destruct (pos (server_p b)), (pos (client_p b));
    split; try lia;
    destruct (decide (loop_i (server_p b) = reps)) as [Hs|Hs];
    destruct (decide (loop_i (client_p b) = reps)) as [Hc|Hc];
    try specialize (Hsend Hs); try specialize (Hcend Hc);
    first [done | lia].
Qed.

(** A turn leaves the state as it is or completes one more call, and it
    does the latter when the process can move. *)
Lemma turn_step who b :
  bench_inv reps h (QUEUE_SIZE * SIZEOF_MESSAGE) b →
  ∃ b', turn reps sqs cqs who b = inr b'
        ∧ bench_inv reps h (QUEUE_SIZE * SIZEOF_MESSAGE) b'
        ∧ (b' = b
           ∨ calls_done (server_p b') + calls_done (client_p b')
             = calls_done (server_p b) + calls_done (client_p b) + 1)
        ∧ (can_move reps who b →
           calls_done (server_p b') + calls_done (client_p b')
           = calls_done (server_p b) + calls_done (client_p b) + 1).
Proof.
  intros Hinv. destruct who; simpl.
  - destruct (server_turn_inv b Hinv) as (b' & Hrun & Hinv' & Hc & Hstep & Hgo).
    exists b'. split; [done|]. split; [done|]. rewrite Hc. split.
    + destruct Hstep as [->|Hstep]; [by left|right; lia].
    + intros [Hlt Hcan]. rewrite Hgo by done. lia.
  - destruct (client_turn_inv b Hinv) as (b' & Hrun & Hinv' & Hs & Hstep & Hgo).
    exists b'. split; [done|]. split; [done|]. rewrite Hs. split.
    + destruct Hstep as [->|Hstep]; [by left|right; lia].
    + intros [Hlt Hcan]. rewrite Hgo by done. lia.
Qed.

(** As long as a process is in its loop, one of the two can move. *)
Lemma bench_can_move b :
  bench_inv reps h (QUEUE_SIZE * SIZEOF_MESSAGE) b →
  calls_done (server_p b) + calls_done (client_p b) < 4 * reps →
  ∃ who, can_move reps who b.
Proof.
  intros Hinv Hlt.
  destruct (bench_handle_geometry h Hh) as (Hes & _).
  pose proof Hinv as (_ & _ & Hsi & Hci & Hsend & Hcend & Hshape & Hw1 & Hr1
                      & Hw2 & Hr2 & _).
  rewrite Hes in *. unfold SIZEOF_MESSAGE, SIZEOF_INT, DATA_SIZE in *.
  unfold calls_done, in_second in *.
  destruct (pos (client_p b)) eqn:Hpc.
  - exists Client. simpl. split; [|by left].
    destruct Hshape as [[? Hps]|(? & ? & ?)]; [|done].
    destruct (pos (server_p b)); [lia|by specialize (Hps eq_refl)].
  - destruct Hshape as [[Hsc _]|(Hsc & _ & _)].
    + assert (loop_i (server_p b) < reps) as Hsi'.
      { destruct (decide (loop_i (client_p b) = reps)) as [Hc|Hc]; [|lia].
        specialize (Hcend Hc). congruence. }
      exists Server. simpl. split; [done|].
      destruct (pos (server_p b)); [right; lia|by left].
    + exists Client. simpl. rewrite Hpc. split; [lia|right; lia].
Qed.

Lemma bench_progress b :
  bench_inv reps h (QUEUE_SIZE * SIZEOF_MESSAGE) b →
  calls_done (server_p b) + calls_done (client_p b) < 4 * reps →
  ∃ who b',
    turn reps sqs cqs who b = inr b'
    ∧ bench_inv reps h (QUEUE_SIZE * SIZEOF_MESSAGE) b'
    ∧ calls_done (server_p b') + calls_done (client_p b')
      = calls_done (server_p b) + calls_done (client_p b) + 1.
Proof.
  intros Hinv Hlt.
  destruct (bench_can_move b Hinv Hlt) as [who Hcan].
  destruct (turn_step who b Hinv) as (b' & Hrun & Hinv' & _ & Hgo).
  exists who, b'. auto.
Qed.

Lemma bench_finish n : ∀ b,
  bench_inv reps h (QUEUE_SIZE * SIZEOF_MESSAGE) b →
  4 * reps - (calls_done (server_p b) + calls_done (client_p b))
    = Z.of_nat n →
  ∃ sched b_end,
    run reps sqs cqs sched b = inr b_end
    ∧ length sched = n
    ∧ bench_inv reps h (QUEUE_SIZE * SIZEOF_MESSAGE) b_end
    ∧ loop_i (server_p b_end) = reps ∧ loop_i (client_p b_end) = reps.
Proof.
  induction n as [|n IH]; intros b Hinv Hn.
  - exists [], b. split; [done|]. split; [done|]. split; [done|].
    apply (calls_done_bound b Hinv). lia.
  - destruct (bench_progress b Hinv) as (who & b' & Hturn & Hinv' & Hstep);
      [lia|].
    destruct (IH b' Hinv') as (sched & b_end & Hrun & Hlen & Hend); [lia|].
    exists (who :: sched), b_end. simpl. rewrite Hturn.
    split; [done|]. split; [by rewrite Hlen|done].
Qed.

(** The calls that returned [true] never become fewer in a run. *)
Lemma run_monotone sched : ∀ b,
  bench_inv reps h (QUEUE_SIZE * SIZEOF_MESSAGE) b →
  ∃ b', run reps sqs cqs sched b = inr b'
        ∧ bench_inv reps h (QUEUE_SIZE * SIZEOF_MESSAGE) b'
        ∧ calls_done (server_p b) + calls_done (client_p b)
          <= calls_done (server_p b') + calls_done (client_p b').
Proof.
  induction sched as [|who sched IH]; intros b Hinv; simpl.
  - exists b. split; [done|]. split; [done|]. lia.
  - destruct (turn_step who b Hinv) as (b1 & -> & Hinv1 & Hstep & _).
    destruct (IH b1 Hinv1) as (b' & Hrun & Hinv' & Hle).
    exists b'. split; [done|]. split; [done|].
    destruct Hstep as [->|Hstep]; lia.
Qed.

(** A stretch of a schedule in which a process that can move gets a turn
    completes at least one call. *)
Lemma block_progress who blk : ∀ b,
  bench_inv reps h (QUEUE_SIZE * SIZEOF_MESSAGE) b →
  who ∈ blk → can_move reps who b →
  ∃ b', run reps sqs cqs blk b = inr b'
        ∧ bench_inv reps h (QUEUE_SIZE * SIZEOF_MESSAGE) b'
        ∧ calls_done (server_p b) + calls_done (client_p b) + 1
          <= calls_done (server_p b') + calls_done (client_p b').
Proof.
  induction blk as [|x blk IH]; intros b Hinv Hin Hcan;
    [by apply elem_of_nil in Hin|].
  simpl.
  destruct (turn_step x b Hinv) as (b1 & -> & Hinv1 & Hstep & Hgo).
  assert (x = who ∨ x ≠ who) as [->|Hne]
    by (destruct x, who; (by left) || (by right)).
  - specialize (Hgo Hcan).
    destruct (run_monotone blk b1 Hinv1) as (b' & Hrun & Hinv' & Hle).
    exists b'. split; [done|]. split; [done|]. lia.
  - destruct Hstep as [->|Hstep].
    + apply IH; [done| |done].
      apply elem_of_cons in Hin as [->|Hin]; done.
    + destruct (run_monotone blk b1 Hinv1) as (b' & Hrun & Hinv' & Hle).
      exists b'. split; [done|]. split; [done|]. lia.
Qed.

(** Stretches in each of which both processes get a turn: each completes
    a call as long as one is due. *)
Lemma blocks_progress blocks : ∀ b,
  bench_inv reps h (QUEUE_SIZE * SIZEOF_MESSAGE) b →
  Forall (fun blk => Server ∈ blk ∧ Client ∈ blk) blocks →
  ∃ b', run reps sqs cqs (concat blocks) b = inr b'
        ∧ bench_inv reps h (QUEUE_SIZE * SIZEOF_MESSAGE) b'
        ∧ Z.min (4 * reps)
            (calls_done (server_p b) + calls_done (client_p b)
             + Z.of_nat (length blocks))
          <= calls_done (server_p b') + calls_done (client_p b').
Proof.
  induction blocks as [|blk blocks IH]; intros b Hinv Hfair; simpl.
  - exists b. split; [done|]. split; [done|]. lia.
  - apply Forall_cons in Hfair as [[Hs Hc] Hfair].
    destruct (calls_done_bound b Hinv) as [Hle _].
    destruct (Z_lt_le_dec (calls_done (server_p b) + calls_done (client_p b))
                (4 * reps)) as [Hlt|Hge].
    + destruct (bench_can_move b Hinv Hlt) as [who Hcan].
      destruct (block_progress who blk b Hinv) as (b1 & Hrun1 & Hinv1 & Hstep);
        [by destruct who|done|].
      destruct (IH b1 Hinv1 Hfair) as (b' & Hrun & Hinv' & Hmin).
      exists b'. rewrite (run_app _ _ _ _ Hrun1).
      split; [done|]. split; [done|]. lia.
    + destruct (run_monotone blk b Hinv) as (b1 & Hrun1 & Hinv1 & Hstep).
      destruct (IH b1 Hinv1 Hfair) as (b' & Hrun & Hinv' & Hmin).
      destruct (calls_done_bound b1 Hinv1) as [Hle1 _].
      exists b'. rewrite (run_app _ _ _ _ Hrun1).
      split; [done|]. split; [done|]. lia.
Qed.

End driver_runs.

(** ** Runs of the driver *)

Section driver_properties.
Context `{platform}.
Variables (reps : Z) (main_qs sqs cqs : queues).
Hypothesis Hreps : 10 <= reps <= INT_MAX.
Hypothesis Hmain : bench_queues main_qs.
Hypothesis Hsqs : bench_queues sqs.
Hypothesis Hcqs : bench_queues cqs.

Lemma bench_reaches_inv b :
  bench_reaches reps main_qs sqs cqs b →
  bench_inv reps (server_queue main_qs) (QUEUE_SIZE * SIZEOF_MESSAGE) b.
Proof.
  intros [sched Hrun]. destruct Hmain as [Hh _].
  destruct (run_inv reps _ sqs cqs Hreps Hh Hsqs Hcqs sched
              (bench_init main_qs)) as (b' & Hrun' & Hinv).
  { by apply bench_init_inv. }
  rewrite Hrun in Hrun'. by simplify_eq.
Qed.

Lemma bench_inv_in_flight h b :
  bench_handle h →
  bench_inv reps h (QUEUE_SIZE * SIZEOF_MESSAGE) b →
  loop_i (client_p b) <= loop_i (server_p b) <= loop_i (client_p b) + 1
  ∧ (length (contents h (server_mem b))
     + length (contents h (client_mem b)) ≤ 1)%nat
  ∧ (finished reps (server_p b) = true → finished reps (client_p b) = true →
     contents h (server_mem b) = [] ∧ contents h (client_mem b) = []
     ∧ write_index (server_mem b) = reps * SIZEOF_MESSAGE
     ∧ write_index (client_mem b) = reps * SIZEOF_MESSAGE).
Proof.
  intros Hh (_ & _ & Hsi & Hci & Hsend & Hcend & Hshape & Hw1 & Hr1 & Hw2
             & Hr2 & _).
  destruct (bench_handle_geometry h Hh) as (Hes & _).
  unfold contents, finished, in_second in *.
  rewrite !length_map, !length_seq, Hw1, Hr1, Hw2, Hr2, Hes.
  rewrite <- !Z.mul_sub_distr_l, !(Z.mul_comm SIZEOF_MESSAGE),
    !Z.div_mul by done.
  split; [destruct Hshape as [[? ?]|(? & ? & ?)]; lia|].
  split.
  { destruct (pos (server_p b)), (pos (client_p b)),
      Hshape as [[? Hp]|(? & ? & ?)];
      (done || (by specialize (Hp eq_refl)) || lia). }
  intros Hfs%negb_true_iff%Z.ltb_ge Hfc%negb_true_iff%Z.ltb_ge.
  assert (loop_i (server_p b) = reps) as Hs by lia.
  assert (loop_i (client_p b) = reps) as Hc by lia.
  rewrite (Hsend Hs), (Hcend Hc), Hs, Hc.
  replace (reps + 0 - (reps + 0)) with 0 by lia.
  rewrite Z.sub_diag. simpl. split_all; first [done | lia].
Qed.

Lemma client_contents b :
  contents (client_queue main_qs) (client_mem b)
  = contents (server_queue main_qs) (client_mem b).
Proof.
  destruct Hmain as [Hh1 Hh2].
  destruct (bench_handle_geometry _ Hh1) as (? & ? & _).
  destruct (bench_handle_geometry _ Hh2) as (? & ? & _).
  apply contents_geometry; congruence.
Qed.


(** X11 (a send never waits).  In every state that the driver reaches,
    a process that is at a [while (!shmemq_try_enqueue(...))] loop leaves
    it with its next call: the call returns [true].  Only the loops
    around [shmemq_try_dequeue] ever repeat. *)
Theorem driver_send_never_waits b :
  bench_reaches reps main_qs sqs cqs b →
  (loop_i (server_p b) < reps → pos (server_p b) = SecondWait →
   ∃ b', server_turn reps sqs b = inr b'
         ∧ loop_i (server_p b') = loop_i (server_p b) + 1
         ∧ pos (server_p b') = FirstWait)
  ∧ (loop_i (client_p b) < reps → pos (client_p b) = FirstWait →
     ∃ b', client_turn reps cqs b = inr b'
           ∧ loop_i (client_p b') = loop_i (client_p b)
           ∧ pos (client_p b') = SecondWait).
Proof.
  intros Hinv%bench_reaches_inv. destruct Hmain as [Hh _]. split.
  - intros Hlt Hpos.
    destruct (server_turn_inv reps _ sqs Hreps Hh Hsqs b Hinv)
      as (b' & Hrun & Hinv' & _ & _ & Hgo).
    exists b'. split; [done|].
    specialize (Hgo Hlt (or_introl Hpos)).
    unfold calls_done, in_second in Hgo. rewrite Hpos in Hgo.
    destruct (pos (server_p b')); [split; [lia|done]|lia].
  - intros Hlt Hpos.
    destruct (client_turn_inv reps _ cqs Hreps Hh Hcqs b Hinv)
      as (b' & Hrun & Hinv' & _ & _ & Hgo).
    exists b'. split; [done|].
    specialize (Hgo Hlt (or_introl Hpos)).
    unfold calls_done, in_second in Hgo. rewrite Hpos in Hgo.
    destruct (pos (client_p b')); [lia|split; [lia|done]].
Qed.

(** X12 (the message arrives unchanged).  In every state that the
    driver reaches, [msg] holds in both processes the bytes of
    [{ .type = 42, .data = "Hello" }], and so does every element in
    either queue: whatever a process receives is what its peer sent. *)
Theorem driver_messages_intact b :
  bench_reaches reps main_qs sqs cqs b →
  msg (server_p b) = msg_init ∧ msg (client_p b) = msg_init
  ∧ Forall (fun x => x = msg_init)
      (contents (server_queue main_qs) (server_mem b))
  ∧ Forall (fun x => x = msg_init)
      (contents (client_queue main_qs) (client_mem b)).
Proof.
  intros Hinv%bench_reaches_inv. rewrite client_contents.
  by destruct Hinv
    as (_ & _ & _ & _ & _ & _ & _ & _ & _ & _ & _ & ? & ? & ? & ?).
Qed.

(** X13 (the driver cannot get stuck).  From every state that the
    driver reaches, some schedule leads both processes out of their
    loops, and it takes exactly the calls that are still due: two in
    each iteration of each process.  So no reachable state has both
    processes waiting for each other. *)
Theorem driver_can_finish b :
  bench_reaches reps main_qs sqs cqs b →
  ∃ sched b_end,
    run reps sqs cqs sched b = inr b_end
    ∧ Z.of_nat (length sched)
      = 4 * reps - (calls_done (server_p b) + calls_done (client_p b))
    ∧ finished reps (server_p b_end) = true
    ∧ finished reps (client_p b_end) = true.
Proof.
  intros Hinv%bench_reaches_inv. destruct Hmain as [Hh _].
  pose proof (calls_done_bound reps _ b Hinv) as [Hle _].
  destruct (bench_finish reps _ sqs cqs Hreps Hh Hsqs Hcqs
              (Z.to_nat (4 * reps - (calls_done (server_p b)
                                     + calls_done (client_p b)))) b Hinv)
    as (sched & b_end & Hrun & Hlen & _ & Hs & Hc); [lia|].
  exists sched, b_end. split; [done|]. split; [lia|].
  unfold finished. rewrite Hs, Hc, Z.ltb_irrefl. done.
Qed.

(** X14 (every fair schedule ends the driver).  Cut a schedule into
    stretches in each of which both processes get at least one turn.
    Once there are [4 * REPETITIONS] such stretches, both processes have
    left their loops: however the turns of the two processes are
    interleaved, the driver ends as long as neither process is kept
    from running. *)
Theorem driver_fair_schedule_finishes (blocks : list (list role)) :
  Forall (fun blk => Server ∈ blk ∧ Client ∈ blk) blocks →
  4 * reps <= Z.of_nat (length blocks) →
  ∃ b_end,
    run reps sqs cqs (concat blocks) (bench_init main_qs) = inr b_end
    ∧ finished reps (server_p b_end) = true
    ∧ finished reps (client_p b_end) = true.
Proof.
  intros Hfair Hlen. destruct Hmain as [Hh _].
  destruct (blocks_progress reps _ sqs cqs Hreps Hh Hsqs Hcqs blocks
              (bench_init main_qs)) as (b & Hrun & Hinv & Hmin);
    [by apply bench_init_inv|done|].
  exists b. split; [done|].
  destruct (calls_done_bound reps _ b Hinv) as [Hle Hend].
  destruct Hend as [Hs Hc].
  { change (calls_done (server_p (bench_init main_qs))) with 0 in Hmin.
    change (calls_done (client_p (bench_init main_qs))) with 0 in Hmin.
    lia. }
  unfold finished. rewrite Hs, Hc, Z.ltb_irrefl. done.
Qed.

(** X15 (what the driver leaves in the queues).  In every state that the
    driver reaches, the calls that returned [true] are at most
    [4 * REPETITIONS]; and once both processes have left their loops,
    both queues are empty and the write index of each stands at
    [REPETITIONS * sizeof(struct message)]: every message that was sent
    was received. *)
Theorem driver_final_state b :
  bench_reaches reps main_qs sqs cqs b →
  calls_done (server_p b) + calls_done (client_p b) <= 4 * reps
  ∧ (finished reps (server_p b) = true → finished reps (client_p b) = true →
     contents (server_queue main_qs) (server_mem b) = []
     ∧ contents (client_queue main_qs) (client_mem b) = []
     ∧ write_index (server_mem b) = reps * SIZEOF_MESSAGE
     ∧ write_index (client_mem b) = reps * SIZEOF_MESSAGE).
Proof.
  intros Hinv%bench_reaches_inv. destruct Hmain as [Hh _].
  rewrite client_contents.
  split; [by apply (calls_done_bound reps _ b Hinv)|].
  by apply (bench_inv_in_flight _ b Hh Hinv).
Qed.

End driver_properties.

Section driver_edge.
Context `{platform}.

(** X16 (fewer than ten repetitions).  In a build with [REPETITIONS]
    between [1] and [9], [REPETITIONS/10] is [0] and the progress test
    [i % (REPETITIONS/10)] at the end of the first iteration divides by
    zero: once the client has sent and the server has received and sent
    back, the server stops there. *)
Theorem driver_few_repetitions_divide_by_zero reps main_qs sqs cqs :
  0 < reps < 10 →
  bench_queues main_qs → bench_queues sqs → bench_queues cqs →
  run reps sqs cqs [Client; Server; Server] (bench_init main_qs)
  = inl DivByZero.
Proof.
  intros Hreps [Hmq1 Hmq2] [Hsq1 Hsq2] [Hcq1 Hcq2].
  pose proof length_msg_init as Hlen.
  destruct (bench_handle_geometry _ Hmq1) as (Hes & Hms & _).
  destruct (created_queue_inv _ _ Hmq1 Hmq1) as [Hinv1 Hc1].
  destruct (created_queue_inv _ _ Hmq2 Hmq1) as [Hinv2 Hc2].
  assert (∀ q, index_distance (created_segment q)
               < max_size (server_queue main_qs)) as Hd
    by (intros q; rewrite created_index_distance, Hms; by vm_compute).
  destruct (send_step _ _ _ msg_init Hcq1 Hmq1 Hinv1) as
    (m1 & Hrun1 & Hinv1' & Hr1 & Hw1 & Hcont1);
    [by rewrite created_read_index, created_write_index|done|
     by rewrite created_write_index|done|].
  rewrite created_read_index in Hr1. rewrite created_write_index in Hw1.
  destruct (recv_step _ _ m1 msg_init Hsq1 Hmq1 Hinv1') as
    (x & m2 & Hrun2 & Hcont2 & _); [by rewrite Hr1, Hw1|done|].
  rewrite Hcont1, Hc1 in Hcont2. simpl in Hcont2. simplify_eq.
  destruct (send_step _ _ _ msg_init Hsq2 Hmq1 Hinv2) as
    (m3 & Hrun3 & _);
    [by rewrite created_read_index, created_write_index|done|
     by rewrite created_write_index|done|].
  unfold run, turn, client_turn, server_turn, bench_init.
  cbn [loop_i pos msg server_p client_p server_mem client_mem].
  rewrite (proj2 (Z.ltb_lt 0 reps)) by lia. cbn [negb].
  rewrite Hrun1.
  cbn [loop_i pos msg server_p client_p server_mem client_mem].
  rewrite (proj2 (Z.ltb_lt 0 reps)) by lia. cbn [negb].
  rewrite Hrun2.
  cbn [loop_i pos msg server_p client_p server_mem client_mem].
  rewrite (proj2 (Z.ltb_lt 0 reps)) by lia. cbn [negb].
  rewrite Hrun3.
  unfold end_iteration. rewrite Z.quot_small by lia. done.
Qed.

End driver_edge.

(** ** The queues of the driver from creation to removal *)

Section driver_life_cycle.
Context `{platform}.

(** The two calls of [shmemq_new] in a [main] that got both queues. *)
Lemma main_open_calls o1 o2 argv1 argv2 s0 qs s1 log :
  main_open o1 o2 argv1 argv2 s0 = (Some qs, s1, log) →
  ∃ sA logA logB,
    shmemq_new o1 argv1 QUEUE_SIZE SIZEOF_MESSAGE s0
    = (Some (server_queue qs), sA, logA)
    ∧ shmemq_new o2 argv2 QUEUE_SIZE SIZEOF_MESSAGE sA
      = (Some (client_queue qs), s1, logB)
    ∧ log = logA ++ logB.
Proof.
  unfold main_open. unfold_OS.
  destruct (shmemq_new o1 argv1 _ _ s0) as [[r1 sA] logA] eqn:Hn1.
  destruct (shmemq_new o2 argv2 _ _ sA) as [[r2 sB] logB] eqn:Hn2.
  destruct r1 as [sq|], r2 as [cq|]; simpl; intros [= <- <- <-]; simpl.
  exists sA, logA, logB. by rewrite app_nil_r.
Qed.

Lemma main_open_queues o1 o2 argv1 argv2 s0 qs s1 log :
  main_open o1 o2 argv1 argv2 s0 = (Some qs, s1, log) →
  bench_queues qs
  ∧ is_Some (shm_ns s1 !! argv1) ∧ is_Some (shm_ns s1 !! argv2).
Proof.
  intros (sA & logA & logB & Hn1 & Hn2 & _)%main_open_calls.
  split; [split; red; by eauto 10|].
  destruct (shmemq_new_state _ _ _ _ _ _ _ _ Hn1) as (_ & _ & _ & _ & _ & _ & _ & Hns1).
  destruct (shmemq_new_state _ _ _ _ _ _ _ _ Hn2) as (_ & _ & _ & _ & _ & _ & _ & Hns2).
  assert (is_Some (shm_ns sA !! argv1)) as HA.
  { rewrite Hns1. destruct (shm_ns s0 !! argv1) eqn:E; [by rewrite E|].
    by rewrite lookup_insert_eq. }
  rewrite Hns2. destruct (shm_ns sA !! argv2) eqn:E; [by rewrite E|].
  split; [|by rewrite lookup_insert_eq].
  rewrite lookup_insert_ne; [done|]. intros <-. rewrite E in HA.
  by destruct HA.
Qed.

(** X17 (what [main] hands to the processes).  When both names are free
    and differ and [main] gets both queues, the two objects hold the
    segments in which the processes start: empty, with the mutex
    initialised.  The two handles have different descriptors and
    different mappings. *)
Theorem main_creates_both_queues o1 o2 argv1 argv2 s0 qs s1 log :
  shm_ns s0 !! argv1 = None → shm_ns s0 !! argv2 = None → argv1 ≠ argv2 →
  main_open o1 o2 argv1 argv2 s0 = (Some qs, s1, log) →
  obj_mem <$> shm_ns s1 !! argv1 = Some (server_mem (bench_init qs))
  ∧ obj_mem <$> shm_ns s1 !! argv2 = Some (client_mem (bench_init qs))
  ∧ shmem_fd (server_queue qs) ≠ shmem_fd (client_queue qs)
  ∧ mem (server_queue qs) / PAGE_SIZE ≠ mem (client_queue qs) / PAGE_SIZE.
Proof.
  intros Hfree1 Hfree2 Hne
    (sA & logA & logB & Hn1 & Hn2 & _)%main_open_calls.
  destruct (shmemq_new_creates _ _ _ _ _ _ _ _ Hfree1 Hn1) as [_ HA1].
  destruct (shmemq_new_state _ _ _ _ _ _ _ _ Hn1)
    as (Hfd1 & Hnz1 & _ & _ & Hfds1 & Hvm1 & _ & Hns1).
  assert (shm_ns sA !! argv2 = None) as HfreeA.
  { rewrite Hns1, Hfree1. by rewrite lookup_insert_ne. }
  destruct (shmemq_new_creates _ _ _ _ _ _ _ _ HfreeA Hn2) as [_ HB2].
  destruct (shmemq_new_state _ _ _ _ _ _ _ _ Hn2)
    as (Hfd2 & Hnz2 & _ & Hfr2 & _ & _ & _ & Hns2).
  rewrite HfreeA in Hns2.
  split; [by rewrite Hns2, lookup_insert_ne, HA1|].
  split; [by rewrite HB2|].
  split.
  { rewrite Hfd1, Hfd2. intros Heq%Nat2Z.inj.
    assert (fd_table sA !! fresh (dom (fd_table sA)) = None) as Hfresh
      by (apply not_elem_of_dom, is_fresh).
    rewrite <- Heq, Hfds1, lookup_insert_eq in Hfresh. done. }
  intros Heq.
  assert (mem (client_queue qs) / PAGE_SIZE
          ∈ pages_of (mem (client_queue qs)) (mmap_size (client_queue qs)))
    as Hin2.
  { apply pages_of_first.
    pose proof (shmemq_new_handle _ _ _ _ _ _ _ _ Hn2) as (_ & _ & _ & _ & Hmm).
    pose proof (to_ulong_range
                  (to_ulong (QUEUE_SIZE * SIZEOF_MESSAGE) + SIZEOF_INFO - 1)).
    rewrite Hmm in *. lia. }
  eapply Forall_forall in Hfr2; [|exact Hin2]. simpl in Hfr2.
  rewrite <- Heq, Hvm1, lookup_foldr_insert in Hfr2; [done|].
  apply pages_of_first.
  pose proof (shmemq_new_handle _ _ _ _ _ _ _ _ Hn1) as (_ & _ & _ & _ & Hmm).
  pose proof (to_ulong_range
                (to_ulong (QUEUE_SIZE * SIZEOF_MESSAGE) + SIZEOF_INFO - 1)).
  rewrite Hmm in *. lia.
Qed.

Lemma worker_close_ns sq cq s :
  shm_ns (worker_close sq cq s).1.2 = shm_ns s.
Proof.
  unfold worker_close, shmemq_destroy, munmap, close, shm_unlink. unfold_OS.
  destruct sq as [q1|], cq as [q2|]; simpl;
    repeat (destruct (_ =? 0) || destruct (_ <? 0)); done.
Qed.

(** X18 (a child of [main] only attaches).  Take one child, [server] or
    [client], that starts in the state in which [main] got both queues,
    with the name space as [main] left it.  Its calls of [shmemq_new]
    initialise nothing, whether they succeed or fail.  When both succeed,
    the handles are handles of the driver, and the objects are as [main]
    left them, also after the child has destroyed its handles at the
    end.  What the other child does to the names is not part of this: a
    failed attach unlinks the name, and whoever opens it next creates
    it. *)
Theorem workers_attach o1 o2 o3 o4 argv1 argv2 s0 qs s1 log :
  main_open o1 o2 argv1 argv2 s0 = (Some qs, s1, log) →
  let r := worker_open o3 o4 argv1 argv2 s1 in
  Forall (fun e => is_init e = false) r.2
  ∧ (∀ sq cq, r.1.1 = (Some sq, Some cq) →
       bench_queues {| server_queue := sq; client_queue := cq |}
       ∧ shm_ns r.1.2 = shm_ns s1
       ∧ shm_ns (worker_close (Some sq) (Some cq) r.1.2).1.2 = shm_ns s1).
Proof.
  intros (_ & Hnm1 & Hnm2)%main_open_queues.
  unfold worker_open. unfold_OS. simpl.
  destruct (shmemq_new o3 argv1 _ _ s1) as [[[sq|] sA] logA] eqn:Hn1; simpl.
  - destruct (shmemq_new_success _ _ _ _ _ _ _ _ Hn1)
      as (_ & [[Hfree _]|(_ & -> & HnsA)]);
      [rewrite Hfree in Hnm1; by destruct Hnm1|].
    rewrite <- HnsA in Hnm2.
    destruct (shmemq_new o4 argv2 _ _ sA) as [[[cq|] sB] logB] eqn:Hn2; simpl.
    + destruct (shmemq_new_success _ _ _ _ _ _ _ _ Hn2)
        as (_ & [[Hfree _]|(_ & -> & HnsB)]);
        [rewrite Hfree in Hnm2; by destruct Hnm2|].
      split; [repeat constructor|].
      intros ? ? [= <- <-].
      split; [split; red; by eauto 10|].
      rewrite worker_close_ns. split; congruence.
    + destruct (shmemq_new_failure _ _ _ _ _ _ _ Hn2) as (Hlog & _).
      split; [|done]. rewrite app_nil_r.
      repeat (constructor; [done|]). done.
  - destruct (shmemq_new_failure _ _ _ _ _ _ _ Hn1) as (Hlog & _).
    split; [by rewrite app_nil_r|done].
Qed.

Lemma destroy_state self s :
  0 <= shmem_fd self → max_size self ≠ 0 →
  (shmemq_destroy self 1 s).1.2
  = {| shm_ns := delete (name self) (shm_ns s);
       fd_table := delete (Z.to_nat (shmem_fd self)) (fd_table s);
       vm_pages := foldr delete (vm_pages s)
                     (pages_of (mem self) (max_size self));
       heap_blocks := Nat.pred (Nat.pred (heap_blocks s)) |}.
Proof.
  intros Hfd Hms. unfold shmemq_destroy, munmap, close, shm_unlink. unfold_OS.
  rewrite (proj2 (Z.eqb_neq _ 0)) by done.
  rewrite (proj2 (Z.ltb_ge _ 0)) by done. done.
Qed.

(** X19 (the driver cleans up after itself).  Let both names be free, let
    [main] get both queues, and let the payload array of a queue end in
    the last page of its mapping, as it does on x86-64.  Whatever the
    processes did to the two objects in between, after the two calls of
    [shmemq_destroy] at the end of [main] the process and the name space
    are exactly as they were before [main] asked for the queues. *)
Theorem driver_leaves_no_trace o1 o2 argv1 argv2 s0 qs s1 log f :
  shm_ns s0 !! argv1 = None → shm_ns s0 !! argv2 = None →
  main_open o1 o2 argv1 argv2 s0 = (Some qs, s1, log) →
  (QUEUE_SIZE * SIZEOF_MESSAGE + PAGE_SIZE - 1) / PAGE_SIZE
  = (QUEUE_SIZE * SIZEOF_MESSAGE + SIZEOF_INFO - 1 + PAGE_SIZE - 1)
      / PAGE_SIZE →
  (∀ nm, nm ≠ argv1 → nm ≠ argv2 → f (shm_ns s1) !! nm = shm_ns s1 !! nm) →
  (main_close qs (set_shm_ns f s1)).1.2 = s0.
Proof.
  intros Hfree1 Hfree2 Hopen Hpages Hf.
  destruct (main_open_queues _ _ _ _ _ _ _ _ Hopen) as ([Hb1 Hb2] & _).
  destruct (bench_handle_geometry _ Hb1) as (_ & Hms1 & Hmm1 & _).
  destruct (bench_handle_geometry _ Hb2) as (_ & Hms2 & Hmm2 & _).
  apply main_open_calls in Hopen as (sA & logA & logB & Hn1 & Hn2 & _).
  pose proof (shmemq_new_handle _ _ _ _ _ _ _ _ Hn1) as (_ & _ & _ & Hnm1 & _).
  pose proof (shmemq_new_handle _ _ _ _ _ _ _ _ Hn2) as (_ & _ & _ & Hnm2 & _).
  destruct (shmemq_new_state _ _ _ _ _ _ _ _ Hn1)
    as (Hfd1 & _ & (pg1 & _ & Hmem1) & Hfr1 & Hfds1 & Hvm1 & Hheap1 & Hns1).
  destruct (shmemq_new_state _ _ _ _ _ _ _ _ Hn2)
    as (Hfd2 & _ & (pg2 & _ & Hmem2) & Hfr2 & Hfds2 & Hvm2 & Hheap2 & Hns2).
  assert (0 < QUEUE_SIZE * SIZEOF_MESSAGE) as Hpos by done.
  unfold main_close. unfold_OS.
  set (sq := server_queue qs) in *. set (cq := client_queue qs) in *.
  assert (pages_of (mem sq) (max_size sq) = pages_of (mem sq) (mmap_size sq))
    as Hp1 by (by rewrite Hmem1, !pages_of_aligned, Hms1, Hmm1, Hpages).
  assert (pages_of (mem cq) (max_size cq) = pages_of (mem cq) (mmap_size cq))
    as Hp2 by (by rewrite Hmem2, !pages_of_aligned, Hms2, Hmm2, Hpages).
  pose proof (destroy_state sq (set_shm_ns f s1) ltac:(lia) ltac:(lia)) as HsB.
  destruct (shmemq_destroy sq 1 (set_shm_ns f s1)) as [[[] sB] lB].
  simpl in HsB. subst sB. cbv beta.
  match goal with
  | |- context [shmemq_destroy cq 1 ?st] =>
      pose proof (destroy_state cq st ltac:(lia) ltac:(lia)) as HsC;
      destruct (shmemq_destroy cq 1 st) as [[[] sC] lC]
  end.
  simpl in HsC. subst sC. simpl.
  rewrite Hfd1, Hfd2, !Nat2Z.id, Hp1, Hp2, Hnm1, Hnm2.
  set (fd1 := fresh (dom (fd_table s0))) in *.
  set (fd2 := fresh (dom (fd_table sA))) in *.
  assert (fd_table s0 !! fd1 = None) as Hfresh1
    by (apply not_elem_of_dom, is_fresh).
  assert (fd_table sA !! fd2 = None) as Hfresh2
    by (apply not_elem_of_dom, is_fresh).
  apply os_state_eq; simpl.
  - apply map_eq. intros nm.
    destruct (decide (nm = argv2)) as [->|Hne2];
      [by rewrite lookup_delete_eq|].
    rewrite lookup_delete_ne by done.
    destruct (decide (nm = argv1)) as [->|Hne1];
      [by rewrite lookup_delete_eq|].
    rewrite lookup_delete_ne by done.
    rewrite Hf by done. rewrite Hns2.
    assert (shm_ns sA !! nm = shm_ns s0 !! nm) as HA.
    { rewrite Hns1, Hfree1. by rewrite lookup_insert_ne. }
    destruct (shm_ns sA !! argv2); [done|].
    by rewrite lookup_insert_ne.
  - rewrite Hfds2, Hfds1. apply map_eq. intros fd.
    destruct (decide (fd = fd2)) as [->|Hne2].
    { rewrite lookup_delete_eq. symmetry.
      rewrite Hfds1 in Hfresh2.
      apply lookup_insert_None in Hfresh2 as [? _]. done. }
    rewrite lookup_delete_ne by done.
    destruct (decide (fd = fd1)) as [->|Hne1];
      [by rewrite lookup_delete_eq|].
    by rewrite lookup_delete_ne, !lookup_insert_ne by done.
  - rewrite Hvm2, Hvm1. apply map_eq. intros q.
    rewrite !lookup_foldr_delete.
    destruct (decide (q ∈ pages_of (mem cq) (mmap_size cq))) as [Hin2|Hout2].
    { eapply Forall_forall in Hfr2; [|done]. simpl in Hfr2.
      rewrite Hvm1 in Hfr2.
      destruct (decide (q ∈ pages_of (mem sq) (mmap_size sq))) as [Hin1|Hout1].
      - by rewrite lookup_foldr_insert in Hfr2.
      - by rewrite lookup_foldr_insert_notin in Hfr2. }
    destruct (decide (q ∈ pages_of (mem sq) (mmap_size sq))) as [Hin1|Hout1].
    { symmetry. by eapply Forall_forall in Hfr1. }
    by rewrite !lookup_foldr_insert_notin.
  - rewrite Hheap2, Hheap1. done.
Qed.

(** X20 (a [main] that gets only the first queue).  When the names
    differ and the first call of [shmemq_new] returns a handle but the
    second returns [NULL], [main] returns at once.  Nothing of the first
    queue is released: its object is still in the name space, and its
    descriptor, its mapping and its allocations are still held when
    [main] returns. *)
Theorem main_failure_keeps_first_queue o1 o2 argv1 argv2 s0 sq sA logA :
  argv1 ≠ argv2 →
  shmemq_new o1 argv1 QUEUE_SIZE SIZEOF_MESSAGE s0 = (Some sq, sA, logA) →
  (shmemq_new o2 argv2 QUEUE_SIZE SIZEOF_MESSAGE sA).1.1 = None →
  let r := main_open o1 o2 argv1 argv2 s0 in
  r.1.1 = None
  ∧ is_Some (shm_ns r.1.2 !! argv1)
  ∧ fd_table r.1.2 !! Z.to_nat (shmem_fd sq) = Some argv1
  ∧ vm_pages r.1.2 !! (mem sq / PAGE_SIZE) = Some argv1
  ∧ heap_blocks r.1.2 = S (S (heap_blocks s0)).
Proof.
  intros Hne Hn1 Hfail. unfold main_open. unfold_OS. rewrite Hn1.
  destruct (shmemq_new o2 argv2 _ _ sA) as [[r2 sB] logB] eqn:Hn2.
  simpl in Hfail. subst r2. simpl.
  destruct (shmemq_new_failure _ _ _ _ _ _ _ Hn2) as (_ & -> & -> & ->).
  pose proof (shmemq_new_failure_ns _ _ _ _ _ _ _ Hn2) as Hns.
  destruct (shmemq_new_state _ _ _ _ _ _ _ _ Hn1)
    as (Hfd & Hnz & (pg & _ & Hmem) & _ & -> & -> & -> & HnsA).
  pose proof (shmemq_new_handle _ _ _ _ _ _ _ _ Hn1) as (_ & _ & _ & _ & Hmm).
  split; [done|]. split.
  { assert (is_Some (shm_ns sA !! argv1)) as HA.
    { rewrite HnsA. destruct (shm_ns s0 !! argv1) eqn:E; [by rewrite E|].
      by rewrite lookup_insert_eq. }
    destruct Hns as [-> | ->]; [done|]. by rewrite lookup_delete_ne. }
  split; [by rewrite Hfd, Nat2Z.id, lookup_insert_eq|].
  split; [|done].
  apply lookup_foldr_insert, pages_of_first.
  pose proof (to_ulong_range
                (to_ulong (QUEUE_SIZE * SIZEOF_MESSAGE) + SIZEOF_INFO - 1)).
  rewrite Hmm in *. lia.
Qed.

End driver_life_cycle.

(** ** The driver at its own parameters on x86-64 *)

(** [main] with the names ["server"] and ["client"] and nothing open,
    mapped or named. *)
Lemma bench_example_open :
  main_open (H := linux_x86_64) kernel_ok kernel_ok2 "server" "client" os_empty
  = (Some bench_qs, os_bench,
     (main_open (H := linux_x86_64) kernel_ok kernel_ok2 "server" "client"
        os_empty).2).
Proof. apply triple_eta. by vm_compute. Qed.

Lemma bench_example_queues : bench_queues (H := linux_x86_64) bench_qs.
Proof. by destruct (main_open_queues _ _ _ _ _ _ _ _ bench_example_open). Qed.

Lemma repetitions_in_range : 10 <= REPETITIONS <= INT_MAX.
Proof. by vm_compute. Qed.

(** The driver after the client has sent and the server has received. *)
Lemma bench_example_run :
  ∃ b, run REPETITIONS bench_qs bench_qs [Client; Server]
         (bench_init (H := linux_x86_64) bench_qs) = inr b.
Proof.
  destruct (run_inv (H := linux_x86_64) REPETITIONS bench_sq bench_qs bench_qs
              repetitions_in_range (proj1 bench_example_queues)
              bench_example_queues bench_example_queues [Client; Server]
              (bench_init (H := linux_x86_64) bench_qs)) as (b & Hrun & _).
  - apply bench_init_inv; [apply repetitions_in_range| |];
      apply bench_example_queues.
  - by exists b.
Qed.


Lemma driver_send_never_waits_witness :
  ∃ b,
    run REPETITIONS bench_qs bench_qs [Client; Server]
      (bench_init (H := linux_x86_64) bench_qs) = inr b
    ∧ (loop_i (server_p b) < REPETITIONS → pos (server_p b) = SecondWait →
       ∃ b', server_turn REPETITIONS bench_qs b = inr b'
             ∧ loop_i (server_p b') = loop_i (server_p b) + 1
             ∧ pos (server_p b') = FirstWait)
    ∧ (loop_i (client_p b) < REPETITIONS → pos (client_p b) = FirstWait →
       ∃ b', client_turn REPETITIONS bench_qs b = inr b'
             ∧ loop_i (client_p b') = loop_i (client_p b)
             ∧ pos (client_p b') = SecondWait).
Proof.
  destruct bench_example_run as [b Hrun]. exists b. split; [exact Hrun|].
  apply (driver_send_never_waits (H := linux_x86_64) REPETITIONS bench_qs
           bench_qs bench_qs).
  - apply repetitions_in_range.
  - apply bench_example_queues.
  - apply bench_example_queues.
  - apply bench_example_queues.
  - by exists [Client; Server].
Defined.

Lemma driver_messages_intact_witness :
  ∃ b,
    run REPETITIONS bench_qs bench_qs [Client; Server]
      (bench_init (H := linux_x86_64) bench_qs) = inr b
    ∧ msg (server_p b) = msg_init ∧ msg (client_p b) = msg_init
    ∧ Forall (fun x => x = msg_init)
        (contents (server_queue bench_qs) (server_mem b))
    ∧ Forall (fun x => x = msg_init)
        (contents (client_queue bench_qs) (client_mem b)).
Proof.
  destruct bench_example_run as [b Hrun]. exists b. split; [exact Hrun|].
  apply (driver_messages_intact (H := linux_x86_64) REPETITIONS bench_qs
           bench_qs bench_qs).
  - apply repetitions_in_range.
  - apply bench_example_queues.
  - apply bench_example_queues.
  - apply bench_example_queues.
  - by exists [Client; Server].
Defined.

Lemma driver_can_finish_witness :
  ∃ b,
    run REPETITIONS bench_qs bench_qs [Client; Server]
      (bench_init (H := linux_x86_64) bench_qs) = inr b
    ∧ ∃ sched b_end,
        run REPETITIONS bench_qs bench_qs sched b = inr b_end
        ∧ Z.of_nat (length sched)
          = 4 * REPETITIONS
            - (calls_done (server_p b) + calls_done (client_p b))
        ∧ finished REPETITIONS (server_p b_end) = true
        ∧ finished REPETITIONS (client_p b_end) = true.
Proof.
  destruct bench_example_run as [b Hrun]. exists b. split; [exact Hrun|].
  apply (driver_can_finish (H := linux_x86_64) REPETITIONS bench_qs bench_qs
           bench_qs).
  - apply repetitions_in_range.
  - apply bench_example_queues.
  - apply bench_example_queues.
  - apply bench_example_queues.
  - by exists [Client; Server].
Defined.

Lemma driver_fair_schedule_finishes_witness :
  ∃ b_end,
    run REPETITIONS bench_qs bench_qs
      (concat (replicate (Z.to_nat (4 * REPETITIONS)) [Server; Client]))
      (bench_init (H := linux_x86_64) bench_qs) = inr b_end
    ∧ finished REPETITIONS (server_p b_end) = true
    ∧ finished REPETITIONS (client_p b_end) = true.
Proof.
  apply (driver_fair_schedule_finishes (H := linux_x86_64) REPETITIONS
           bench_qs bench_qs bench_qs).
  - apply repetitions_in_range.
  - apply bench_example_queues.
  - apply bench_example_queues.
  - apply bench_example_queues.
  - apply Forall_replicate. split; repeat constructor.
  - rewrite length_replicate, Z2Nat.id; [lia|by vm_compute].
Defined.

Lemma driver_final_state_witness :
  ∃ b,
    run REPETITIONS bench_qs bench_qs [Client; Server]
      (bench_init (H := linux_x86_64) bench_qs) = inr b
    ∧ calls_done (server_p b) + calls_done (client_p b) <= 4 * REPETITIONS
    ∧ (finished REPETITIONS (server_p b) = true →
       finished REPETITIONS (client_p b) = true →
       contents (server_queue bench_qs) (server_mem b) = []
       ∧ contents (client_queue bench_qs) (client_mem b) = []
       ∧ write_index (server_mem b) = REPETITIONS * SIZEOF_MESSAGE
       ∧ write_index (client_mem b) = REPETITIONS * SIZEOF_MESSAGE).
Proof.
  destruct bench_example_run as [b Hrun]. exists b. split; [exact Hrun|].
  apply (driver_final_state (H := linux_x86_64) REPETITIONS bench_qs bench_qs
           bench_qs).
  - apply repetitions_in_range.
  - apply bench_example_queues.
  - apply bench_example_queues.
  - apply bench_example_queues.
  - by exists [Client; Server].
Defined.

Lemma driver_few_repetitions_divide_by_zero_witness :
  run 5 bench_qs bench_qs [Client; Server; Server]
    (bench_init (H := linux_x86_64) bench_qs)
  = inl DivByZero.
Proof.
  apply (driver_few_repetitions_divide_by_zero (H := linux_x86_64) 5 bench_qs
           bench_qs bench_qs).
  - by vm_compute.
  - apply bench_example_queues.
  - apply bench_example_queues.
  - apply bench_example_queues.
Defined.

Lemma main_creates_both_queues_witness :
  obj_mem <$> shm_ns os_bench !! "server"%string
  = Some (server_mem (bench_init (H := linux_x86_64) bench_qs))
  ∧ obj_mem <$> shm_ns os_bench !! "client"%string
    = Some (client_mem (bench_init (H := linux_x86_64) bench_qs))
  ∧ shmem_fd (server_queue bench_qs) ≠ shmem_fd (client_queue bench_qs)
  ∧ mem (server_queue bench_qs) / PAGE_SIZE (platform := linux_x86_64)
    ≠ mem (client_queue bench_qs) / PAGE_SIZE (platform := linux_x86_64).
Proof.
  apply (main_creates_both_queues (H := linux_x86_64) kernel_ok kernel_ok2
           "server" "client" os_empty bench_qs os_bench
           (main_open (H := linux_x86_64) kernel_ok kernel_ok2 "server"
              "client" os_empty).2).
  - reflexivity.
  - reflexivity.
  - by vm_compute.
  - apply bench_example_open.
Defined.

Lemma worker_example_open :
  (worker_open (H := linux_x86_64) kernel_ok3 kernel_ok4 "server" "client"
     os_bench).1.1 = (Some worker_sq, Some worker_cq).
Proof. by vm_compute. Qed.

Lemma workers_attach_witness :
  (worker_open (H := linux_x86_64) kernel_ok3 kernel_ok4 "server" "client"
     os_bench).1.1 = (Some worker_sq, Some worker_cq)
  ∧ Forall (fun e => is_init e = false)
      (worker_open (H := linux_x86_64) kernel_ok3 kernel_ok4 "server"
         "client" os_bench).2
  ∧ bench_queues (H := linux_x86_64)
      {| server_queue := worker_sq; client_queue := worker_cq |}
  ∧ shm_ns
      (worker_open (H := linux_x86_64) kernel_ok3 kernel_ok4 "server"
         "client" os_bench).1.2
    = shm_ns os_bench
  ∧ shm_ns
      (worker_close (H := linux_x86_64) (Some worker_sq) (Some worker_cq)
         (worker_open (H := linux_x86_64) kernel_ok3 kernel_ok4 "server"
            "client" os_bench).1.2).1.2
    = shm_ns os_bench.
Proof.
  pose proof (workers_attach (H := linux_x86_64) kernel_ok kernel_ok2
                kernel_ok3 kernel_ok4 "server" "client" os_empty bench_qs
                os_bench
                (main_open (H := linux_x86_64) kernel_ok kernel_ok2 "server"
                   "client" os_empty).2 bench_example_open) as [Hinit Hboth].
  split; [exact worker_example_open|]. split; [exact Hinit|].
  exact (Hboth worker_sq worker_cq worker_example_open).
Defined.

Lemma driver_leaves_no_trace_witness :
  (main_close (H := linux_x86_64) bench_qs
     (set_shm_ns (fun ns => ns) os_bench)).1.2
  = os_empty.
Proof.
  apply (driver_leaves_no_trace (H := linux_x86_64) kernel_ok kernel_ok2
           "server" "client" os_empty bench_qs os_bench
           (main_open (H := linux_x86_64) kernel_ok kernel_ok2 "server"
              "client" os_empty).2 (fun ns => ns)).
  - reflexivity.
  - reflexivity.
  - apply bench_example_open.
  - by vm_compute.
  - intros nm _ _. reflexivity.
Defined.

Lemma main_failure_keeps_first_queue_witness :
  (main_open (H := linux_x86_64) kernel_ok kernel_no_fd "server" "client"
     os_empty).1.1 = None
  ∧ is_Some
      (shm_ns
         (main_open (H := linux_x86_64) kernel_ok kernel_no_fd "server"
            "client" os_empty).1.2 !! "server"%string)
  ∧ fd_table
      (main_open (H := linux_x86_64) kernel_ok kernel_no_fd "server" "client"
         os_empty).1.2 !! Z.to_nat (shmem_fd bench_sq)
    = Some "server"%string
  ∧ vm_pages
      (main_open (H := linux_x86_64) kernel_ok kernel_no_fd "server" "client"
         os_empty).1.2
      !! (mem bench_sq / PAGE_SIZE (platform := linux_x86_64))
    = Some "server"%string
  ∧ heap_blocks
      (main_open (H := linux_x86_64) kernel_ok kernel_no_fd "server" "client"
         os_empty).1.2
    = S (S (heap_blocks os_empty)).
Proof.
  apply (main_failure_keeps_first_queue (H := linux_x86_64) kernel_ok
           kernel_no_fd "server" "client" os_empty bench_sq os_server
           (shmemq_new (H := linux_x86_64) kernel_ok "server" QUEUE_SIZE
              SIZEOF_MESSAGE os_empty).2).
  - by vm_compute.
  - apply triple_eta. by vm_compute.
  - by vm_compute.
Defined.
